(** * load_tester.py: a shallow embedding and its verified properties

    The development follows [src/load_tester.py]: the [LoadTester] object,
    [send_request], [run] and [print_results].

    Modelling choices, fixed once for the whole file:
    - Python [int]s are [Z] (status codes, [num_requests], [num_threads]);
      occurrence counts, which start at 1 and only grow, are [nat];
      request ids, which come from [range], are [nat].
    - Python [float]s that come from outside (elapsed times, timestamps,
      the interval) are exact rationals [Q], and so are their sums,
      differences and quotients; a report line carries the value that is
      formatted, not its [:.2f] or [:.4f] rendering. Two figures are carried
      as they are printed, because claims add them up or because they are
      not rational: the percentage of line 120, a float computed from two
      [int]s and printed to one decimal, is computed and rounded as Python
      does; the standard deviation of line 116, a square root, is carried to
      the four decimals printed.
    - A Python [dict] is an association list in insertion order with
      unique keys: iteration order of [items()] is insertion order, which
      the stable [sorted] of the error histogram exposes.
    - [requests.get], [time.time] and [datetime.now] are the environment:
      what they return is an input of the model, and so is the longest
      sleep the system grants to [time.sleep].
    - The worker pool is an interleaving of the workers' accesses to the
      shared [LoadTester]: a [list.append] is one step, a membership test,
      a subscript load and a subscript store on a [dict] are one step each.
      The source takes no lock anywhere, and Python's documentation counts
      [L.append(x)] among the operations that are atomic and
      [D[x] = D[x] + 1] among those that are not.
    - An exception that leaves [run] ends the model of the run: the
      [ValueError] of a pool without workers or of a negative sleep, the
      [OverflowError] and [OSError] of a sleep too long, the
      [ZeroDivisionError] and [TypeError] of the report's arithmetic. *)

From Stdlib Require Import String Ascii DecimalString.
From Stdlib Require Import ZArith QArith Qminmax Qround Qabs Qpower.
From Stdlib Require Import Lia Lqa List Bool Arith PeanoNat.
From Stdlib Require Import Sorting.Sorted Sorting.Permutation.
Import ListNotations.

Local Open Scope Z_scope.

(** ** Dictionaries in insertion order

    The key equality test is a parameter: [Z.eqb] for [status_codes],
    [String.eqb] for the error histogram. *)

Module Dict.

(** [d[k]], [None] standing for [KeyError]. *)
Fixpoint get {K V : Type} (eqb : K -> K -> bool) (k : K) (d : list (K * V)) : option V :=
  match d with
  | [] => None
  | (k', v) :: d' => if eqb k k' then Some v else get eqb k d'
  end.

(** [k in d]. *)
Definition mem {K V : Type} (eqb : K -> K -> bool) (k : K) (d : list (K * V)) : bool :=
  match get eqb k d with Some _ => true | None => false end.

(** [d[k] = v]: an existing key keeps its position, a new key goes last. *)
Fixpoint set {K V : Type} (eqb : K -> K -> bool) (k : K) (v : V) (d : list (K * V))
  : list (K * V) :=
  match d with
  | [] => [(k, v)]
  | (k', v') :: d' =>
      if eqb k k' then (k', v) :: d' else (k', v') :: set eqb k v d'
  end.

Definition keys {K V : Type} (d : list (K * V)) : list K := map fst d.

(** [d.get(k, 0)] for a dictionary of counts. *)
Definition count {K : Type} (eqb : K -> K -> bool) (k : K) (d : list (K * nat)) : nat :=
  match get eqb k d with Some c => c | None => O end.

(** [sum(d.values())] for a dictionary of counts. *)
Definition total {K : Type} (d : list (K * nat)) : nat := list_sum (map snd d).

End Dict.

(** ** Exceptions, outcomes of one HTTP attempt, results *)

(** What the body of [send_request] can raise, all of it instances of
    subclasses of Python's [Exception]: whatever [requests.get] raises
    (timeouts, connection and DNS errors are [RequestException]s), with
    its text, and [KeyError] from the subscript load of line 49. *)
Inductive exn : Type :=
| RequestException (msg : string)
| KeyError (key : Z).

(** [str(e)]; the text of a [KeyError] is its key. *)
Definition str (e : exn) : string :=
  match e with
  | RequestException msg => msg
  | KeyError key => NilZero.string_of_int (Z.to_int key)
  end.

(** What can leave [run]: [ZeroDivisionError] and [TypeError] from the
    arithmetic of [print_results], [ValueError] from the constructor of
    the pool and from [time.sleep], [OverflowError] and [OSError] from
    [time.sleep]. *)
Inductive fault : Type :=
| ZeroDivisionError
| TypeError
| ValueError
| OverflowError
| OSError.

(** What the environment does with one [requests.get(self.url, timeout=10)]
    framed by the two [time.time()] calls: a response with its status code,
    [end - start] being the elapsed time, or an exception with its text. *)
Inductive attempt : Type :=
| Got (status_code : Z) (response_time : Q)
| Raises (msg : string).

(** The dictionary [send_request] returns. *)
Inductive result : Type :=
| Success (id : nat) (status_code : Z) (response_time : Q)
| Failure (id : nat) (error : string).

Definition success (r : result) : bool :=
  match r with Success _ _ _ => true | Failure _ _ => false end.

(** How a call ends: it returns, or an exception leaves it. *)
Inductive completion : Type :=
| Return (r : result)
| Propagate (e : exn).

(** ** The [LoadTester] object *)

Record LoadTester : Type := mkLoadTester {
  url : string;
  num_threads : Z;
  num_requests : Z;
  interval : Q;
  response_times : list Q;
  status_codes : list (Z * nat);
  errors : list string;
  start_time : option Q;
  end_time : option Q
}.

(** [LoadTester.__init__]. *)
Definition init (u : string) (threads requests : Z) (iv : Q) : LoadTester :=
  mkLoadTester u threads requests iv [] [] [] None None.

Definition append_response_time (t : LoadTester) (x : Q) : LoadTester :=
  mkLoadTester (url t) (num_threads t) (num_requests t) (interval t)
    (response_times t ++ [x]) (status_codes t) (errors t)
    (start_time t) (end_time t).

Definition store_status_code (t : LoadTester) (k : Z) (v : nat) : LoadTester :=
  mkLoadTester (url t) (num_threads t) (num_requests t) (interval t)
    (response_times t) (Dict.set Z.eqb k v (status_codes t)) (errors t)
    (start_time t) (end_time t).

Definition append_error (t : LoadTester) (m : string) : LoadTester :=
  mkLoadTester (url t) (num_threads t) (num_requests t) (interval t)
    (response_times t) (status_codes t) (errors t ++ [m])
    (start_time t) (end_time t).

Definition set_start_time (t : LoadTester) (x : Q) : LoadTester :=
  mkLoadTester (url t) (num_threads t) (num_requests t) (interval t)
    (response_times t) (status_codes t) (errors t)
    (Some x) (end_time t).

Definition set_end_time (t : LoadTester) (x : Q) : LoadTester :=
  mkLoadTester (url t) (num_threads t) (num_requests t) (interval t)
    (response_times t) (status_codes t) (errors t)
    (start_time t) (Some x).

(** ** [send_request], run without interruption *)

(** The body of the [try] (lines 40-58): the state it leaves and either the
    exception it raised or the value it returns. *)
Definition send_request_try (t : LoadTester) (request_id : nat) (a : attempt)
  : LoadTester * (exn + result) :=
  match a with
  | Raises msg => (t, inl (RequestException msg))
  | Got status_code response_time =>
      let t1 := append_response_time t response_time in
      if Dict.mem Z.eqb status_code (status_codes t1) then
        match Dict.get Z.eqb status_code (status_codes t1) with
        | Some c =>
            (store_status_code t1 status_code (c + 1)%nat,
             inr (Success request_id status_code response_time))
        | None => (t1, inl (KeyError status_code))
        end
      else
        (store_status_code t1 status_code 1%nat,
         inr (Success request_id status_code response_time))
  end.

(** [except Exception as e] (lines 59-65) around the body. *)
Definition send_request (t : LoadTester) (request_id : nat) (a : attempt)
  : LoadTester * completion :=
  match send_request_try t request_id a with
  | (t', inr r) => (t', Return r)
  | (t', inl e) => (append_error t' (str e), Return (Failure request_id (str e)))
  end.

(** Tasks run one after the other, in the order given (a completion order
    of a run whose calls do not overlap). *)
Fixpoint run_in_order (http : nat -> attempt) (order : list nat) (t : LoadTester)
  : LoadTester :=
  match order with
  | [] => t
  | i :: rest => run_in_order http rest (fst (send_request t i (http i)))
  end.

(** ** Built-ins used by the report *)

(** [sorted]: a stable sort. [insert_by leb x l] puts [x], which comes
    before every element of [l] in the input, in front of the first element
    it may precede, so equal elements keep their input order. *)
Fixpoint insert_by {A : Type} (leb : A -> A -> bool) (x : A) (l : list A) : list A :=
  match l with
  | [] => [x]
  | y :: l' => if leb x y then x :: l else y :: insert_by leb x l'
  end.

Fixpoint sorted {A : Type} (leb : A -> A -> bool) (l : list A) : list A :=
  match l with
  | [] => []
  | x :: l' => insert_by leb x (sorted leb l')
  end.

(** Tuple comparison of [sorted(self.status_codes.items())]. *)
Definition item_leb (a b : Z * nat) : bool :=
  (fst a <? fst b) || ((fst a =? fst b) && (snd a <=? snd b)%nat).

(** [key=lambda x: x[1], reverse=True]: larger counts first; [reverse]
    keeps the sort stable. *)
Definition count_geb (a b : string * nat) : bool := (snd b <=? snd a)%nat.

(** [min] and [max] of a list with first element [x]. *)
Definition min_list (x : Q) (l : list Q) : Q := fold_left Qmin l x.
Definition max_list (x : Q) (l : list Q) : Q := fold_left Qmax l x.

Definition Qsum (l : list Q) : Q := fold_right Qplus 0%Q l.

Definition Qlen (l : list Q) : Q := inject_Z (Z.of_nat (length l)).

(** [statistics.mean]. *)
Definition mean (l : list Q) : Q := (Qsum l / Qlen l)%Q.

(** [statistics.median]: the middle element of the sorted data, or the
    average of the two middle elements. *)
Definition median (l : list Q) : Q :=
  let data := sorted Qle_bool l in
  let n := length data in
  if Nat.eqb (n mod 2) 1 then nth (n / 2) data 0%Q
  else ((nth (n / 2 - 1) data 0 + nth (n / 2) data 0) / 2)%Q.

(** [statistics.variance], whose square root [statistics.stdev] returns. *)
Definition variance (l : list Q) : Q :=
  let m := mean l in
  (Qsum (map (fun x => (x - m) * (x - m)) l) / (Qlen l - 1))%Q.

(** Rounding to the nearest integer, a tie going to the even one: what
    float arithmetic does with the bits, and the format specifications
    [:.1f] and [:.4f] with the digits, that they drop. *)
Definition round_half_even (x : Q) : Z :=
  let f := Qfloor x in
  match (x - inject_Z f ?= 1 # 2)%Q with
  | Lt => f
  | Gt => f + 1
  | Eq => if Z.even f then f else f + 1
  end.

(** The square root of [y] rounded in the same way, from the integer
    square root of [4 * y]: [r <= 2 * sqrt y < r + 1]. *)
Definition sqrt_half_even (y : Q) : Z :=
  let r := Z.sqrt (Qfloor (4 * y)) in
  if Z.even r then r / 2
  else if Qeq_bool (4 * y) (inject_Z (r * r)) && Z.even (r / 2) then r / 2
  else r / 2 + 1.

(** [statistics.stdev] as the [:.4f] of line 116 prints it: the square
    root of the sample variance to four decimals. *)
Definition stdev_4f (l : list Q) : Q :=
  sqrt_half_even (variance l * inject_Z (10 ^ 8)) # 10000.

(** The exponent [e] with [2 ^ e <= x < 2 ^ (e + 1)], for [0 < x]. *)
Definition binade (x : Q) : Z :=
  if Qle_bool 1 x then Z.log2 (Qfloor x)
  else - Z.log2_up (Qceiling (/ x)).

(** The [float] nearest to a rational: 53 significant bits, fewer below
    [2 ^ -1022], a tie going to the even last bit. This is the result of
    [/] on two [int]s and of [*] on two floats when [x] is their exact
    quotient or product. Values beyond the largest float, which the
    report's percentages never reach, are not modelled. *)
Definition float (x : Q) : Q :=
  if Qeq_bool x 0 then 0%Q
  else
    let u := Z.max (binade (Qabs x)) (-1022) - 52 in
    Qred (inject_Z (round_half_even (x / 2 ^ u)) * 2 ^ u).

(** [f"{x:.1f}"]: a float to one decimal. *)
Definition format_1f (x : Q) : Q := round_half_even (x * 10) # 10.

(** ** Output *)

Inductive line : Type :=
| StartingLoadTest (u : string)
| Settings (threads requests : Z) (iv : Q)
| Rule
| Progress (sent total : Z)
| NoSuccessfulRequests
| LoadTestResults
| TestDuration (seconds : Q)
| RequestsPerSecond (r : Q)
| TotalRequests (n : Z)
| SuccessfulRequests (n : nat)
| FailedRequests (n : nat)
| ResponseTimeStatistics
| Min (x : Q)
| Max (x : Q)
| Mean (x : Q)
| Median (x : Q)
| StdDev (x : Q)
| StatusCodeDistribution
| StatusCode (code : Z) (count : nat) (percent : Q)
| ErrorTypes (total : nat)
| ErrorType (msg : string) (count : nat).

(** What a call of [print_results] did: the lines it printed, and whether
    it returned or an exception left it after them. *)
Inductive printed : Type :=
| Returned (out : list line)
| Raised (out : list line) (e : fault).

Definition lines_of (p : printed) : list line :=
  match p with Returned out => out | Raised out _ => out end.

(** [count/self.num_requests*100] of line 120: the two [int]s are divided
    into a float, which is multiplied by 100 into a float. *)
Definition percent (count : nat) (n : Z) : Q :=
  float (float (inject_Z (Z.of_nat count) / inject_Z n) * 100).

(** The quotient the float [percent] approximates. *)
Definition share (count : nat) (n : Z) : Q :=
  (inject_Z (Z.of_nat count) / inject_Z n * 100)%Q.

(** Lines 110-116. *)
Definition statistics_lines (x : Q) (xs : list Q) : list line :=
  [ResponseTimeStatistics; Min (min_list x xs); Max (max_list x xs);
   Mean (mean (x :: xs)); Median (median (x :: xs))]
  ++ (if (1 <? length (x :: xs))%nat then [StdDev (stdev_4f (x :: xs))] else []).

(** Lines 119-120, for a non-zero [num_requests]. *)
Definition status_code_lines (d : list (Z * nat)) (n : Z) : list line :=
  map (fun it => StatusCode (fst it) (snd it) (format_1f (percent (snd it) n)))
      (sorted item_leb d).

(** Lines 124-129. *)
Fixpoint error_counts (errs : list string) (acc : list (string * nat))
  : list (string * nat) :=
  match errs with
  | [] => acc
  | error :: rest =>
      error_counts rest
        (match Dict.get String.eqb error acc with
         | Some c => Dict.set String.eqb error (c + 1)%nat acc
         | None => Dict.set String.eqb error 1%nat acc
         end)
  end.

(** Lines 122-132. *)
Definition error_lines (errs : list string) : list line :=
  match errs with
  | [] => []
  | _ :: _ =>
      ErrorTypes (length errs)
      :: map (fun it => ErrorType (fst it) (snd it))
             (sorted count_geb (error_counts errs []))
  end.

(** Lines 100-107, for a non-zero duration. *)
Definition summary_lines (t : LoadTester) (duration : Q) : list line :=
  let requests_per_second := (inject_Z (num_requests t) / duration)%Q in
  [LoadTestResults; TestDuration duration;
   RequestsPerSecond requests_per_second;
   TotalRequests (num_requests t);
   SuccessfulRequests (length (response_times t));
   FailedRequests (length (errors t))].

(** [print_results]. *)
Definition print_results (t : LoadTester) : printed :=
  match response_times t with
  | [] => Returned [NoSuccessfulRequests]
  | x :: xs =>
      match start_time t, end_time t with
      | Some s, Some e =>
          let duration := (e - s)%Q in
          if Qeq_bool duration 0 then Raised [] ZeroDivisionError
          else
            let out :=
              summary_lines t duration
              ++ statistics_lines x xs
              ++ [StatusCodeDistribution] in
            match status_codes t with
            | [] => Returned (out ++ error_lines (errors t))
            | _ :: _ =>
                if num_requests t =? 0 then Raised out ZeroDivisionError
                else Returned (out ++ status_code_lines (status_codes t) (num_requests t)
                                   ++ error_lines (errors t))
            end
      | _, _ => Raised [] TypeError
      end
  end.

(** ** [run]: the dispatching thread and the pool's workers, step by step *)

(** Where a submitted [send_request] call stands. Between two steps any
    other thread may run. *)
Inductive pc : Type :=
| Queued                                   (* submitted, no worker has taken it *)
| InRequest                                (* line 41, waiting for the client *)
| AtAppend (status_code : Z) (response_time : Q)       (* before line 45 *)
| AtTest (status_code : Z) (response_time : Q)         (* before line 48 *)
| AtLoad (status_code : Z) (response_time : Q)         (* line 49, the load *)
| AtStore (status_code : Z) (response_time : Q) (v : nat)
                                           (* line 49 or 51, the store *)
| AtHandler (e : exn)                      (* before line 60 *)
| Finished (c : completion).

(** One step of the call with id [request_id] on the shared object. *)
Definition worker_step (a : attempt) (request_id : nat) (t : LoadTester) (p : pc)
  : option (LoadTester * pc) :=
  match p with
  | Queued => Some (t, InRequest)
  | InRequest =>
      match a with
      | Got status_code response_time => Some (t, AtAppend status_code response_time)
      | Raises msg => Some (t, AtHandler (RequestException msg))
      end
  | AtAppend sc rt => Some (append_response_time t rt, AtTest sc rt)
  | AtTest sc rt =>
      if Dict.mem Z.eqb sc (status_codes t)
      then Some (t, AtLoad sc rt)
      else Some (t, AtStore sc rt 1%nat)
  | AtLoad sc rt =>
      match Dict.get Z.eqb sc (status_codes t) with
      | Some c => Some (t, AtStore sc rt (c + 1)%nat)
      | None => Some (t, AtHandler (KeyError sc))
      end
  | AtStore sc rt v =>
      Some (store_status_code t sc v, Finished (Return (Success request_id sc rt)))
  | AtHandler e =>
      Some (append_error t (str e), Finished (Return (Failure request_id (str e))))
  | Finished _ => None
  end.

Definition is_queued (p : pc) : bool :=
  match p with Queued => true | _ => false end.

Definition is_finished (p : pc) : bool :=
  match p with Finished _ => true | _ => false end.

(** A call a worker is executing. *)
Definition in_flight (p : pc) : bool := negb (is_queued p) && negb (is_finished p).

(** Where the dispatching thread stands in [run]. *)
Inductive main_pc : Type :=
| MStart                      (* line 69 *)
| MLoop (i : nat)             (* line 77, about to take [i] from the range *)
| MSleep (i : nat)            (* line 79, task [i] submitted *)
| MWait                       (* line 87 *)
| MReport                     (* line 91 *)
| MDone
| MRaised (e : fault).

(** What the dispatching thread does, in order. *)
Inductive event : Type :=
| Submit (request_id : nat)
| Sleep (seconds : Q)
| Print (l : line).

Record env : Type := mkEnv {
  http : nat -> attempt;      (* what the client does for each request *)
  clock_start : Q;            (* [datetime.now()] at line 73 *)
  clock_end : Q;              (* [datetime.now()] at line 89 *)
  sleep_max : Q               (* the longest sleep the system grants *)
}.

Record world : Type := mkWorld {
  obj : LoadTester;
  main : main_pc;
  futures : list pc;
  log : list event
}.

Definition boot (t : LoadTester) : world := mkWorld t MStart [] [].

(** [l[i] = x]; out of range nothing is written (the model never does). *)
Fixpoint update {A : Type} (i : nat) (x : A) (l : list A) : list A :=
  match l, i with
  | [], _ => []
  | _ :: l', O => x :: l'
  | y :: l', S i' => y :: update i' x l'
  end.

Definition count_if {A : Type} (f : A -> bool) (l : list A) : nat :=
  length (filter f l).

(** The condition of line 82. *)
Definition progress_due (i : nat) (n : Z) : bool :=
  ((Z.of_nat i + 1) mod 10 =? 0) || (Z.of_nat i + 1 =? n).

(** [time.sleep] keeps the duration as a signed 64-bit count of
    nanoseconds and raises [OverflowError] when the seconds do not fit,
    from about 9.2e9 s on, before it looks at the sign. *)
Definition sleep_fits (seconds : Q) : bool :=
  Qle_bool (inject_Z (- 2 ^ 63)) (seconds * inject_Z (10 ^ 9))
  && negb (Qle_bool (inject_Z (2 ^ 63)) (seconds * inject_Z (10 ^ 9))).

(** What [time.sleep(seconds)] raises, if it does not return: after the
    conversion a negative duration is a [ValueError]; a duration the system
    call refuses is an [OSError] (on Linux, [clock_nanosleep] fails with
    [EINVAL] when the deadline is beyond what the kernel's clock holds). *)
Definition sleep_raises (E : env) (seconds : Q) : option fault :=
  if negb (sleep_fits seconds) then Some OverflowError
  else if negb (Qle_bool 0 seconds) then Some ValueError
  else if negb (Qle_bool seconds (sleep_max E)) then Some OSError
  else None.

(** The exceptions that leave [run] before its barrier. *)
Definition raised_before_barrier (e : fault) : bool :=
  match e with
  | ValueError | OverflowError | OSError => true
  | ZeroDivisionError | TypeError => false
  end.

(** One step of the dispatching thread. *)
Definition main_step (E : env) (w : world) : option world :=
  let t := obj w in
  match main w with
  | MStart =>
      let t' := set_start_time t (clock_start E) in
      let out := [Print (StartingLoadTest (url t));
                  Print (Settings (num_threads t) (num_requests t) (interval t));
                  Print Rule] in
      Some (mkWorld t'
              (if num_threads t <=? 0 then MRaised ValueError else MLoop 0)
              (futures w) (log w ++ out))
  | MLoop i =>
      if Z.of_nat i <? num_requests t
      then Some (mkWorld t (MSleep i) (futures w ++ [Queued]) (log w ++ [Submit i]))
      else Some (mkWorld t MWait (futures w) (log w))
  | MSleep i =>
      match sleep_raises E (interval t) with
      | None =>
          Some (mkWorld t (MLoop (S i)) (futures w)
                  (log w ++ Sleep (interval t)
                     :: (if progress_due i (num_requests t)
                         then [Print (Progress (Z.of_nat i + 1) (num_requests t))]
                         else [])))
      | Some e => Some (mkWorld t (MRaised e) (futures w) (log w))
      end
  | MWait =>
      if forallb is_finished (futures w)
      then Some (mkWorld (set_end_time t (clock_end E)) MReport (futures w)
                   (log w ++ [Print Rule]))
      else None
  | MReport =>
      match print_results t with
      | Returned out => Some (mkWorld t MDone (futures w) (log w ++ map Print out))
      | Raised out e => Some (mkWorld t (MRaised e) (futures w) (log w ++ map Print out))
      end
  | MDone => None
  | MRaised _ => None
  end.

(** A worker takes the oldest queued call, if one of the [num_threads]
    workers is idle; a call in flight makes its next step. *)
Definition can_step (w : world) (i : nat) (p : pc) : bool :=
  if is_queued p
  then (Z.of_nat (count_if in_flight (futures w)) <? num_threads (obj w))
       && negb (existsb is_queued (firstn i (futures w)))
  else true.

Inductive choice : Type :=
| Main
| Worker (i : nat).

Definition step (E : env) (c : choice) (w : world) : option world :=
  match c with
  | Main => main_step E w
  | Worker i =>
      match nth_error (futures w) i with
      | Some p =>
          if can_step w i p then
            match worker_step (http E i) i (obj w) p with
            | Some (t', p') => Some (mkWorld t' (main w) (update i p' (futures w)) (log w))
            | None => None
            end
          else None
      | None => None
      end
  end.

(** A schedule is the list of the scheduler's choices. *)
Fixpoint exec (E : env) (sched : list choice) (w : world) : option world :=
  match sched with
  | [] => Some w
  | c :: rest =>
      match step E c w with
      | Some w' => exec E rest w'
      | None => None
      end
  end.

(** The barrier of line 87 has returned. *)
Definition past_barrier (m : main_pc) : bool :=
  match m with MReport | MDone => true | MRaised ZeroDivisionError => true
             | MRaised TypeError => true | _ => false end.

(** ** What a call has contributed so far *)

Definition sum_over {A : Type} (f : A -> nat) (l : list A) : nat :=
  list_sum (map f l).

(** 1 once line 45 has appended the call's elapsed time. *)
Definition appended (p : pc) : nat :=
  match p with
  | AtTest _ _ | AtLoad _ _ | AtStore _ _ _ => 1
  | Finished (Return (Success _ _ _)) => 1
  | _ => 0
  end.

(** 1 once line 60 has appended the call's error text. *)
Definition reported (p : pc) : nat :=
  match p with
  | Finished (Return (Failure _ _)) => 1
  | _ => 0
  end.

(** 1 once the call has stored a count for status code [k]. *)
Definition stored (k : Z) (p : pc) : nat :=
  match p with
  | Finished (Return (Success _ sc _)) => if sc =? k then 1 else 0
  | _ => 0
  end.

(** The result that belongs to an attempt. *)
Definition expected (request_id : nat) (a : attempt) : result :=
  match a with
  | Got sc rt => Success request_id sc rt
  | Raises msg => Failure request_id msg
  end.

(** A call that has returned what belongs to its attempt. *)
Definition finished_call (http : nat -> attempt) (i : nat) : pc :=
  Finished (Return (expected i (http i))).

Definition is_response (a : attempt) : bool :=
  match a with Got _ _ => true | Raises _ => false end.

(** The requests [0 .. n-1] the client answered, and those it did not. *)
Definition responses (http : nat -> attempt) (n : nat) : nat :=
  count_if (fun i => is_response (http i)) (seq 0 n).

Definition failures (http : nat -> attempt) (n : nat) : nat :=
  count_if (fun i => negb (is_response (http i))) (seq 0 n).

(** The requests [0 .. n-1] the client answered with status code [k]. *)
Definition responses_with (http : nat -> attempt) (k : Z) (n : nat) : nat :=
  count_if (fun i => match http i with Got sc _ => sc =? k | Raises _ => false end)
           (seq 0 n).

(** A call's position is consistent with what the client did for it and
    with the shared dictionary [d]. *)
Definition agrees (a : attempt) (request_id : nat) (d : list (Z * nat)) (p : pc) : Prop :=
  match p with
  | Queued | InRequest => True
  | AtAppend sc rt | AtTest sc rt => a = Got sc rt
  | AtLoad sc rt => a = Got sc rt /\ Dict.mem Z.eqb sc d = true
  | AtStore sc rt v => a = Got sc rt
  | AtHandler e => exists msg, a = Raises msg /\ e = RequestException msg
  | Finished c => c = Return (expected request_id a)
  end.

(** Reachable worlds: some schedule leads there from the start of [run]. *)
Definition reachable (E : env) (t0 : LoadTester) (w : world) : Prop :=
  exists sched, exec E sched (boot t0) = Some w.

(** The configuration is never written. *)
Definition same_config (t0 t : LoadTester) : Prop :=
  url t = url t0 /\ num_threads t = num_threads t0
  /\ num_requests t = num_requests t0 /\ interval t = interval t0.

(** How many calls have been submitted at each point of [run]. *)
Definition dispatch_ok (n : nat) (w : world) : Prop :=
  match main w with
  | MStart => futures w = []
  | MLoop i => length (futures w) = i /\ (i <= n)%nat
  | MSleep i => length (futures w) = S i /\ (S i <= n)%nat
  | MWait => length (futures w) = n
  | MReport | MDone =>
      length (futures w) = n /\ forallb is_finished (futures w) = true
  | MRaised e =>
      raised_before_barrier e = true
      \/ (length (futures w) = n /\ forallb is_finished (futures w) = true)
  end.

Record invariant (E : env) (t0 : LoadTester) (w : world) : Prop := {
  inv_config : same_config t0 (obj w);
  inv_dispatch : dispatch_ok (Z.to_nat (num_requests t0)) w;
  inv_agrees : forall i p, nth_error (futures w) i = Some p ->
                 agrees (http E i) i (status_codes (obj w)) p;
  inv_times : length (response_times (obj w)) = sum_over appended (futures w);
  inv_errors : length (errors (obj w)) = sum_over reported (futures w);
  inv_keys : NoDup (Dict.keys (status_codes (obj w)));
  inv_counts : forall k,
      (Dict.count Z.eqb k (status_codes (obj w)) <= sum_over (stored k) (futures w))%nat
      /\ (1 <= sum_over (stored k) (futures w) ->
          1 <= Dict.count Z.eqb k (status_codes (obj w)))%nat;
  inv_pending : forall i sc rt v, nth_error (futures w) i = Some (AtStore sc rt v) ->
      (1 <= v <= sum_over (stored sc) (futures w) + 1)%nat;
  inv_positive : forall k c, Dict.get Z.eqb k (status_codes (obj w)) = Some c ->
      (1 <= c)%nat
}.

(** ** Sample runs *)

(** In the sample environments the system grants sleeps of up to a billion
    seconds. Two requests on two workers; the client answers the first
    with 200 and lets the second time out. *)
Definition env_one_timeout : env :=
  mkEnv (fun i => match i with
                  | 1%nat => Raises "timed out"
                  | _ => Got 200 (1 # 10)
                  end) 0 1 1000000000.

(** Both calls are submitted, then the workers alternate. *)
Definition schedule_one_timeout : list choice :=
  [Main; Main; Main; Main; Main; Main;
   Worker 0; Worker 1; Worker 0; Worker 1; Worker 0; Worker 1;
   Worker 0; Worker 0; Main; Main]%nat.

(** ** The trace of the dispatching thread *)

(** Lines 69-71. *)
Definition banner (t : LoadTester) : list event :=
  [Print (StartingLoadTest (url t));
   Print (Settings (num_threads t) (num_requests t) (interval t));
   Print Rule].

(** One turn of the loop of lines 77-84. *)
Definition iteration (iv : Q) (n : Z) (i : nat) : list event :=
  [Submit i; Sleep iv]
  ++ (if progress_due i n then [Print (Progress (Z.of_nat i + 1) n)] else []).

(** The first [k] turns. *)
Definition dispatch_trace (iv : Q) (n : Z) (k : nat) : list event :=
  flat_map (iteration iv n) (seq 0 k).

Definition is_submit (e : event) : bool :=
  match e with Submit _ => true | _ => false end.

(** The log at each point of [run]. *)
Definition log_ok (t0 : LoadTester) (w : world) : Prop :=
  let loop := dispatch_trace (interval t0) (num_requests t0) in
  match main w with
  | MStart => log w = []
  | MLoop i => log w = banner t0 ++ loop i
  | MSleep i => log w = banner t0 ++ loop i ++ [Submit i]
  | MWait => log w = banner t0 ++ loop (Z.to_nat (num_requests t0))
  | MReport =>
      log w = banner t0 ++ loop (Z.to_nat (num_requests t0)) ++ [Print Rule]
  | MDone =>
      exists out, print_results (obj w) = Returned out
        /\ log w = banner t0 ++ loop (Z.to_nat (num_requests t0))
                     ++ [Print Rule] ++ map Print out
  | MRaised e =>
      raised_before_barrier e = true
      \/ exists out, print_results (obj w) = Raised out e
           /\ log w = banner t0 ++ loop (Z.to_nat (num_requests t0))
                        ++ [Print Rule] ++ map Print out
  end.

(** The two timestamps, once taken, are those of the environment. *)
Definition clock_ok (E : env) (w : world) : Prop :=
  (main w <> MStart -> start_time (obj w) = Some (clock_start E))
  /\ (past_barrier (main w) = true -> end_time (obj w) = Some (clock_end E)).

(** No request at all: the dispatching thread runs alone. *)
Definition env_idle : env := mkEnv (fun _ => Raises "unreachable") 0 0 1000000000.

Definition schedule_idle : list choice := [Main; Main; Main; Main].

(** The object [schedule_one_timeout] leaves behind. *)
Definition after_one_timeout : LoadTester :=
  mkLoadTester "http://myapp.com/api" 2 2 0
    [1 # 10] [(200, 1%nat)] ["timed out"%string] (Some 0%Q) (Some 1%Q).

(** Three requests, each answered with 200: after a quarter, a half and
    three quarters of a second. *)
Definition env_quarters : env :=
  mkEnv (fun i => match i with
                  | 0%nat => Got 200 (1 # 4)
                  | 1%nat => Got 200 (1 # 2)
                  | _ => Got 200 (3 # 4)
                  end) 0 2 1000000000.

(** The object a run of these three requests on one worker leaves. *)
Definition after_three_answers : LoadTester :=
  mkLoadTester "http://myapp.com/api" 1 3 0
    [1 # 4; 1 # 2; 3 # 4] [(200, 3%nat)] [] (Some 0%Q) (Some 2%Q).

(** How far a printed percentage can be from the quotient
    [count / num_requests * 100]: half a unit of the decimal printed, and
    the error of the two float operations of line 120. *)
Definition tolerance : Q := (1 # 20) + (1 # 1000000000000).

(** ** The error histogram *)

(** The distinct elements of [l] that are not in [seen], in the order of
    their first occurrence. *)
Fixpoint first_seen (seen l : list string) : list string :=
  match l with
  | [] => []
  | x :: r =>
      if existsb (String.eqb x) seen then first_seen seen r
      else x :: first_seen (seen ++ [x]) r
  end.

(** The entries lines 131-132 print, in order. *)
Definition error_listing (errs : list string) : list (string * nat) :=
  sorted count_geb (error_counts errs []).

(** The order the specification words for the error distribution: larger
    counts first, equal counts by the text of the message. *)
Definition count_desc_then_text (a b : string * nat) : bool :=
  (snd b <? snd a)%nat || ((snd a =? snd b)%nat && String.leb (fst a) (fst b)).

Definition error_listing_by_text (errs : list string) : list (string * nat) :=
  sorted count_desc_then_text (error_counts errs []).

(** Three requests on one worker: the first is answered, the second fails
    with "b", the third with "a". *)
Definition env_two_errors : env :=
  mkEnv (fun i => match i with
                  | 1%nat => Raises "b"
                  | 2%nat => Raises "a"
                  | _ => Got 200 (1 # 10)
                  end) 0 1 1000000000.

(** Each call runs to its end before the next one is submitted. *)
Definition schedule_two_errors : list choice :=
  [Main; Main; Main; Worker 0; Worker 0; Worker 0; Worker 0; Worker 0;
   Main; Main; Worker 1; Worker 1; Worker 1;
   Main; Main; Worker 2; Worker 2; Worker 2;
   Main; Main; Main]%nat.

(** The object [schedule_two_errors] leaves behind. *)
Definition after_two_errors : LoadTester :=
  mkLoadTester "http://myapp.com/api" 1 3 0
    [1 # 10] [(200, 1%nat)] ["b"%string; "a"%string] (Some 0%Q) (Some 1%Q).

(** Every request is answered with 200 after a tenth of a second. *)
Definition env_all_ok : env := mkEnv (fun _ => Got 200 (1 # 10)) 0 1 1000000000.

(** Two calls on two workers: both test line 48 before either stores, so
    both take line 51. *)
Definition schedule_lost_insert : list choice :=
  [Main; Main; Main; Main; Main; Main;   (* both submitted, line 87 reached *)
   Worker 0; Worker 1;        (* both taken by a worker *)
   Worker 0; Worker 1;        (* both answered *)
   Worker 0; Worker 1;        (* line 45, twice *)
   Worker 0; Worker 1;        (* line 48, twice: 200 is not a key yet *)
   Worker 0; Worker 1;        (* line 51, twice *)
   Main; Main]%nat.

(** Three calls on two workers: the first runs alone; the other two both
    load the count 1 on line 49 before either stores 2. *)
Definition schedule_lost_increment : list choice :=
  [Main; Main; Main; Main; Main; Main; Main; Main;
                              (* all three submitted, line 87 reached *)
   Worker 0; Worker 0; Worker 0; Worker 0; Worker 0;
                              (* the first call, to its end: 200 -> 1 *)
   Worker 1; Worker 2;        (* both taken by a worker *)
   Worker 1; Worker 2;        (* both answered *)
   Worker 1; Worker 2;        (* line 45, twice *)
   Worker 1; Worker 2;        (* line 48, twice: 200 is a key *)
   Worker 1; Worker 2;        (* line 49, both load 1 *)
   Worker 1; Worker 2;        (* line 49, both store 2 *)
   Main; Main]%nat.

(** Three requests, answered with 404, 200 and 500 in this order. *)
Definition env_three_codes : env :=
  mkEnv (fun i => match i with
                  | 0%nat => Got 404 (3 # 10)
                  | 1%nat => Got 200 (1 # 10)
                  | _ => Got 500 (1 # 5)
                  end) 0 1 1000000000.

(** Four requests: 404, a timeout, 200, and 404 again. *)
Definition env_mixed : env :=
  mkEnv (fun i => match i with
                  | 0%nat => Got 404 (3 # 10)
                  | 1%nat => Raises "timed out"
                  | 2%nat => Got 200 (1 # 10)
                  | _ => Got 404 (1 # 5)
                  end) 0 1 1000000000.

(** What the specification words for the aggregator after the barrier:
    every write of every task is present, none lost and none twice. *)
Definition all_writes_present (http : nat -> attempt) (n : nat) (t : LoadTester) : Prop :=
  length (response_times t) = responses http n
  /\ Dict.total (status_codes t) = responses http n
  /\ length (errors t) = failures http n.

(** ** The schedule in which no two calls overlap *)

(** The steps one uninterrupted call takes: three when the client raises,
    five when it answers with a status code that is not yet a key, six
    when the key is there. *)
Definition call_steps (a : attempt) (d : list (Z * nat)) : nat :=
  match a with
  | Raises _ => 3
  | Got sc _ => if Dict.mem Z.eqb sc d then 6 else 5
  end.

(** Submit a call, let a worker run it to its end, sleep; then the next. *)
Fixpoint one_at_a_time (http : nat -> attempt) (ids : list nat) (t : LoadTester)
  : list choice :=
  match ids with
  | [] => []
  | i :: rest =>
      Main :: repeat (Worker i) (call_steps (http i) (status_codes t))
      ++ Main :: one_at_a_time http rest (fst (send_request t i (http i)))
  end.

(** From the start of [run] to the return of its barrier. *)
Definition sequential_schedule (E : env) (t0 : LoadTester) : list choice :=
  Main :: one_at_a_time (http E) (seq 0 (Z.to_nat (num_requests t0)))
            (set_start_time t0 (clock_start E))
  ++ [Main; Main].

(** ** One call at a time *)

(** 1 while a worker is executing the call. *)
Definition flying (p : pc) : nat := if in_flight p then 1 else 0.

(** 1 between the append of line 45 and the store of line 49 or 51. *)
Definition pending (p : pc) : nat :=
  match p with
  | AtTest _ _ | AtLoad _ _ | AtStore _ _ _ => 1
  | _ => 0
  end.

(** What holds of every world when at most one call can be in flight. *)
Record one_at_a_time_invariant (w : world) : Prop := {
  oat_flying : (sum_over flying (futures w) <= 1)%nat;
  oat_level : (Dict.total (status_codes (obj w)) + sum_over pending (futures w)
               = length (response_times (obj w)))%nat;
  oat_store : forall i sc rt v, nth_error (futures w) i = Some (AtStore sc rt v) ->
      v = (Dict.count Z.eqb sc (status_codes (obj w)) + 1)%nat
}.

(** The calls of a run do not overlap: in every world the run goes
    through, from [w] on, at most one call is in flight. *)
Fixpoint one_call_at_a_time (E : env) (sched : list choice) (w : world) : bool :=
  (count_if in_flight (futures w) <=? 1)%nat
  && match sched with
     | [] => true
     | c :: rest =>
         match step E c w with
         | Some w' => one_call_at_a_time E rest w'
         | None => true
         end
     end.

(** The object [schedule_lost_insert] leaves behind: two elapsed times
    against a count of 1. *)
Definition after_lost_insert : LoadTester :=
  mkLoadTester "http://myapp.com/api" 2 2 0
    [1 # 10; 1 # 10] [(200, 1%nat)] [] (Some 0%Q) (Some 1%Q).

(** ** [main] *)

(** The namespace [parse_args] returns: [--url] is required, the other
    flags have defaults (5 threads, 100 requests, an interval of 0.1 s). *)
Record Args : Type := mkArgs {
  args_url : string;
  args_threads : Z;
  args_requests : Z;
  args_interval : Q
}.

(** The namespace when only [--url] is given. *)
Definition default_args (u : string) : Args := mkArgs u 5 100 (1 # 10).

(** [str.lower] on one character: the letters A to Z go to a to z. Other
    bytes are left alone; the bytes of a character outside ASCII never
    become the single byte of "y", which is all [main] asks of the result. *)
Definition lower_ascii (c : ascii) : ascii :=
  let n := nat_of_ascii c in
  if ((65 <=? n) && (n <=? 90))%nat then ascii_of_nat (n + 32) else c.

Fixpoint lower (s : string) : string :=
  match s with
  | EmptyString => EmptyString
  | String c s' => String (lower_ascii c) (lower s')
  end.

(** What [main] writes before the run. *)
Inductive cli_line : Type :=
| HighThreadsWarning
| ContinuePrompt
| LoadTestAborted.

(** How [main] goes on after parsing: it returns without a run, it calls
    [run] on a new tester, or [input] finds the end of the input and its
    [EOFError] leaves [main]. *)
Inductive cli_outcome : Type :=
| Aborts
| Runs (tester : LoadTester)
| InputFails.

(** Lines 144-159; [stdin] is the line [input] reads, if there is one. *)
Definition main_cli (args : Args) (stdin : option string) : list cli_line * cli_outcome :=
  let tester := init (args_url args) (args_threads args) (args_requests args)
                     (args_interval args) in
  if 50 <? args_threads args then
    match stdin with
    | None => ([HighThreadsWarning; ContinuePrompt], InputFails)
    | Some response =>
        if String.eqb (lower response) "y"
        then ([HighThreadsWarning; ContinuePrompt], Runs tester)
        else ([HighThreadsWarning; ContinuePrompt; LoadTestAborted], Aborts)
    end
  else ([], Runs tester).


(** One request, answered, while the clock stands still. *)
Definition env_frozen_clock : env :=
  mkEnv (fun _ => Got 200 (1 # 10)) 7 7 1000000000.

Definition schedule_one_call : list choice :=
  [Main; Main; Worker 0; Worker 0; Worker 0; Worker 0; Worker 0;
   Main; Main; Main; Main]%nat.


(** ** [run] when [time.sleep] raises *)

(** Where a run whose first [time.sleep] raises can be. *)
Definition before_first_sleep (t0 : LoadTester) (w : world) : Prop :=
  (main w = MStart /\ futures w = [] /\ log w = [])
  \/ (main w = MLoop 0 /\ futures w = [] /\ log w = banner t0)
  \/ (main w = MSleep 0 /\ length (futures w) = 1%nat
      /\ log w = banner t0 ++ [Submit 0%nat])
  \/ (main w = MRaised ValueError /\ futures w = [] /\ log w = banner t0)
  \/ ((exists e, main w = MRaised e /\ raised_before_barrier e = true)
      /\ length (futures w) = 1%nat
      /\ log w = banner t0 ++ [Submit 0%nat]).


(** Four requests on two workers: all are submitted, the barrier waits,
    two calls are taken. *)
Definition schedule_two_in_flight : list choice :=
  [Main; Main; Main; Main; Main; Main; Main; Main; Main; Main;
   Worker 0; Worker 1]%nat.


(** ** How far a run is from its end *)

(** The steps a call can still take, at most. *)
Definition remaining (p : pc) : nat :=
  match p with
  | Queued => 6
  | InRequest => 5
  | AtAppend _ _ => 4
  | AtTest _ _ => 3
  | AtLoad _ _ => 2
  | AtStore _ _ _ => 1
  | AtHandler _ => 1
  | Finished _ => 0
  end.

(** The steps the dispatching thread can still take, with those of the
    calls it has yet to submit, when [n] calls are to be submitted. *)
Definition main_remaining (n : nat) (m : main_pc) : nat :=
  match m with
  | MStart => 8 * n + 4
  | MLoop i => 8 * (n - i) + 3
  | MSleep i => 8 * (n - S i) + 4
  | MWait => 2
  | MReport => 1
  | MDone => 0
  | MRaised _ => 0
  end.

Definition steps_left (n : nat) (w : world) : nat :=
  main_remaining n (main w) + sum_over remaining (futures w).

(** The run has ended: [run] has returned or an exception has left it. *)
Definition ended (m : main_pc) : bool :=
  match m with MDone | MRaised _ => true | _ => false end.


(** ** A single worker *)

(** What the calls record: the three collections of the object. *)
Definition recorded (t : LoadTester) : list Q * list (Z * nat) * list string :=
  (response_times t, status_codes t, errors t).

(** What is recorded while a call stands at [p], when [base] is what the
    calls before it left: between lines 45 and 51 its elapsed time is
    there and its count is not. *)
Definition recorded_during (p : pc) (base : LoadTester)
  : list Q * list (Z * nat) * list string :=
  match p with
  | AtTest _ rt | AtLoad _ rt | AtStore _ rt _ =>
      (response_times base ++ [rt], status_codes base, errors base)
  | _ => recorded base
  end.

(** The elapsed times and the error texts of the requests [ids], in the
    order of [ids]. *)
Definition times_of (http : nat -> attempt) (ids : list nat) : list Q :=
  flat_map (fun i => match http i with Got _ rt => [rt] | Raises _ => [] end) ids.

Definition texts_of (http : nat -> attempt) (ids : list nat) : list string :=
  flat_map (fun i => match http i with Got _ _ => [] | Raises msg => [msg] end) ids.

(** The worlds of a pool of one worker: the first [k] calls have finished
    and have left what [send_request] leaves when called for them in
    order; the next call, if submitted, is the only one that can be under
    way; the calls after it are queued. *)
Definition in_sequence (E : env) (t0 : LoadTester) (w : world) : Prop :=
  exists k rest,
    futures w = map (finished_call (http E)) (seq 0 k) ++ rest
    /\ let base := run_in_order (http E) (seq 0 k) t0 in
       (rest = [] /\ recorded (obj w) = recorded base)
       \/ (exists p m,
             rest = p :: repeat Queued m
             /\ is_finished p = false
             /\ recorded (obj w) = recorded_during p base
             /\ agrees (http E k) k (status_codes base) p
             /\ (forall sc rt v, p = AtStore sc rt v ->
                   v = (Dict.count Z.eqb sc (status_codes base) + 1)%nat)).

(** * Properties *)

(** ** Dictionaries *)

Section DictFacts.
Context {K : Type} (eqb : K -> K -> bool).
Hypothesis eqb_spec : forall a b, reflect (a = b) (eqb a b).

Lemma dict_get_set_same {V} k (v : V) d : Dict.get eqb k (Dict.set eqb k v d) = Some v.
Proof using eqb_spec.
  induction d as [|[k' v'] d IH]; simpl.
  - destruct (eqb_spec k k); congruence.
  - destruct (eqb_spec k k') as [->|Hne]; simpl.
    + destruct (eqb_spec k' k'); congruence.
    + destruct (eqb_spec k k'); congruence.
Qed.

Lemma dict_get_set_other {V} k k' (v : V) d :
  k' <> k -> Dict.get eqb k' (Dict.set eqb k v d) = Dict.get eqb k' d.
Proof using eqb_spec.
  intros Hne. induction d as [|[k0 v0] d IH]; simpl.
  - destruct (eqb_spec k' k); congruence.
  - destruct (eqb_spec k k0) as [->|Hk]; simpl.
    + destruct (eqb_spec k' k0); congruence.
    + destruct (eqb_spec k' k0); congruence.
Qed.

Lemma dict_mem_set {V} k k' (v : V) d :
  Dict.mem eqb k' d = true -> Dict.mem eqb k' (Dict.set eqb k v d) = true.
Proof using eqb_spec.
  unfold Dict.mem. destruct (eqb_spec k' k) as [->|Hne].
  - now rewrite dict_get_set_same.
  - now rewrite dict_get_set_other.
Qed.

Lemma dict_get_In {V} k (v : V) d : Dict.get eqb k d = Some v -> In (k, v) d.
Proof using eqb_spec.
  induction d as [|[k' v'] d IH]; simpl; [discriminate|].
  destruct (eqb_spec k k') as [->|Hne].
  - intros [= ->]. now left.
  - intros H. right. auto.
Qed.

Lemma dict_get_None {V} k (d : list (K * V)) :
  Dict.get eqb k d = None <-> ~ In k (Dict.keys d).
Proof using eqb_spec.
  induction d as [|[k' v'] d IH]; simpl.
  - tauto.
  - destruct (eqb_spec k k') as [->|Hne].
    + split; [discriminate|]. intros H. exfalso. apply H. now left.
    + rewrite IH. split.
      * intros H [E|E]; [congruence|tauto].
      * tauto.
Qed.

Lemma dict_In_get {V} k (v : V) d :
  NoDup (Dict.keys d) -> In (k, v) d -> Dict.get eqb k d = Some v.
Proof using eqb_spec.
  induction d as [|[k' v'] d IH]; simpl; [intros _ []|].
  intros Hnd [E|Hin].
  - injection E as -> ->. destruct (eqb_spec k k); congruence.
  - inversion Hnd as [|? ? Hk Hnd']; subst.
    destruct (eqb_spec k k') as [->|Hne].
    + exfalso. apply Hk. change k' with (fst (k', v)). now apply in_map.
    + auto.
Qed.

Lemma dict_keys_set_mem {V} k (v : V) d :
  Dict.mem eqb k d = true -> Dict.keys (Dict.set eqb k v d) = Dict.keys d.
Proof using eqb_spec.
  unfold Dict.mem. induction d as [|[k' v'] d IH]; simpl; [discriminate|].
  destruct (eqb_spec k k') as [->|Hne]; simpl; [reflexivity|].
  intros H. f_equal. auto.
Qed.

Lemma dict_keys_set_new {V} k (v : V) d :
  Dict.mem eqb k d = false -> Dict.keys (Dict.set eqb k v d) = Dict.keys d ++ [k].
Proof using eqb_spec.
  unfold Dict.mem. induction d as [|[k' v'] d IH]; simpl; [reflexivity|].
  destruct (eqb_spec k k') as [->|Hne]; simpl; [discriminate|].
  intros H. f_equal. auto.
Qed.

Lemma dict_NoDup_set {V} k (v : V) d :
  NoDup (Dict.keys d) -> NoDup (Dict.keys (Dict.set eqb k v d)).
Proof using eqb_spec.
  intros Hnd. destruct (Dict.mem eqb k d) eqn:Hm.
  - now rewrite dict_keys_set_mem.
  - rewrite dict_keys_set_new by assumption.
    apply NoDup_app; [assumption|repeat constructor; intros []|].
    intros x Hx [E|[]]. subst x.
    unfold Dict.mem in Hm. destruct (Dict.get eqb k d) eqn:Hg; [discriminate|].
    apply dict_get_None in Hg. contradiction.
Qed.

(** Storing a count changes the total by the difference to the old count. *)
Lemma dict_total_set k v (d : list (K * nat)) :
  (Dict.total (Dict.set eqb k v d) + Dict.count eqb k d = Dict.total d + v)%nat.
Proof using eqb_spec.
  unfold Dict.total, Dict.count.
  induction d as [|[k' v'] d IH]; simpl.
  - lia.
  - destruct (eqb_spec k k') as [->|Hne]; simpl; lia.
Qed.

Lemma dict_count_set_same k v (d : list (K * nat)) :
  Dict.count eqb k (Dict.set eqb k v d) = v.
Proof using eqb_spec. unfold Dict.count. now rewrite dict_get_set_same. Qed.

Lemma dict_count_set_other k k' v (d : list (K * nat)) :
  k' <> k -> Dict.count eqb k' (Dict.set eqb k v d) = Dict.count eqb k' d.
Proof using eqb_spec. intros. unfold Dict.count. now rewrite dict_get_set_other. Qed.

End DictFacts.

(** ** [send_request] *)

(** [send_request] always returns; what it returns says [success]
    exactly when the client returned a response, whatever its status code.
    A response appends its elapsed time and raises the count of its status
    code by one, leaving the errors alone; an exception of the client is
    caught, its text is appended to the errors and nothing else changes. *)
Lemma send_request_outcome (t : LoadTester) (request_id : nat) (a : attempt) :
  exists t' r,
    send_request t request_id a = (t', Return r)
    /\ (success r = true <-> exists sc rt, a = Got sc rt)
    /\ match a with
       | Got sc rt =>
           r = Success request_id sc rt
           /\ response_times t' = response_times t ++ [rt]
           /\ Dict.get Z.eqb sc (status_codes t')
              = Some (S (Dict.count Z.eqb sc (status_codes t)))
           /\ (forall k, k <> sc ->
                 Dict.get Z.eqb k (status_codes t') = Dict.get Z.eqb k (status_codes t))
           /\ errors t' = errors t
       | Raises msg =>
           r = Failure request_id msg
           /\ errors t' = errors t ++ [msg]
           /\ response_times t' = response_times t
           /\ status_codes t' = status_codes t
       end.
Proof.
  destruct a as [sc rt|msg]; unfold send_request, send_request_try; simpl.
  - unfold Dict.mem, Dict.count.
    destruct (Dict.get Z.eqb sc (status_codes t)) as [c|] eqn:Hg; simpl.
    + eexists _, _. split; [reflexivity|]. simpl.
      split; [split; [eauto|reflexivity]|].
      repeat split.
      * rewrite (dict_get_set_same Z.eqb Z.eqb_spec). f_equal. lia.
      * intros k Hk. now apply (dict_get_set_other Z.eqb Z.eqb_spec).
    + eexists _, _. split; [reflexivity|]. simpl.
      split; [split; [eauto|reflexivity]|].
      repeat split.
      * now rewrite (dict_get_set_same Z.eqb Z.eqb_spec).
      * intros k Hk. now apply (dict_get_set_other Z.eqb Z.eqb_spec).
  - eexists _, _. split; [reflexivity|]. simpl.
    split; [|repeat split].
    split; [discriminate|]. intros (sc & rt & H). discriminate.
Qed.

(** ** Lists updated in place *)

Lemma length_update {A} i (x : A) l : length (update i x l) = length l.
Proof.
  revert i; induction l as [|y l IH]; intros [|i]; simpl; auto.
Qed.

Lemma nth_error_update_same {A} i (x y : A) l :
  nth_error l i = Some y -> nth_error (update i x l) i = Some x.
Proof.
  revert i; induction l as [|z l IH]; intros [|i]; simpl; try discriminate; auto.
Qed.

Lemma nth_error_update_other {A} i j (x : A) l :
  i <> j -> nth_error (update i x l) j = nth_error l j.
Proof.
  revert i j; induction l as [|z l IH]; intros [|i] [|j] H; simpl; auto.
  congruence.
Qed.

Lemma sum_over_update {A} (f : A -> nat) i x y l :
  nth_error l i = Some y ->
  (sum_over f (update i x l) + f y = sum_over f l + f x)%nat.
Proof.
  unfold sum_over.
  revert i; induction l as [|z l IH]; intros [|i]; simpl; try discriminate.
  - intros [= ->]. lia.
  - intros H. specialize (IH _ H). lia.
Qed.

Lemma sum_over_app {A} (f : A -> nat) l1 l2 :
  sum_over f (l1 ++ l2) = (sum_over f l1 + sum_over f l2)%nat.
Proof.
  unfold sum_over. now rewrite map_app, list_sum_app.
Qed.

Lemma forallb_update {A} (f : A -> bool) i x l :
  forallb f l = true -> f x = true -> forallb f (update i x l) = true.
Proof.
  revert i; induction l as [|z l IH]; intros [|i]; simpl; auto;
    rewrite !andb_true_iff; intuition.
Qed.

Lemma forallb_nth_error {A} (f : A -> bool) l i x :
  forallb f l = true -> nth_error l i = Some x -> f x = true.
Proof.
  intros H Hn. rewrite forallb_forall in H. apply H.
  eapply nth_error_In; eauto.
Qed.

(** ** Steps *)

Lemma worker_step_inv E i w w' :
  step E (Worker i) w = Some w' ->
  exists p p' t',
    nth_error (futures w) i = Some p
    /\ worker_step (http E i) i (obj w) p = Some (t', p')
    /\ w' = mkWorld t' (main w) (update i p' (futures w)) (log w).
Proof.
  unfold step. destruct (nth_error (futures w) i) as [p|] eqn:Hp; [|discriminate].
  destruct (can_step w i p); [|discriminate].
  destruct (worker_step (http E i) i (obj w) p) as [[t' p']|] eqn:Hs; [|discriminate].
  intros [= <-]. exists p, p', t'. auto.
Qed.

Lemma worker_step_unfinished a i t p r :
  worker_step a i t p = Some r -> is_finished p = false.
Proof. destruct p; simpl; congruence. Qed.

Lemma print_results_raises t out e :
  print_results t = Raised out e -> e = ZeroDivisionError \/ e = TypeError.
Proof.
  unfold print_results.
  destruct (response_times t); [discriminate|].
  destruct (start_time t), (end_time t); try (intros [= _ <-]; now right).
  destruct (Qeq_bool _ _); [intros [= _ <-]; now left|].
  destruct (status_codes t); [discriminate|].
  destruct (num_requests t =? 0); [intros [= _ <-]; now left|discriminate].
Qed.

Lemma sleep_raises_before_barrier E seconds e :
  sleep_raises E seconds = Some e -> raised_before_barrier e = true.
Proof.
  unfold sleep_raises.
  destruct (negb (sleep_fits seconds)); [now intros [= <-]|].
  destruct (negb (Qle_bool 0 seconds)); [now intros [= <-]|].
  destruct (negb (Qle_bool seconds (sleep_max E))); [now intros [= <-]|discriminate].
Qed.

(** The sleeps that return: those of a duration that is not negative, fits
    and is granted. *)
Lemma sleep_returns E seconds :
  sleep_raises E seconds = None
  <-> Qle_bool 0 seconds = true /\ sleep_fits seconds = true
      /\ Qle_bool seconds (sleep_max E) = true.
Proof.
  unfold sleep_raises.
  destruct (sleep_fits seconds), (Qle_bool 0 seconds),
    (Qle_bool seconds (sleep_max E)); simpl; intuition discriminate.
Qed.

(** A negative duration always raises. *)
Lemma sleep_negative E seconds :
  Qle_bool 0 seconds = false ->
  sleep_raises E seconds = Some ValueError
  \/ sleep_raises E seconds = Some OverflowError.
Proof.
  unfold sleep_raises. intros ->.
  destruct (sleep_fits seconds); simpl; auto.
Qed.

Lemma exec_app E s1 s2 w :
  exec E (s1 ++ s2) w =
  match exec E s1 w with Some w' => exec E s2 w' | None => None end.
Proof.
  revert w; induction s1 as [|c s1 IH]; intros w; simpl; [reflexivity|].
  destruct (step E c w); auto.
Qed.

(** ** The invariant of [run] *)

Lemma agrees_mono a i d d' p :
  (forall k, Dict.mem Z.eqb k d = true -> Dict.mem Z.eqb k d' = true) ->
  agrees a i d p -> agrees a i d' p.
Proof.
  intros Hd. destruct p; simpl; auto. intros [? ?]; auto.
Qed.

Lemma nth_error_snoc {A} (l : list A) x j y :
  nth_error (l ++ [x]) j = Some y -> nth_error l j = Some y \/ y = x.
Proof.
  intros H. destruct (Nat.lt_ge_cases j (length l)) as [Hlt|Hge].
  - rewrite nth_error_app1 in H by assumption. now left.
  - rewrite nth_error_app2 in H by assumption.
    destruct (j - length l)%nat as [|[|?]]; simpl in H; try discriminate.
    injection H as <-. now right.
Qed.

Lemma invariant_boot E u threads n iv :
  invariant E (init u threads n iv) (boot (init u threads n iv)).
Proof.
  constructor; simpl; try reflexivity.
  - repeat split.
  - intros [|i] p; discriminate.
  - constructor.
  - intros k. unfold Dict.count, sum_over. simpl. lia.
  - intros [|i] *; discriminate.
  - discriminate.
Qed.

Lemma invariant_main_step E t0 w w' :
  invariant E t0 w -> main_step E w = Some w' -> invariant E t0 w'.
Proof.
  intros [Hc Hd Ha Ht He Hk Hn Hp Hq]. unfold main_step.
  pose proof Hc as (Hc1 & Hc2 & Hc3 & Hc4).
  unfold dispatch_ok in Hd.
  destruct (main w) eqn:Hm.
  - (* MStart *)
    intros [= <-]. constructor; simpl; auto.
    unfold dispatch_ok; simpl. destruct (num_threads (obj w) <=? 0); simpl.
    + now left.
    + rewrite Hd. simpl. split; [reflexivity|lia].
  - (* MLoop *)
    destruct Hd as [Hlen Hle].
    destruct (Z.of_nat i <? num_requests (obj w)) eqn:Hlt; intros [= <-].
    + apply Z.ltb_lt in Hlt. rewrite Hc3 in Hlt.
      constructor; simpl; auto.
      * unfold dispatch_ok; simpl. rewrite length_app; simpl. lia.
      * intros j p Hj. apply nth_error_snoc in Hj as [Hj| ->]; [auto|exact I].
      * rewrite sum_over_app. unfold sum_over at 2; simpl. lia.
      * rewrite sum_over_app. unfold sum_over at 2; simpl. lia.
      * intros k. rewrite sum_over_app. unfold sum_over at 2 4; simpl.
        rewrite Nat.add_0_r. apply Hn.
      * intros j sc rt v Hj. rewrite sum_over_app. unfold sum_over at 2; simpl.
        rewrite Nat.add_0_r.
        apply nth_error_snoc in Hj as [Hj|Hj]; [eauto|discriminate].
    + apply Z.ltb_ge in Hlt. rewrite Hc3 in Hlt.
      constructor; simpl; auto.
      unfold dispatch_ok; simpl. lia.
  - (* MSleep *)
    destruct Hd as [Hlen Hle].
    destruct (sleep_raises E (interval (obj w))) as [e|] eqn:Hsl; intros [= <-];
      constructor; simpl; auto; unfold dispatch_ok; simpl; auto.
    left. eapply sleep_raises_before_barrier; eauto.
  - (* MWait *)
    destruct (forallb is_finished (futures w)) eqn:Hf; [|discriminate].
    intros [= <-]. constructor; simpl; auto.
    unfold dispatch_ok; simpl. auto.
  - (* MReport *)
    destruct (print_results (obj w)) eqn:Hr; intros [= <-];
      constructor; simpl; auto; unfold dispatch_ok; simpl; auto.
  - discriminate.
  - discriminate.
Qed.

Lemma dispatch_ok_update n w t' i p p' :
  nth_error (futures w) i = Some p -> is_finished p = false ->
  dispatch_ok n w ->
  dispatch_ok n (mkWorld t' (main w) (update i p' (futures w)) (log w)).
Proof.
  intros Hi Hp. unfold dispatch_ok; simpl. rewrite length_update.
  assert (Hno : forallb is_finished (futures w) = true -> False).
  { intros H. pose proof (forallb_nth_error _ _ _ _ H Hi). congruence. }
  destruct (main w); auto.
  - intros H. rewrite H in Hi. destruct i; discriminate.
  - intros [_ H]. tauto.
  - intros [_ H]. tauto.
  - intros [H|[_ H]]; [now left|tauto].
Qed.

(** A step that stores nothing keeps every [stored] sum. *)
Lemma stored_update_same k l i p p' :
  nth_error l i = Some p -> stored k p = 0%nat -> stored k p' = 0%nat ->
  sum_over (stored k) (update i p' l) = sum_over (stored k) l.
Proof.
  intros Hi H0 H1. pose proof (sum_over_update (stored k) i p' p l Hi). lia.
Qed.

Lemma invariant_worker_step E t0 w w' i :
  invariant E t0 w -> step E (Worker i) w = Some w' -> invariant E t0 w'.
Proof.
  intros [Hc Hd Ha Ht He Hk Hn Hp Hq] Hstep.
  apply worker_step_inv in Hstep as (p & p' & t' & Hi & Hs & ->).
  pose proof (worker_step_unfinished _ _ _ _ _ Hs) as Hunf.
  pose proof (Ha _ _ Hi) as Hag.
  pose proof (sum_over_update appended i p' p _ Hi) as Sa.
  pose proof (sum_over_update reported i p' p _ Hi) as Sr.
  assert (Hother : forall j q, j <> i ->
            nth_error (update i p' (futures w)) j = Some q ->
            nth_error (futures w) j = Some q).
  { intros j q Hj. now rewrite nth_error_update_other by congruence. }
  assert (Hsame : nth_error (update i p' (futures w)) i = Some p').
  { eapply nth_error_update_same; eauto. }
  assert (Hcases : forall j q, nth_error (update i p' (futures w)) j = Some q ->
            (j = i /\ q = p') \/ (j <> i /\ nth_error (futures w) j = Some q)).
  { intros j q Hj. destruct (Nat.eq_dec j i) as [->|Hne].
    - left. split; congruence.
    - right. auto. }
  assert (Hstored : forall k, stored k p = 0%nat).
  { intros k. destruct p; try reflexivity. discriminate. }
  assert (Hframe : forall k, stored k p' = 0%nat ->
            sum_over (stored k) (update i p' (futures w)) = sum_over (stored k) (futures w)).
  { intros k H0. eapply stored_update_same; eauto. }
  destruct p; simpl in Hs; try discriminate.
  - (* Queued: a worker takes the call *)
    injection Hs as <- <-. simpl in *.
    constructor; simpl; auto.
    + eapply dispatch_ok_update; eauto.
    + intros j q Hj. destruct (Hcases _ _ Hj) as [[-> ->]|[Hne Hj']]; simpl; auto.
    + lia.
    + lia.
    + intros k. rewrite Hframe by reflexivity. apply Hn.
    + intros j sc' rt' v' Hj. rewrite Hframe by reflexivity.
      destruct (Hcases _ _ Hj) as [[-> [=]]|[Hne Hj']]. eauto.
  - (* InRequest: the client answers *)
    assert (Hp' : appended p' = 0%nat /\ reported p' = 0%nat
                  /\ (forall k, stored k p' = 0%nat)
                  /\ agrees (http E i) i (status_codes (obj w)) p'
                  /\ (forall sc rt v, p' <> AtStore sc rt v) /\ t' = obj w).
    { destruct (http E i) as [sc rt|msg]; injection Hs as <- <-; simpl;
        repeat split; eauto; discriminate. }
    destruct Hp' as (A1 & A2 & A3 & A4 & A5 & ->). simpl in *.
    constructor; simpl; auto.
    + eapply dispatch_ok_update; eauto.
    + intros j q Hj. destruct (Hcases _ _ Hj) as [[-> ->]|[Hne Hj']]; simpl; auto.
    + lia.
    + lia.
    + intros k. rewrite Hframe by auto. apply Hn.
    + intros j sc' rt' v' Hj. rewrite Hframe by auto.
      destruct (Hcases _ _ Hj) as [[-> H']|[Hne Hj']]; [|eauto].
      exfalso. eapply A5; eauto.
  - (* AtAppend: line 45 *)
    injection Hs as <- <-. simpl in *.
    constructor; simpl; auto.
    + eapply dispatch_ok_update; eauto.
    + intros j q Hj. destruct (Hcases _ _ Hj) as [[-> ->]|[Hne Hj']]; simpl; auto.
    + rewrite length_app; simpl. lia.
    + lia.
    + intros k. rewrite Hframe by reflexivity. apply Hn.
    + intros j sc' rt' v' Hj. rewrite Hframe by reflexivity.
      destruct (Hcases _ _ Hj) as [[-> [=]]|[Hne Hj']]. eauto.
  - (* AtTest: line 48 *)
    destruct (Dict.mem Z.eqb status_code (status_codes (obj w))) eqn:Hmem;
      injection Hs as <- <-; simpl in *.
    + constructor; simpl; auto.
      * eapply dispatch_ok_update; eauto.
      * intros j q Hj. destruct (Hcases _ _ Hj) as [[-> ->]|[Hne Hj']]; simpl; auto.
      * lia.
      * lia.
      * intros k. rewrite Hframe by reflexivity. apply Hn.
      * intros j sc' rt' v' Hj. rewrite Hframe by reflexivity.
        destruct (Hcases _ _ Hj) as [[-> [=]]|[Hne Hj']]. eauto.
    + constructor; simpl; auto.
      * eapply dispatch_ok_update; eauto.
      * intros j q Hj. destruct (Hcases _ _ Hj) as [[-> ->]|[Hne Hj']]; simpl; auto.
      * lia.
      * lia.
      * intros k. rewrite Hframe by reflexivity. apply Hn.
      * intros j sc' rt' v' Hj. rewrite Hframe by reflexivity.
        destruct (Hcases _ _ Hj) as [[-> [= -> -> ->]]|[Hne Hj']]; [lia|eauto].
  - (* AtLoad: the load of line 49 *)
    destruct Hag as [Hatt Hmem]. unfold Dict.mem in Hmem.
    destruct (Dict.get Z.eqb status_code (status_codes (obj w))) as [c|] eqn:Hget;
      [|discriminate].
    injection Hs as <- <-; simpl in *.
    constructor; simpl; auto.
    + eapply dispatch_ok_update; eauto.
    + intros j q Hj. destruct (Hcases _ _ Hj) as [[-> ->]|[Hne Hj']]; simpl; auto.
    + lia.
    + lia.
    + intros k. rewrite Hframe by reflexivity. apply Hn.
    + intros j sc' rt' v' Hj. rewrite Hframe by reflexivity.
      destruct (Hcases _ _ Hj) as [[-> [= -> -> ->]]|[Hne Hj']]; [|eauto].
      destruct (Hn status_code) as [Hle _]. unfold Dict.count in Hle.
      rewrite Hget in Hle. lia.
  - (* AtStore: the store of line 49 or 51 *)
    injection Hs as <- <-. simpl in *.
    pose proof (Hp _ _ _ _ Hi) as Hv.
    assert (Hsum : forall k,
              sum_over (stored k) (update i (Finished (Return (Success i status_code response_time))) (futures w))
              = (sum_over (stored k) (futures w) + if (status_code =? k)%Z then 1 else 0)%nat).
    { intros k.
      pose proof (sum_over_update (stored k) i
                    (Finished (Return (Success i status_code response_time)))
                    _ _ Hi) as S. simpl in S. lia. }
    constructor; simpl; auto.
    + eapply dispatch_ok_update; eauto.
    + intros j q Hj. destruct (Hcases _ _ Hj) as [[-> ->]|[Hne Hj']]; simpl.
      * now rewrite Hag.
      * eapply agrees_mono; [|eauto].
        intros k. apply (dict_mem_set Z.eqb Z.eqb_spec).
    + lia.
    + lia.
    + now apply (dict_NoDup_set Z.eqb Z.eqb_spec).
    + intros k. rewrite Hsum. destruct (Z.eqb_spec status_code k) as [->|Hne].
      * rewrite (dict_count_set_same Z.eqb Z.eqb_spec). lia.
      * rewrite (dict_count_set_other Z.eqb Z.eqb_spec) by congruence.
        rewrite Nat.add_0_r. apply Hn.
    + intros j sc' rt' v' Hj. rewrite Hsum.
      destruct (Hcases _ _ Hj) as [[-> [=]]|[Hne Hj']].
      pose proof (Hp _ _ _ _ Hj'). lia.
    + intros k c. destruct (Z.eqb_spec k status_code) as [->|Hne].
      * rewrite (dict_get_set_same Z.eqb Z.eqb_spec). intros [= <-]. lia.
      * rewrite (dict_get_set_other Z.eqb Z.eqb_spec) by assumption. apply Hq.
  - (* AtHandler: line 60 *)
    injection Hs as <- <-. simpl in *.
    destruct Hag as (msg & Hatt & ->). simpl in *.
    constructor; simpl; auto.
    + eapply dispatch_ok_update; eauto.
    + intros j q Hj. destruct (Hcases _ _ Hj) as [[-> ->]|[Hne Hj']]; simpl; auto.
      now rewrite Hatt.
    + lia.
    + rewrite length_app; simpl. lia.
    + intros k. rewrite Hframe by reflexivity. apply Hn.
    + intros j sc' rt' v' Hj. rewrite Hframe by reflexivity.
      destruct (Hcases _ _ Hj) as [[-> [=]]|[Hne Hj']]. eauto.
Qed.

Lemma invariant_step E t0 c w w' :
  invariant E t0 w -> step E c w = Some w' -> invariant E t0 w'.
Proof.
  destruct c as [|i]; simpl.
  - apply invariant_main_step.
  - apply invariant_worker_step.
Qed.

Lemma invariant_exec E t0 sched w w' :
  invariant E t0 w -> exec E sched w = Some w' -> invariant E t0 w'.
Proof.
  revert w; induction sched as [|c sched IH]; intros w Hinv; simpl.
  - now intros [= <-].
  - destruct (step E c w) as [w1|] eqn:Hs; [|discriminate].
    apply IH. eapply invariant_step; eauto.
Qed.

Lemma invariant_reachable E u threads n iv w :
  reachable E (init u threads n iv) w -> invariant E (init u threads n iv) w.
Proof.
  intros [sched H]. eapply invariant_exec; [apply invariant_boot|eauto].
Qed.

(** ** After the barrier *)

Lemma all_finished_agree http d l off :
  (forall i p, nth_error l i = Some p -> agrees (http (off + i)%nat) (off + i)%nat d p) ->
  forallb is_finished l = true ->
  l = map (finished_call http) (seq off (length l)).
Proof.
  revert off; induction l as [|p l IH]; intros off Ha Hf; simpl; [reflexivity|].
  simpl in Hf. apply andb_true_iff in Hf as [Hp Hl].
  f_equal.
  - specialize (Ha 0%nat p eq_refl). rewrite Nat.add_0_r in Ha.
    destruct p; try discriminate. simpl in Ha. now subst.
  - apply IH; [|assumption].
    intros i q Hi. specialize (Ha (S i) q Hi).
    now rewrite Nat.add_succ_r in Ha.
Qed.

Lemma appended_finished http l :
  sum_over appended (map (finished_call http) l)
  = count_if (fun i => is_response (http i)) l.
Proof.
  unfold sum_over, count_if, finished_call.
  induction l as [|i l IH]; simpl; [reflexivity|].
  destruct (http i); simpl; lia.
Qed.

Lemma reported_finished http l :
  sum_over reported (map (finished_call http) l)
  = count_if (fun i => negb (is_response (http i))) l.
Proof.
  unfold sum_over, count_if, finished_call.
  induction l as [|i l IH]; simpl; [reflexivity|].
  destruct (http i); simpl; lia.
Qed.

Lemma stored_finished http k l :
  sum_over (stored k) (map (finished_call http) l)
  = count_if (fun i => match http i with Got sc _ => sc =? k | Raises _ => false end) l.
Proof.
  unfold sum_over, count_if, finished_call.
  induction l as [|i l IH]; simpl; [reflexivity|].
  destruct (http i) as [sc rt|msg]; simpl; [|lia].
  destruct (sc =? k); simpl; lia.
Qed.

Lemma count_if_split {A} (f : A -> bool) l :
  (count_if f l + count_if (fun x => negb (f x)) l = length l)%nat.
Proof.
  unfold count_if. induction l as [|x l IH]; simpl; [reflexivity|].
  destruct (f x); simpl; lia.
Qed.

Lemma responses_failures http n : (responses http n + failures http n = n)%nat.
Proof.
  unfold responses, failures.
  rewrite (count_if_split (fun i => is_response (http i))). apply length_seq.
Qed.

Lemma past_barrier_dispatch n w :
  dispatch_ok n w -> past_barrier (main w) = true ->
  length (futures w) = n /\ forallb is_finished (futures w) = true.
Proof.
  unfold dispatch_ok. destruct (main w) as [| | | | | |e]; simpl; try discriminate; auto.
  destruct e; try discriminate; intros [H|H]; auto; discriminate.
Qed.

(** What the invariant says once the barrier has returned. *)
Lemma barrier_state E u threads n iv w :
  reachable E (init u threads n iv) w ->
  past_barrier (main w) = true ->
  futures w = map (finished_call (http E)) (seq 0 (Z.to_nat n))
  /\ length (response_times (obj w)) = responses (http E) (Z.to_nat n)
  /\ length (errors (obj w)) = failures (http E) (Z.to_nat n)
  /\ (forall k, 1 <= responses_with (http E) k (Z.to_nat n) ->
        1 <= Dict.count Z.eqb k (status_codes (obj w))
          <= responses_with (http E) k (Z.to_nat n))%nat
  /\ (forall k, responses_with (http E) k (Z.to_nat n) = 0 ->
        Dict.get Z.eqb k (status_codes (obj w)) = None)%nat.
Proof.
  intros Hr Hb. apply invariant_reachable in Hr.
  destruct Hr as [Hc Hd Ha Ht He Hk Hn Hp Hq]. simpl in Hd.
  destruct (past_barrier_dispatch _ _ Hd Hb) as [Hlen Hfin].
  assert (Hf : futures w = map (finished_call (http E)) (seq 0 (Z.to_nat n))).
  { rewrite <- Hlen. eapply all_finished_agree; eauto. }
  split; [assumption|].
  rewrite Ht, He, Hf, appended_finished, reported_finished.
  split; [reflexivity|]. split; [reflexivity|].
  split.
  - intros k Hk1. destruct (Hn k) as [Hle Hge].
    rewrite Hf, stored_finished in Hle, Hge.
    unfold responses_with in *. split; auto.
  - intros k Hk0. destruct (Hn k) as [Hle _].
    rewrite Hf, stored_finished in Hle. unfold responses_with in Hk0.
    rewrite Hk0 in Hle. unfold Dict.count in Hle.
    destruct (Dict.get Z.eqb k (status_codes (obj w))) as [c|] eqn:Hg; [|reflexivity].
    apply Hq in Hg. lia.
Qed.

(** C1. Once the barrier of [run] has returned, the elapsed times and the
    error texts recorded are together as many as [num_requests], for every
    [num_requests >= 0] and every interleaving of the workers: each
    submitted call has finished and has contributed exactly one entry, an
    elapsed time if the client answered and an error text if it did not. *)
Theorem barrier_accounts_for_every_request
    (E : env) (u : string) (threads n : Z) (iv : Q) (sched : list choice) (w : world) :
  0 <= n ->
  exec E sched (boot (init u threads n iv)) = Some w ->
  past_barrier (main w) = true ->
  Z.of_nat (length (response_times (obj w)) + length (errors (obj w))) = n
  /\ Z.of_nat (length (futures w)) = n
  /\ Forall (fun p => is_finished p = true /\ (appended p + reported p = 1)%nat)
            (futures w)
  /\ length (response_times (obj w)) = sum_over appended (futures w)
  /\ length (errors (obj w)) = sum_over reported (futures w)
  /\ length (response_times (obj w)) = responses (http E) (Z.to_nat n)
  /\ length (errors (obj w)) = failures (http E) (Z.to_nat n).
Proof.
  intros Hn Hexec Hb.
  assert (Hr : reachable E (init u threads n iv) w) by (exists sched; exact Hexec).
  destruct (barrier_state _ _ _ _ _ _ Hr Hb) as (Hf & Ht & He & _).
  pose proof (invariant_reachable _ _ _ _ _ _ Hr) as Hinv.
  pose proof (responses_failures (http E) (Z.to_nat n)) as Hsum.
  split; [lia|].
  split; [rewrite Hf, length_map, length_seq; lia|].
  split.
  - rewrite Hf. apply Forall_forall. intros p Hp.
    apply in_map_iff in Hp as (i & <- & _). unfold finished_call.
    destruct (http E i); simpl; auto.
  - split; [apply Hinv|]. split; [apply Hinv|]. auto.
Qed.

Lemma barrier_accounts_for_every_request_witness :
  exists w,
    exec env_one_timeout schedule_one_timeout (boot (init "http://myapp.com/api" 2 2 0))
    = Some w
    /\ Z.of_nat (length (response_times (obj w)) + length (errors (obj w))) = 2
    /\ length (response_times (obj w)) = 1%nat
    /\ length (errors (obj w)) = 1%nat.
Proof.
  eexists. split; [vm_compute; reflexivity|].
  destruct (barrier_accounts_for_every_request env_one_timeout
              "http://myapp.com/api" 2 2 0 schedule_one_timeout _
              ltac:(lia) ltac:(vm_compute; reflexivity) ltac:(reflexivity))
    as (H & _).
  split; [exact H|]. split; reflexivity.
Defined.

(** ** The log of the dispatching thread *)

Lemma dispatch_trace_S iv n k :
  dispatch_trace iv n (S k) = dispatch_trace iv n k ++ iteration iv n k.
Proof.
  unfold dispatch_trace. rewrite seq_S, flat_map_app. simpl.
  now rewrite app_nil_r.
Qed.

Lemma log_ok_boot t0 : log_ok t0 (boot t0).
Proof. reflexivity. Qed.

Lemma log_ok_step E t0 c w w' :
  invariant E t0 w -> log_ok t0 w -> step E c w = Some w' -> log_ok t0 w'.
Proof.
  intros Hinv Hlog Hstep.
  pose proof (inv_config _ _ _ Hinv) as (Hu & Hth & Hn & Hiv).
  pose proof (inv_dispatch _ _ _ Hinv) as Hd.
  unfold log_ok, dispatch_ok in *.
  destruct c as [|i].
  - simpl in Hstep. unfold main_step in Hstep.
    destruct (main w) eqn:Hm.
    + injection Hstep as <-. simpl.
      destruct (num_threads (obj w) <=? 0); simpl; [now left|].
      rewrite Hlog. unfold banner, dispatch_trace. simpl.
      now rewrite Hu, Hth, Hn, Hiv.
    + destruct Hd as [Hlen Hle].
      destruct (Z.of_nat i <? num_requests (obj w)) eqn:Hlt;
        injection Hstep as <-; simpl.
      * rewrite Hlog. now rewrite <- app_assoc.
      * apply Z.ltb_ge in Hlt. rewrite Hn in Hlt.
        replace (Z.to_nat (num_requests t0)) with i by lia. exact Hlog.
    + destruct (sleep_raises E (interval (obj w))) as [e|] eqn:Hsl;
        injection Hstep as <-; simpl;
        [left; eapply sleep_raises_before_barrier; eauto|].
      rewrite Hlog, dispatch_trace_S. unfold iteration.
      rewrite Hn, Hiv, <- !app_assoc. reflexivity.
    + destruct (forallb is_finished (futures w)); [|discriminate].
      injection Hstep as <-. simpl. rewrite Hlog. now rewrite <- app_assoc.
    + destruct (print_results (obj w)) as [out|out e] eqn:Hr;
        injection Hstep as <-; simpl; [|right];
        (exists out; split; [assumption|]; rewrite Hlog;
         now rewrite <- !app_assoc).
    + discriminate.
    + discriminate.
  - apply worker_step_inv in Hstep as (p & p' & t' & Hi & Hs & ->). simpl.
    apply worker_step_unfinished in Hs.
    assert (Hno : forallb is_finished (futures w) = true -> False).
    { intros H. pose proof (forallb_nth_error _ _ _ _ H Hi). congruence. }
    destruct (main w); auto.
    + destruct Hd as [_ Hfin]. tauto.
    + destruct Hlog as [He|(out & Hr & Hl)]; [now left|].
      destruct Hd as [He|[_ Hfin]]; [now left|tauto].
Qed.

Lemma log_ok_exec E t0 sched w w' :
  invariant E t0 w -> log_ok t0 w -> exec E sched w = Some w' -> log_ok t0 w'.
Proof.
  revert w; induction sched as [|c sched IH]; intros w Hinv Hlog; simpl.
  - now intros [= <-].
  - destruct (step E c w) as [w1|] eqn:Hs; [|discriminate].
    apply IH; [eapply invariant_step|eapply log_ok_step]; eauto.
Qed.

Lemma log_ok_reachable E u threads n iv w :
  reachable E (init u threads n iv) w -> log_ok (init u threads n iv) w.
Proof.
  intros [sched H].
  eapply log_ok_exec; [apply invariant_boot|apply log_ok_boot|eauto].
Qed.

Lemma worker_step_clock a i t p t' p' :
  worker_step a i t p = Some (t', p') ->
  start_time t' = start_time t /\ end_time t' = end_time t.
Proof.
  destruct p; simpl; try discriminate.
  - intros [= <- _]; auto.
  - destruct a; intros [= <- _]; auto.
  - intros [= <- _]; auto.
  - destruct (Dict.mem _ _ _); intros [= <- _]; auto.
  - destruct (Dict.get _ _ _); intros [= <- _]; auto.
  - intros [= <- _]; auto.
  - intros [= <- _]; auto.
Qed.

Lemma clock_ok_step E c w w' : clock_ok E w -> step E c w = Some w' -> clock_ok E w'.
Proof.
  intros [Hs He] Hstep. destruct c as [|i].
  - simpl in Hstep. unfold main_step in Hstep. unfold clock_ok.
    destruct (main w) eqn:Hm.
    + injection Hstep as <-; simpl. split; [reflexivity|].
      destruct (num_threads (obj w) <=? 0); discriminate.
    + destruct (Z.of_nat i <? num_requests (obj w)); injection Hstep as <-; simpl;
        (split; [intros _; apply Hs; discriminate|discriminate]).
    + destruct (sleep_raises E (interval (obj w))) as [e|] eqn:Hsl;
        injection Hstep as <-; simpl;
        (split; [intros _; apply Hs; discriminate|]).
      * apply sleep_raises_before_barrier in Hsl. destruct e; discriminate.
      * discriminate.
    + destruct (forallb is_finished (futures w)); [|discriminate].
      injection Hstep as <-; simpl. split; [intros _; apply Hs; discriminate|reflexivity].
    + destruct (print_results (obj w)); injection Hstep as <-; simpl;
        (split; [intros _; apply Hs; discriminate|intros _; now apply He]).
    + discriminate.
    + discriminate.
  - apply worker_step_inv in Hstep as (p & p' & t' & Hi & Hw & ->).
    apply worker_step_clock in Hw as [Hs' He']. split; simpl; intros; [rewrite Hs'|rewrite He']; auto.
Qed.

Lemma clock_ok_reachable E t0 w : reachable E t0 w -> clock_ok E w.
Proof.
  intros [sched H].
  assert (H0 : clock_ok E (boot t0)) by (split; simpl; [congruence|discriminate]).
  revert H H0. generalize (boot t0) as w0.
  induction sched as [|c sched IH]; intros w0; simpl.
  - now intros [= <-].
  - destruct (step E c w0) as [w1|] eqn:Hs; [|discriminate].
    intros H H0. eapply IH; eauto. eapply clock_ok_step; eauto.
Qed.

(** ** The report *)

Lemma print_results_returned t out :
  print_results t = Returned out ->
  (response_times t = [] /\ out = [NoSuccessfulRequests])
  \/ (exists x xs s e,
        response_times t = x :: xs
        /\ start_time t = Some s /\ end_time t = Some e
        /\ Qeq_bool (e - s) 0 = false
        /\ (status_codes t = [] \/ num_requests t <> 0)
        /\ out = summary_lines t (e - s) ++ statistics_lines x xs
                 ++ [StatusCodeDistribution]
                 ++ status_code_lines (status_codes t) (num_requests t)
                 ++ error_lines (errors t)).
Proof.
  unfold print_results.
  destruct (response_times t) as [|x xs] eqn:Hrt; [intros [= <-]; now left|].
  destruct (start_time t) as [s|]; [|discriminate].
  destruct (end_time t) as [e|]; [|discriminate].
  destruct (Qeq_bool (e - s) 0) eqn:Hq; [discriminate|].
  destruct (status_codes t) as [|it d] eqn:Hd.
  - intros [= <-]. right. exists x, xs, s, e.
    repeat split; auto. now rewrite <- !app_assoc.
  - destruct (num_requests t =? 0) eqn:Hn; [discriminate|].
    intros [= <-]. right. exists x, xs, s, e.
    apply Z.eqb_neq in Hn.
    repeat split; auto. now rewrite <- !app_assoc.
Qed.

Lemma print_results_returns t x xs s e :
  response_times t = x :: xs ->
  start_time t = Some s -> end_time t = Some e ->
  ~ (e - s == 0)%Q ->
  status_codes t = [] \/ num_requests t <> 0 ->
  print_results t
  = Returned (summary_lines t (e - s) ++ statistics_lines x xs
              ++ [StatusCodeDistribution]
              ++ status_code_lines (status_codes t) (num_requests t)
              ++ error_lines (errors t)).
Proof.
  intros Hrt Hs He Hd Hn. unfold print_results. rewrite Hrt, Hs, He.
  destruct (Qeq_bool (e - s) 0) eqn:Hq.
  { apply Qeq_bool_iff in Hq. contradiction. }
  destruct (status_codes t) as [|it d] eqn:Hsc.
  - now rewrite <- !app_assoc.
  - destruct Hn as [Hn|Hn]; [discriminate|].
    apply Z.eqb_neq in Hn. rewrite Hn. now rewrite <- !app_assoc.
Qed.

(** What a run that returned has logged. *)
Lemma returned_log E u threads n iv w :
  reachable E (init u threads n iv) w ->
  main w = MDone ->
  exists out,
    print_results (obj w) = Returned out
    /\ log w = banner (init u threads n iv) ++ dispatch_trace iv n (Z.to_nat n)
               ++ [Print Rule] ++ map Print out
    /\ num_requests (obj w) = n
    /\ start_time (obj w) = Some (clock_start E)
    /\ end_time (obj w) = Some (clock_end E).
Proof.
  intros Hr Hm.
  pose proof (log_ok_reachable _ _ _ _ _ _ Hr) as Hlog.
  pose proof (clock_ok_reachable _ _ _ Hr) as [Hs He].
  pose proof (invariant_reachable _ _ _ _ _ _ Hr) as Hinv.
  unfold log_ok in Hlog. rewrite Hm in *. simpl in Hlog.
  destruct Hlog as (out & Hp & Hl). exists out.
  repeat split; auto.
  - apply Hinv.
  - apply Hs. discriminate.
Qed.

(** C4. With no elapsed time recorded, [print_results] prints the one line
    "No successful requests were made." and returns: whatever the
    timestamps and [num_requests] are, no division is reached. This is the
    case of every run with [num_requests = 0]: after its barrier nothing is
    recorded, and a run that returned has printed that one line after the
    banner and the rule. *)
Theorem no_success_no_statistics :
  (forall t, response_times t = [] ->
     print_results t = Returned [NoSuccessfulRequests])
  /\ (forall E u threads iv sched w,
        exec E sched (boot (init u threads 0 iv)) = Some w ->
        past_barrier (main w) = true ->
        response_times (obj w) = []
        /\ print_results (obj w) = Returned [NoSuccessfulRequests]
        /\ (main w = MReport
            \/ (main w = MDone
                /\ log w = banner (init u threads 0 iv)
                           ++ [Print Rule; Print NoSuccessfulRequests]))).
Proof.
  assert (H1 : forall t, response_times t = [] ->
                 print_results t = Returned [NoSuccessfulRequests]).
  { intros t Hrt. unfold print_results. now rewrite Hrt. }
  split; [exact H1|].
  intros E u threads iv sched w Hexec Hb.
  assert (Hr : reachable E (init u threads 0 iv) w) by (exists sched; exact Hexec).
  destruct (barrier_state _ _ _ _ _ _ Hr Hb) as (_ & Ht & _).
  assert (Hrt : response_times (obj w) = []).
  { destruct (response_times (obj w)); [reflexivity|discriminate]. }
  split; [assumption|]. split; [auto|].
  pose proof (log_ok_reachable _ _ _ _ _ _ Hr) as Hlog. unfold log_ok in Hlog.
  destruct (main w) as [| | | | | |e] eqn:Hm; try discriminate.
  - now left.
  - right. split; [reflexivity|].
    destruct Hlog as (out & Hp & Hl). rewrite (H1 _ Hrt) in Hp.
    injection Hp as <-. exact Hl.
  - exfalso. destruct Hlog as [He|(out & Hp & _)]; [destruct e; discriminate|].
    rewrite (H1 _ Hrt) in Hp. discriminate.
Qed.

Lemma no_success_no_statistics_witness :
  print_results (init "http://myapp.com/api" 5 0 (1 # 10))
  = Returned [NoSuccessfulRequests]
  /\ exists w,
       exec env_idle schedule_idle (boot (init "http://myapp.com/api" 5 0 (1 # 10)))
       = Some w
       /\ main w = MDone
       /\ print_results (obj w) = Returned [NoSuccessfulRequests].
Proof.
  destruct no_success_no_statistics as [H1 H2].
  split; [apply H1; reflexivity|].
  eexists. split; [vm_compute; reflexivity|].
  split; [reflexivity|].
  apply (H2 env_idle "http://myapp.com/api"%string 5 (1 # 10) schedule_idle);
    vm_compute; reflexivity.
Defined.

(** Only the summary prints a throughput. *)
Lemma throughput_line_unique t d x xs r :
  In (RequestsPerSecond r)
     (summary_lines t d ++ statistics_lines x xs ++ [StatusCodeDistribution]
      ++ status_code_lines (status_codes t) (num_requests t)
      ++ error_lines (errors t)) ->
  r = (inject_Z (num_requests t) / d)%Q.
Proof.
  rewrite !in_app_iff. intros [H|[H|[H|[H|H]]]].
  - simpl in H. intuition congruence.
  - unfold statistics_lines in H. apply in_app_iff in H as [H|H].
    + simpl in H. intuition congruence.
    + destruct (1 <? length (x :: xs))%nat; simpl in H; intuition congruence.
  - simpl in H. intuition congruence.
  - unfold status_code_lines in H. apply in_map_iff in H as (it & H & _).
    discriminate.
  - unfold error_lines in H. destruct (errors t); simpl in H; [contradiction|].
    destruct H as [H|H]; [discriminate|].
    apply in_map_iff in H as (it & H & _). discriminate.
Qed.

Lemma trace_prints_progress_only iv n k l :
  In (Print l) (dispatch_trace iv n k) -> exists a b, l = Progress a b.
Proof.
  unfold dispatch_trace. intros H. apply in_flat_map in H as (i & _ & H).
  unfold iteration in H. simpl in H.
  destruct H as [H|[H|H]]; try discriminate.
  destruct (progress_due i n); simpl in H; [|contradiction].
  destruct H as [[= <-]|[]]. eauto.
Qed.

(** C5. In every run that returned with at least one success, the wall
    clock duration [end_time - start_time] is not zero and the report
    gives, right after it, the throughput [num_requests / duration], with
    the configured [num_requests] whatever the numbers of successes and of
    failures printed next; no other throughput is printed. *)
Theorem throughput_is_configured_total_over_duration
    (E : env) (u : string) (threads n : Z) (iv : Q) (sched : list choice) (w : world) :
  exec E sched (boot (init u threads n iv)) = Some w ->
  main w = MDone ->
  response_times (obj w) <> [] ->
  let duration := (clock_end E - clock_start E)%Q in
  ~ (duration == 0)%Q
  /\ (exists rest,
        log w = banner (init u threads n iv) ++ dispatch_trace iv n (Z.to_nat n)
                ++ [Print Rule]
                ++ map Print
                     (LoadTestResults :: TestDuration duration
                      :: RequestsPerSecond (inject_Z n / duration)
                      :: TotalRequests n
                      :: SuccessfulRequests (length (response_times (obj w)))
                      :: FailedRequests (length (errors (obj w)))
                      :: rest))
  /\ (forall r, In (Print (RequestsPerSecond r)) (log w) ->
        r = (inject_Z n / duration)%Q).
Proof.
  intros Hexec Hm Hne duration.
  assert (Hr : reachable E (init u threads n iv) w) by (exists sched; exact Hexec).
  destruct (returned_log _ _ _ _ _ _ Hr Hm) as (out & Hp & Hl & Hn & Hs & He).
  apply print_results_returned in Hp as [[Hrt _]|Hp]; [contradiction|].
  destruct Hp as (x & xs & s & e & Hrt & Hs' & He' & Hq & Hz & ->).
  rewrite Hs in Hs'. rewrite He in He'.
  injection Hs' as <-. injection He' as <-. fold duration in Hq |- *.
  split.
  { intros H. apply Qeq_bool_iff in H. congruence. }
  split.
  - exists (statistics_lines x xs ++ [StatusCodeDistribution]
            ++ status_code_lines (status_codes (obj w)) n
            ++ error_lines (errors (obj w))).
    rewrite Hl. unfold summary_lines. rewrite Hn. reflexivity.
  - intros r Hin. rewrite Hl in Hin.
    rewrite !in_app_iff in Hin. destruct Hin as [Hin|[Hin|[Hin|Hin]]].
    + simpl in Hin. intuition discriminate.
    + apply trace_prints_progress_only in Hin as (a & b & [=]).
    + simpl in Hin. intuition discriminate.
    + apply in_map_iff in Hin as (l & [= ->] & Hin).
      apply throughput_line_unique in Hin. now rewrite Hn in Hin.
Qed.

Lemma throughput_is_configured_total_over_duration_witness :
  exists w,
    exec env_one_timeout schedule_one_timeout (boot (init "http://myapp.com/api" 2 2 0))
    = Some w
    /\ length (response_times (obj w)) = 1%nat
    /\ In (Print (RequestsPerSecond (inject_Z 2 / (1 - 0)))) (log w).
Proof.
  eexists. split; [vm_compute; reflexivity|].
  split; [reflexivity|].
  destruct (throughput_is_configured_total_over_duration env_one_timeout
              "http://myapp.com/api" 2 2 0 schedule_one_timeout _
              ltac:(vm_compute; reflexivity) ltac:(reflexivity)
              ltac:(discriminate))
    as (_ & (rest & Hlog) & _).
  rewrite Hlog. rewrite !in_app_iff. right. right. right.
  simpl. right. right. left. reflexivity.
Defined.

(** ** [sorted] *)

Section Sorted.
Context {A : Type} (leb : A -> A -> bool).

Lemma insert_by_perm x l : Permutation (insert_by leb x l) (x :: l).
Proof.
  induction l as [|y l IH]; simpl; [reflexivity|].
  destruct (leb x y); [reflexivity|].
  rewrite IH. apply perm_swap.
Qed.

Lemma sorted_perm l : Permutation (sorted leb l) l.
Proof.
  induction l as [|x l IH]; simpl; [reflexivity|].
  rewrite insert_by_perm. now constructor.
Qed.

Lemma sorted_length l : length (sorted leb l) = length l.
Proof. apply Permutation_length, sorted_perm. Qed.

Lemma sorted_In x l : In x (sorted leb l) <-> In x l.
Proof.
  split; apply Permutation_in; [|symmetry]; apply sorted_perm.
Qed.

Hypothesis leb_total : forall a b, leb a b = false -> leb b a = true.
Hypothesis leb_trans : forall a b c, leb a b = true -> leb b c = true -> leb a c = true.

Lemma insert_by_sorted x l :
  StronglySorted (fun a b => leb a b = true) l ->
  StronglySorted (fun a b => leb a b = true) (insert_by leb x l).
Proof using leb_total leb_trans.
  induction 1 as [|y l Hs IH Hy]; simpl.
  - repeat constructor.
  - destruct (leb x y) eqn:Hxy.
    + constructor; [now constructor|].
      constructor; [assumption|].
      rewrite Forall_forall in *. eauto.
    + constructor; [assumption|].
      rewrite Forall_forall in *. intros z Hz.
      apply (Permutation_in _ (insert_by_perm x l)) in Hz as [<-|Hz]; auto.
Qed.

Lemma sorted_sorted l : StronglySorted (fun a b => leb a b = true) (sorted leb l).
Proof using leb_total leb_trans.
  induction l as [|x l IH]; simpl; [constructor|]. now apply insert_by_sorted.
Qed.

End Sorted.

Lemma StronglySorted_weaken {A} (P Q : A -> A -> Prop) l :
  (forall a b, P a b -> Q a b) -> StronglySorted P l -> StronglySorted Q l.
Proof.
  intros HPQ. induction 1 as [|y d Hs IH Hy]; constructor; auto.
  rewrite Forall_forall in *. auto.
Qed.

(** Stability: elements that the order does not separate keep their input
    order. [same] selects such a class: the order puts an element of the
    class in front of every other one. *)
Lemma insert_by_stable {A} (leb : A -> A -> bool) (same : A -> bool) x l :
  (forall y, same x = true -> same y = true -> leb x y = true) ->
  filter same (insert_by leb x l) = filter same (x :: l).
Proof.
  intros Hsame. induction l as [|y l IH]; simpl; [reflexivity|].
  destruct (leb x y) eqn:Hxy; [reflexivity|].
  simpl in *. destruct (same y) eqn:Hy.
  - destruct (same x) eqn:Hx.
    + rewrite Hsame in Hxy by auto. discriminate.
    + now rewrite IH.
  - exact IH.
Qed.

Lemma sorted_stable {A} (leb : A -> A -> bool) (same : A -> bool) l :
  (forall x y, same x = true -> same y = true -> leb x y = true) ->
  filter same (sorted leb l) = filter same l.
Proof.
  intros Hsame. induction l as [|x l IH]; simpl; [reflexivity|].
  rewrite insert_by_stable by auto. simpl. now rewrite IH.
Qed.

(** ** Statistics *)

Lemma Qmin_is x y : Qmin x y = x \/ Qmin x y = y.
Proof.
  unfold Qmin, GenericMinMax.gmin. destruct (x ?= y)%Q; auto.
Qed.

Lemma Qmax_is x y : Qmax x y = x \/ Qmax x y = y.
Proof.
  unfold Qmax, GenericMinMax.gmax. destruct (x ?= y)%Q; auto.
Qed.

Lemma min_list_spec x l :
  In (min_list x l) (x :: l) /\ (forall y, In y (x :: l) -> min_list x l <= y)%Q.
Proof.
  unfold min_list. revert x; induction l as [|a l IH]; intros x; simpl.
  - split; [now left|]. intros y [<-|[]]. apply Qle_refl.
  - destruct (IH (Qmin x a)) as [Hin Hle]. split.
    + destruct Hin as [Hin|Hin]; [|now right; right].
      rewrite <- Hin. destruct (Qmin_is x a) as [->| ->]; auto.
    + intros y [<-|[<-|Hy]].
      * eapply Qle_trans; [apply Hle; now left|apply Q.le_min_l].
      * eapply Qle_trans; [apply Hle; now left|apply Q.le_min_r].
      * apply Hle. now right.
Qed.

Lemma max_list_spec x l :
  In (max_list x l) (x :: l) /\ (forall y, In y (x :: l) -> y <= max_list x l)%Q.
Proof.
  unfold max_list. revert x; induction l as [|a l IH]; intros x; simpl.
  - split; [now left|]. intros y [<-|[]]. apply Qle_refl.
  - destruct (IH (Qmax x a)) as [Hin Hle]. split.
    + destruct Hin as [Hin|Hin]; [|now right; right].
      rewrite <- Hin. destruct (Qmax_is x a) as [->| ->]; auto.
    + intros y [<-|[<-|Hy]].
      * eapply Qle_trans; [apply Q.le_max_l|apply Hle; now left].
      * eapply Qle_trans; [apply Q.le_max_r|apply Hle; now left].
      * apply Hle. now right.
Qed.

Lemma mean_spec x l : (mean (x :: l) * Qlen (x :: l) == Qsum (x :: l))%Q.
Proof.
  unfold mean. rewrite Qmult_comm. apply Qmult_div_r.
  unfold Qlen. simpl length. intros H.
  unfold Qeq, inject_Z in H. cbn [Qnum Qden] in H. lia.
Qed.

Lemma Qle_bool_total a b : Qle_bool a b = false -> Qle_bool b a = true.
Proof.
  intros H. apply Qle_bool_iff. apply Qlt_le_weak. apply Qnot_le_lt.
  intros Hle. apply Qle_bool_iff in Hle. congruence.
Qed.

Lemma Qle_bool_trans a b c :
  Qle_bool a b = true -> Qle_bool b c = true -> Qle_bool a c = true.
Proof.
  rewrite !Qle_bool_iff. apply Qle_trans.
Qed.

(** The data [statistics.median] takes its middle from: the times in
    ascending order. *)
Lemma median_data l :
  let data := sorted Qle_bool l in
  Permutation data l /\ StronglySorted Qle data.
Proof.
  simpl. split; [apply sorted_perm|].
  pose proof (sorted_sorted Qle_bool Qle_bool_total Qle_bool_trans l) as H.
  induction H as [|y d Hs IH Hy]; constructor; auto.
  rewrite Forall_forall in *. intros z Hz. apply Qle_bool_iff. auto.
Qed.

Lemma Qlen_cons a l : (Qlen (a :: l) == Qlen l + 1)%Q.
Proof.
  unfold Qlen. simpl length. rewrite Nat2Z.inj_succ, <- Z.add_1_r, inject_Z_plus.
  reflexivity.
Qed.

Lemma Qlen_pos a l : (0 < Qlen (a :: l))%Q.
Proof.
  unfold Qlen, Qlt, inject_Z. simpl length. cbn [Qnum Qden]. lia.
Qed.

Lemma Qsum_squares_nonneg (f : Q -> Q) l :
  (0 <= Qsum (map (fun x => f x * f x) l))%Q.
Proof.
  induction l as [|a l IH]; simpl; [apply Qle_refl|].
  setoid_replace 0%Q with (0 + 0)%Q by ring.
  apply Qplus_le_compat; [|assumption].
  destruct (Qlt_le_dec (f a) 0) as [Hneg|Hpos].
  - setoid_replace (f a * f a)%Q with ((- f a) * (- f a))%Q by ring.
    apply Qmult_le_0_compat; apply (Qopp_le_compat (f a) 0); now apply Qlt_le_weak.
  - now apply Qmult_le_0_compat.
Qed.

(** With at least two values the divisor of the sample variance is
    positive. *)
Lemma Qlen_minus_1_pos l : (2 <= length l)%nat -> (0 < Qlen l - 1)%Q.
Proof.
  intros H. unfold Qlen, Qlt, Qminus, Qplus, Qopp, inject_Z. cbn [Qnum Qden]. lia.
Qed.

(** The sample variance: the squared deviations from the mean, summed and
    divided by one less than their number. *)
Lemma variance_spec l :
  (2 <= length l)%nat ->
  (variance l * (Qlen l - 1)
   == Qsum (map (fun y => (y - mean l) * (y - mean l)) l))%Q
  /\ (0 <= variance l)%Q.
Proof.
  intros H. pose proof (Qlen_minus_1_pos l H) as Hpos.
  unfold variance. split.
  - rewrite Qmult_comm. apply Qmult_div_r.
    intros E. rewrite E in Hpos. now apply Qlt_irrefl in Hpos.
  - apply Qle_shift_div_l; [assumption|]. rewrite Qmult_0_l.
    apply (Qsum_squares_nonneg (fun y => y - mean l)%Q).
Qed.

(** [sqrt_half_even y] is an integer nearest to the square root of [y]. *)
Lemma sqrt_half_even_spec y :
  (0 <= y)%Q ->
  let k := sqrt_half_even y in
  0 <= k
  /\ (4 * y <= inject_Z ((2 * k + 1) * (2 * k + 1)))%Q
  /\ (1 <= k -> (inject_Z ((2 * k - 1) * (2 * k - 1)) <= 4 * y)%Q).
Proof.
  intros Hy k. subst k. unfold sqrt_half_even.
  set (q := (4 * y)%Q).
  assert (Hq : (0 <= q)%Q).
  { unfold q. setoid_replace 0%Q with (4 * 0)%Q by ring.
    apply Qmult_le_l; [reflexivity|assumption]. }
  assert (Hf : 0 <= Qfloor q).
  { change 0 with (Qfloor 0). now apply Qfloor_resp_le. }
  set (r := Z.sqrt (Qfloor q)).
  destruct (Z.sqrt_spec (Qfloor q) Hf) as [Hlo Hhi]. fold r in Hlo, Hhi.
  assert (Hr : 0 <= r) by apply Z.sqrt_nonneg.
  assert (Qlo : (inject_Z (r * r) <= q)%Q).
  { eapply Qle_trans; [|apply Qfloor_le]. rewrite <- Zle_Qle. exact Hlo. }
  assert (Qhi : (q < inject_Z ((r + 1) * (r + 1)))%Q).
  { eapply Qlt_le_trans; [apply Qlt_floor|]. rewrite <- Zle_Qle.
    unfold Z.succ in Hhi. lia. }
  assert (Hdiv : r = 2 * (r / 2) + (if Z.even r then 0 else 1)).
  { rewrite Zeven_mod. pose proof (Z.div_mod r 2 ltac:(lia)) as D.
    pose proof (Z.mod_pos_bound r 2 ltac:(lia)) as B.
    destruct (Z.eqb_spec (r mod 2) 0); lia. }
  set (h := r / 2) in *.
  assert (Hh : 0 <= h) by (destruct (Z.even r); lia).
  destruct (Z.even r) eqn:Hev.
  - (* r = 2h *)
    assert (r = 2 * h) as Er by lia.
    split; [assumption|]. split.
    + apply Qlt_le_weak. eapply Qlt_le_trans; [exact Qhi|].
      rewrite <- Zle_Qle. rewrite Er. lia.
    + intros Hk. eapply Qle_trans; [|exact Qlo]. rewrite <- Zle_Qle. rewrite Er. nia.
  - assert (r = 2 * h + 1) as Er by lia.
    destruct (Qeq_bool q (inject_Z (r * r)) && Z.even h) eqn:Htie.
    + apply andb_true_iff in Htie as [Hq' _]. apply Qeq_bool_iff in Hq'.
      split; [assumption|]. split.
      * rewrite Hq'. rewrite <- Zle_Qle. rewrite Er. lia.
      * intros Hk. rewrite Hq'. rewrite <- Zle_Qle. rewrite Er. nia.
    + split; [lia|]. split.
      * apply Qlt_le_weak. eapply Qlt_le_trans; [exact Qhi|].
        rewrite <- Zle_Qle. rewrite Er. nia.
      * intros _. eapply Qle_trans; [|exact Qlo]. rewrite <- Zle_Qle. rewrite Er.
        apply Z.eq_le_incl. ring.
Qed.

(** The standard deviation printed is the multiple of 0.0001 nearest to
    the square root of the sample variance. *)
Lemma stdev_4f_spec l :
  (2 <= length l)%nat ->
  (exists k, 0 <= k /\ stdev_4f l = k # 10000)
  /\ (0 <= stdev_4f l)%Q
  /\ (variance l <= (stdev_4f l + (1 # 20000)) * (stdev_4f l + (1 # 20000)))%Q
  /\ ((0 < stdev_4f l)%Q ->
      ((stdev_4f l - (1 # 20000)) * (stdev_4f l - (1 # 20000)) <= variance l)%Q).
Proof.
  intros H. destruct (variance_spec l H) as [_ Hv].
  unfold stdev_4f.
  set (v := variance l) in *.
  assert (Hy : (0 <= v * inject_Z (10 ^ 8))%Q).
  { apply Qmult_le_0_compat; [assumption|]. now rewrite <- (Zle_Qle 0). }
  destruct (sqrt_half_even_spec _ Hy) as (Hk & Hup & Hlow).
  set (k := sqrt_half_even (v * inject_Z (10 ^ 8))) in *. clearbody k.
  assert (Es : (k # 10000 == inject_Z k / 10000)%Q).
  { rewrite (Qmake_Qdiv k 10000). reflexivity. }
  split; [exists k; auto|]. split.
  { unfold Qle. cbn [Qnum Qden]. lia. }
  split.
  - rewrite Es.
    setoid_replace ((inject_Z k / 10000 + (1 # 20000)) * (inject_Z k / 10000 + (1 # 20000)))%Q
      with (inject_Z ((2 * k + 1) * (2 * k + 1)) / (4 * inject_Z (10 ^ 8)))%Q.
    2:{ rewrite !inject_Z_mult, !inject_Z_plus, !inject_Z_mult.
        change (inject_Z (10 ^ 8)) with (100000000 # 1)%Q.
        change (inject_Z 2) with 2%Q. change (inject_Z 1) with 1%Q.
        setoid_replace (1 # 20000)%Q with (1 / 20000)%Q by reflexivity. field. }
    apply Qle_shift_div_l; [reflexivity|].
    eapply Qle_trans; [|exact Hup]. apply Qle_lteq. right. ring.
  - intros Hpos.
    assert (Hk1 : 1 <= k).
    { unfold Qlt in Hpos. cbn [Qnum Qden] in Hpos. lia. }
    specialize (Hlow Hk1). rewrite Es.
    setoid_replace ((inject_Z k / 10000 - (1 # 20000)) * (inject_Z k / 10000 - (1 # 20000)))%Q
      with (inject_Z ((2 * k - 1) * (2 * k - 1)) / (4 * inject_Z (10 ^ 8)))%Q.
    2:{ rewrite !inject_Z_mult. unfold Z.sub. rewrite !inject_Z_plus, !inject_Z_opp, !inject_Z_mult.
        change (inject_Z (10 ^ 8)) with (100000000 # 1)%Q.
        change (inject_Z 2) with 2%Q. change (inject_Z 1) with 1%Q.
        setoid_replace (1 # 20000)%Q with (1 / 20000)%Q by reflexivity. field. }
    apply Qle_shift_div_r; [reflexivity|].
    eapply Qle_trans; [exact Hlow|]. apply Qle_lteq. right. ring.
Qed.

(** C9. A report of a run with at least one success prints, between the
    summary and the status codes, the minimum, the maximum, the arithmetic
    mean and the median of the recorded elapsed times, followed by the
    standard deviation line if and only if there are at least two times;
    with exactly one time no such line is printed anywhere. The figure of
    that line is the sample standard deviation to the four decimals
    printed: the multiple of 0.0001 nearest to the square root of the
    sample variance, which is the sum of the squared deviations from the
    mean divided by one less than the number of times. *)
Theorem statistics_printed (t : LoadTester) (out : list line) (x : Q) (xs : list Q) :
  print_results t = Returned out ->
  response_times t = x :: xs ->
  let times := x :: xs in
  (exists pre sd post,
      out = pre ++ [ResponseTimeStatistics; Min (min_list x xs); Max (max_list x xs);
                    Mean (mean times); Median (median times)]
                ++ sd ++ StatusCodeDistribution :: post
      /\ ((sd = [StdDev (stdev_4f times)] /\ (2 <= length times)%nat)
          \/ (sd = [] /\ length times = 1%nat)))
  /\ (forall s, In (StdDev s) out <-> (2 <= length times)%nat /\ s = stdev_4f times)
  /\ (In (min_list x xs) times /\ forall y, In y times -> min_list x xs <= y)%Q
  /\ (In (max_list x xs) times /\ forall y, In y times -> y <= max_list x xs)%Q
  /\ (mean times * Qlen times == Qsum times)%Q
  /\ (Permutation (sorted Qle_bool times) times
      /\ StronglySorted Qle (sorted Qle_bool times)
      /\ median times
         = if Nat.odd (length times)
           then nth (length times / 2) (sorted Qle_bool times) 0%Q
           else ((nth (length times / 2 - 1) (sorted Qle_bool times) 0
                  + nth (length times / 2) (sorted Qle_bool times) 0) / 2)%Q)
  /\ ((2 <= length times)%nat ->
      (variance times * (Qlen times - 1)
       == Qsum (map (fun y => (y - mean times) * (y - mean times)) times))%Q
      /\ (0 <= variance times)%Q
      /\ (exists k, 0 <= k /\ stdev_4f times = k # 10000)
      /\ (variance times
          <= (stdev_4f times + (1 # 20000)) * (stdev_4f times + (1 # 20000)))%Q
      /\ ((0 < stdev_4f times)%Q ->
          ((stdev_4f times - (1 # 20000)) * (stdev_4f times - (1 # 20000))
           <= variance times)%Q)).
Proof.
  intros Hp Hrt times.
  apply print_results_returned in Hp as [[Hnil _]|Hp]; [congruence|].
  destruct Hp as (x' & xs' & s & e & Hrt' & Hs & He & Hq & Hz & ->).
  rewrite Hrt in Hrt'. injection Hrt' as <- <-.
  assert (Hlen : (1 <? length times)%nat = true /\ (2 <= length times)%nat
                 \/ (1 <? length times)%nat = false /\ length times = 1%nat).
  { destruct (1 <? length times)%nat eqn:Hl.
    - left. apply Nat.ltb_lt in Hl. split; [reflexivity|lia].
    - right. apply Nat.ltb_ge in Hl. split; [reflexivity|]. subst times. simpl in *. lia. }
  split; [|split; [|split; [|split; [|split; [|split]]]]].
  - exists (summary_lines t (e - s)).
    exists (if (1 <? length times)%nat then [StdDev (stdev_4f times)] else []).
    exists (status_code_lines (status_codes t) (num_requests t) ++ error_lines (errors t)).
    split.
    + unfold statistics_lines. fold times. now rewrite <- !app_assoc.
    + destruct Hlen as [[-> H]|[-> H]]; auto.
  - intros v. rewrite !in_app_iff. split.
    + intros [H|[H|[H|[H|H]]]].
      * simpl in H. intuition discriminate.
      * unfold statistics_lines in H. fold times in H.
        apply in_app_iff in H as [H|H]; [simpl in H; intuition discriminate|].
        destruct Hlen as [[Hb Hl]|[Hb Hl]]; rewrite Hb in H; simpl in H.
        -- destruct H as [[= <-]|[]]. auto.
        -- contradiction.
      * simpl in H. intuition discriminate.
      * unfold status_code_lines in H. apply in_map_iff in H as (it & H & _).
        discriminate.
      * unfold error_lines in H. destruct (errors t); simpl in H; [contradiction|].
        destruct H as [H|H]; [discriminate|].
        apply in_map_iff in H as (it & H & _). discriminate.
    + intros [Hl ->]. right. left. unfold statistics_lines. fold times.
      apply in_app_iff. right.
      destruct Hlen as [[-> _]|[_ H1]]; [now left|lia].
  - apply min_list_spec.
  - apply max_list_spec.
  - apply mean_spec.
  - destruct (median_data times) as [Hperm Hsorted].
    split; [assumption|]. split; [assumption|].
    unfold median. rewrite sorted_length.
    rewrite <- Nat.bit0_mod, Nat.bit0_odd.
    destruct (Nat.odd (length times)); reflexivity.
  - intros H2. destruct (variance_spec times H2) as [Hv Hv0].
    destruct (stdev_4f_spec times H2) as (Hk & _ & Hup & Hlow).
    auto.
Qed.

Lemma statistics_printed_witness :
  (exists w,
      exec env_quarters (sequential_schedule env_quarters (init "http://myapp.com/api" 1 3 0))
           (boot (init "http://myapp.com/api" 1 3 0)) = Some w
      /\ obj w = after_three_answers)
  /\ print_results after_three_answers
     = Returned (summary_lines after_three_answers 2
              ++ [ResponseTimeStatistics; Min (1 # 4); Max (3 # 4);
                  Mean (mean [1 # 4; 1 # 2; 3 # 4]); Median (1 # 2);
                  StdDev (2500 # 10000); StatusCodeDistribution;
                  StatusCode 200 3 (1000 # 10)])
  /\ (variance [1 # 4; 1 # 2; 3 # 4] == 1 # 16)%Q
  /\ (forall s, In (StdDev s) (lines_of (print_results after_three_answers))
                <-> s = 2500 # 10000)
  /\ (variance [1 # 4; 1 # 2; 3 # 4]
      <= ((2500 # 10000) + (1 # 20000)) * ((2500 # 10000) + (1 # 20000)))%Q.
Proof.
  destruct (statistics_printed after_three_answers
              (lines_of (print_results after_three_answers)) (1 # 4) [1 # 2; 3 # 4]
              ltac:(vm_compute; reflexivity) eq_refl)
    as (_ & Hsd & _ & _ & _ & _ & Hdev).
  split; [eexists; split; vm_compute; reflexivity|].
  split; [vm_compute; reflexivity|].
  split; [vm_compute; reflexivity|].
  split.
  - intros s. rewrite Hsd. split.
    + intros [_ ->]. vm_compute. reflexivity.
    + intros ->. split; [simpl; lia|vm_compute; reflexivity].
  - destruct (Hdev ltac:(simpl; lia)) as (_ & _ & _ & Hup & _).
    exact Hup.
Defined.

(** ** The error histogram *)

Lemma existsb_eqb_In x seen : existsb (String.eqb x) seen = true <-> In x seen.
Proof.
  rewrite existsb_exists. split.
  - intros (y & Hy & E). apply String.eqb_eq in E. now subst.
  - intros H. exists x. split; [assumption|apply String.eqb_refl].
Qed.

Lemma first_seen_In seen l m :
  In m (first_seen seen l) <-> In m l /\ ~ In m seen.
Proof.
  revert seen; induction l as [|x r IH]; intros seen; simpl; [tauto|].
  destruct (existsb (String.eqb x) seen) eqn:Hx.
  - apply existsb_eqb_In in Hx. rewrite IH. split.
    + intros [H1 H2]. auto.
    + intros [[->|H1] H2]; [contradiction|auto].
  - assert (Hx' : ~ In x seen).
    { intros H. apply existsb_eqb_In in H. congruence. }
    simpl. rewrite IH, in_app_iff. simpl. split.
    + intros [->|[H1 H2]]; auto.
    + intros [[->|H1] H2]; [now left|].
      destruct (String.string_dec x m) as [->|Hne]; [now left|].
      right. split; [assumption|]. intros [H|[H|[]]]; auto.
Qed.

Lemma dict_get_existsb {V} e (acc : list (string * V)) :
  existsb (String.eqb e) (Dict.keys acc)
  = match Dict.get String.eqb e acc with Some _ => true | None => false end.
Proof.
  induction acc as [|[k v] acc IH]; simpl; [reflexivity|].
  destruct (String.eqb e k); simpl; auto.
Qed.

Lemma error_counts_keys errs acc :
  Dict.keys (error_counts errs acc)
  = Dict.keys acc ++ first_seen (Dict.keys acc) errs.
Proof.
  revert acc; induction errs as [|e rest IH]; intros acc; simpl.
  - now rewrite app_nil_r.
  - rewrite IH, dict_get_existsb.
    destruct (Dict.get String.eqb e acc) as [c|] eqn:Hg.
    + rewrite (dict_keys_set_mem String.eqb String.eqb_spec); [reflexivity|].
      unfold Dict.mem. now rewrite Hg.
    + rewrite (dict_keys_set_new String.eqb String.eqb_spec).
      * now rewrite <- app_assoc.
      * unfold Dict.mem. now rewrite Hg.
Qed.

Lemma error_counts_NoDup errs acc :
  NoDup (Dict.keys acc) -> NoDup (Dict.keys (error_counts errs acc)).
Proof.
  revert acc; induction errs as [|e rest IH]; intros acc Hnd; simpl; [assumption|].
  apply IH. destruct (Dict.get String.eqb e acc);
    now apply (dict_NoDup_set String.eqb String.eqb_spec).
Qed.

Lemma error_counts_count errs acc m :
  Dict.count String.eqb m (error_counts errs acc)
  = (Dict.count String.eqb m acc + count_occ String.string_dec errs m)%nat.
Proof.
  revert acc; induction errs as [|e rest IH]; intros acc; simpl; [lia|].
  rewrite IH. destruct (String.string_dec e m) as [->|Hne].
  - destruct (Dict.get String.eqb m acc) as [c|] eqn:Hg;
      rewrite (dict_count_set_same String.eqb String.eqb_spec);
      unfold Dict.count; rewrite Hg; lia.
  - destruct (Dict.get String.eqb e acc) as [c|] eqn:Hg;
      rewrite (dict_count_set_other String.eqb String.eqb_spec) by congruence; lia.
Qed.

(** The histogram: the distinct messages in the order of their first
    occurrence, each with the number of its occurrences. *)
Lemma error_counts_spec errs :
  let H := error_counts errs [] in
  Dict.keys H = first_seen [] errs
  /\ NoDup (Dict.keys H)
  /\ (forall m c, In (m, c) H <->
        In m errs /\ c = count_occ String.string_dec errs m).
Proof.
  simpl. pose proof (error_counts_keys errs []) as Hk. simpl in Hk.
  pose proof (error_counts_NoDup errs [] (NoDup_nil _)) as Hnd.
  split; [assumption|]. split; [assumption|].
  intros m c. split.
  - intros Hin. split.
    + assert (In m (Dict.keys (error_counts errs []))) as Hm.
      { change m with (fst (m, c)). now apply in_map. }
      rewrite Hk in Hm. now apply first_seen_In in Hm.
    + apply (dict_In_get String.eqb String.eqb_spec) in Hin; [|assumption].
      pose proof (error_counts_count errs [] m) as Hc.
      unfold Dict.count in Hc at 1. rewrite Hin in Hc. exact Hc.
  - intros [Hin ->].
    assert (In m (Dict.keys (error_counts errs []))) as Hm.
    { rewrite Hk. apply first_seen_In. auto. }
    unfold Dict.keys in Hm. apply in_map_iff in Hm as ([m' c'] & E & Hm).
    simpl in E. subst m'.
    pose proof Hm as Hg.
    apply (dict_In_get String.eqb String.eqb_spec) in Hg; [|assumption].
    pose proof (error_counts_count errs [] m) as Hc.
    unfold Dict.count in Hc at 1. rewrite Hg in Hc. simpl in Hc. now subst.
Qed.

Lemma count_geb_total a b : count_geb a b = false -> count_geb b a = true.
Proof. unfold count_geb. rewrite Nat.leb_gt, Nat.leb_le. lia. Qed.

Lemma count_geb_trans a b c :
  count_geb a b = true -> count_geb b c = true -> count_geb a c = true.
Proof. unfold count_geb. rewrite !Nat.leb_le. lia. Qed.

Lemma map_fst_filter_count (f : string -> nat) c (H : list (string * nat)) :
  (forall m k, In (m, k) H -> k = f m) ->
  map fst (filter (fun it => (snd it =? c)%nat) H)
  = filter (fun m => (f m =? c)%nat) (map fst H).
Proof.
  induction H as [|[m k] H IH]; intros Hf; simpl; [reflexivity|].
  rewrite <- (Hf m k) by now left.
  destruct (k =? c)%nat; simpl; rewrite IH; auto; intros; apply Hf; now right.
Qed.

Lemma error_listing_spec errs :
  let listing := error_listing errs in
  NoDup (map fst listing)
  /\ (forall m c, In (m, c) listing <->
        In m errs /\ c = count_occ String.string_dec errs m)
  /\ StronglySorted (fun a b => (snd b <= snd a)%nat) listing
  /\ (forall c,
        map fst (filter (fun it => (snd it =? c)%nat) listing)
        = filter (fun m => (count_occ String.string_dec errs m =? c)%nat)
                 (first_seen [] errs)).
Proof.
  simpl. unfold error_listing.
  destruct (error_counts_spec errs) as (Hk & Hnd & Hin).
  pose proof (sorted_perm count_geb (error_counts errs [])) as Hperm.
  split; [|split; [|split]].
  - eapply Permutation_NoDup; [|exact Hnd].
    symmetry. apply Permutation_map. exact Hperm.
  - intros m c. rewrite <- Hin. apply sorted_In.
  - pose proof (sorted_sorted count_geb count_geb_total count_geb_trans
                  (error_counts errs [])) as Hs.
    eapply StronglySorted_weaken; [|exact Hs].
    intros a b Hab. now apply Nat.leb_le.
  - intros c. rewrite sorted_stable.
    + rewrite <- Hk. apply map_fst_filter_count.
      intros m k Hm. now apply Hin in Hm.
    + intros x y Hx Hy. apply Nat.eqb_eq in Hx, Hy. unfold count_geb.
      apply Nat.leb_le. lia.
Qed.

(** C7, as the code has it. A report of a run with at least one success
    and at least one failure ends with the error distribution: one line for
    each distinct error message with the number of its occurrences, larger
    counts first; messages with equal counts stand in the order in which
    they first occurred among the recorded errors. *)
Theorem error_distribution_order (t : LoadTester) (out : list line) :
  print_results t = Returned out ->
  response_times t <> [] ->
  errors t <> [] ->
  let errs := errors t in
  let listing := error_listing errs in
  (exists pre,
      out = pre ++ ErrorTypes (length errs)
                   :: map (fun it => ErrorType (fst it) (snd it)) listing)
  /\ NoDup (map fst listing)
  /\ (forall m c, In (m, c) listing <->
        In m errs /\ c = count_occ String.string_dec errs m)
  /\ StronglySorted (fun a b => (snd b <= snd a)%nat) listing
  /\ (forall c,
        map fst (filter (fun it => (snd it =? c)%nat) listing)
        = filter (fun m => (count_occ String.string_dec errs m =? c)%nat)
                 (first_seen [] errs)).
Proof.
  intros Hp Hrt Herr errs listing.
  split; [|apply error_listing_spec].
  apply print_results_returned in Hp as [[Hnil _]|Hp]; [contradiction|].
  destruct Hp as (x & xs & s & e & _ & _ & _ & _ & _ & ->).
  exists (summary_lines t (e - s) ++ statistics_lines x xs
          ++ [StatusCodeDistribution]
          ++ status_code_lines (status_codes t) (num_requests t)).
  rewrite <- !app_assoc. do 4 f_equal.
  unfold error_lines, listing, errs.
  destruct (errors t); [contradiction|reflexivity].
Qed.

Lemma error_distribution_order_witness :
  exists pre,
    lines_of (print_results after_two_errors)
    = pre ++ [ErrorTypes 2; ErrorType "b" 1; ErrorType "a" 1].
Proof.
  destruct (error_distribution_order after_two_errors
              (lines_of (print_results after_two_errors)) eq_refl
              ltac:(simpl; discriminate) ltac:(simpl; discriminate))
    as ((pre & Hout) & _).
  exists pre. exact Hout.
Defined.

(** C7 as stated fails: a run in which "b" fails before "a", once each,
    prints "b" before "a", while the order by text puts "a" first. *)
Lemma error_ties_not_by_text :
  exists w,
    exec env_two_errors schedule_two_errors (boot (init "http://myapp.com/api" 1 3 0))
    = Some w
    /\ main w = MDone
    /\ response_times (obj w) = [1 # 10]
    /\ errors (obj w) = ["b"; "a"]%string
    /\ (exists pre,
          log w = pre ++ [Print (ErrorTypes 2); Print (ErrorType "b" 1);
                          Print (ErrorType "a" 1)])
    /\ error_listing (errors (obj w)) = [("b", 1); ("a", 1)]%string%nat
    /\ error_listing_by_text (errors (obj w)) = [("a", 1); ("b", 1)]%string%nat.
Proof.
  eexists. split; [vm_compute; reflexivity|].
  repeat split.
  eexists. cbn [log]. 
  match goal with |- ?l = _ => 
    rewrite <- (firstn_skipn (length l - 3) l) end.
  reflexivity.
Qed.

(** ** The loop of [run] *)

Lemma iteration_submits iv n l :
  filter is_submit (flat_map (iteration iv n) l) = map Submit l.
Proof.
  induction l as [|i l IH]; simpl; [reflexivity|].
  destruct (progress_due i n); simpl; now rewrite IH.
Qed.

Lemma iteration_sleeps iv n l pre i post :
  flat_map (iteration iv n) l = pre ++ Submit i :: post ->
  exists post', post = Sleep iv :: post'.
Proof.
  revert pre; induction l as [|j l IH]; intros pre; simpl.
  - destruct pre; discriminate.
  - destruct pre as [|e0 pre]; simpl.
    { intros [= _ <-]. eauto. }
    intros [= _ H]. destruct pre as [|e1 pre]; simpl in H; [discriminate|].
    injection H as _ H.
    destruct (progress_due j n); simpl in H; [|eauto].
    destruct pre as [|e2 pre]; simpl in H; [discriminate|].
    injection H as _ H. eauto.
Qed.

Lemma iteration_progress iv n l a b :
  In (Print (Progress a b)) (flat_map (iteration iv n) l)
  <-> b = n /\ exists i, In i l /\ a = Z.of_nat i + 1
                         /\ (a mod 10 = 0 \/ a = n).
Proof.
  rewrite in_flat_map. unfold iteration, progress_due. split.
  - intros (i & Hi & H). simpl in H.
    destruct H as [H|[H|H]]; try discriminate.
    destruct (_ || _) eqn:Hd; simpl in H; [|contradiction].
    destruct H as [[= <- <-]|[]]. split; [reflexivity|].
    exists i. repeat split; auto.
    apply orb_true_iff in Hd as [Hd|Hd]; [left|right]; now apply Z.eqb_eq.
  - intros (-> & i & Hi & -> & Hd). exists i. split; [assumption|].
    simpl. right. right.
    assert (((Z.of_nat i + 1) mod 10 =? 0) || (Z.of_nat i + 1 =? n) = true) as ->.
    { apply orb_true_iff. destruct Hd as [Hd|Hd]; [left|right]; now apply Z.eqb_eq. }
    now left.
Qed.

(** C8. When the loop of [run] is over and its barrier has returned, the
    dispatching thread has done this and nothing else between the banner
    and the closing rule: for each request id from 0 to [num_requests - 1],
    in ascending order, one submission, directly followed by a sleep of
    [interval] seconds, directly followed by a progress line
    [submitted/total] exactly when the number of submissions so far is a
    multiple of 10 or equals [num_requests]. At that point there are
    [num_requests] futures and all of them are finished. *)
Theorem dispatch_loop_trace
    (E : env) (u : string) (threads n : Z) (iv : Q) (sched : list choice) (w : world) :
  exec E sched (boot (init u threads n iv)) = Some w ->
  past_barrier (main w) = true ->
  let N := Z.to_nat n in
  let L := flat_map (iteration iv n) (seq 0 N) in
  (exists rest, log w = banner (init u threads n iv) ++ L ++ Print Rule :: rest)
  /\ (forall i, iteration iv n i
                = [Submit i; Sleep iv]
                  ++ (if ((Z.of_nat i + 1) mod 10 =? 0) || (Z.of_nat i + 1 =? n)
                      then [Print (Progress (Z.of_nat i + 1) n)] else []))
  /\ filter is_submit L = map Submit (seq 0 N)
  /\ (forall pre i post, L = pre ++ Submit i :: post ->
        exists post', post = Sleep iv :: post')
  /\ (forall a b, In (Print (Progress a b)) L
        <-> b = n /\ 1 <= a <= n /\ (a mod 10 = 0 \/ a = n))
  /\ length (futures w) = N
  /\ forallb is_finished (futures w) = true.
Proof.
  intros Hexec Hb N L.
  assert (Hr : reachable E (init u threads n iv) w) by (exists sched; exact Hexec).
  pose proof (log_ok_reachable _ _ _ _ _ _ Hr) as Hlog.
  pose proof (invariant_reachable _ _ _ _ _ _ Hr) as Hinv.
  destruct (past_barrier_dispatch _ _ (inv_dispatch _ _ _ Hinv) Hb) as [Hlen Hfin].
  simpl in Hlen. fold N in Hlen.
  split; [|split; [|split; [|split; [|split; [|split]]]]]; auto.
  - unfold log_ok in Hlog. simpl in Hlog. fold N in Hlog.
    unfold dispatch_trace in Hlog. fold L in Hlog.
    destruct (main w) as [| | | | | |e]; try discriminate.
    + exists []. exact Hlog.
    + destruct Hlog as (out & _ & Hl). exists (map Print out). exact Hl.
    + destruct Hlog as [He|(out & _ & Hl)]; [destruct e; discriminate|].
      exists (map Print out). exact Hl.
  - apply iteration_submits.
  - intros pre i post. apply iteration_sleeps.
  - intros a b. unfold L. rewrite iteration_progress. split.
    + intros (-> & i & Hi & -> & Hd). apply in_seq in Hi. subst N.
      repeat split; auto; lia.
    + intros (-> & Ha & Hd). split; [reflexivity|].
      exists (Z.to_nat (a - 1)). rewrite in_seq. subst N.
      repeat split; auto; lia.
Qed.

Lemma dispatch_loop_trace_witness :
  exists w,
    exec env_two_errors schedule_two_errors (boot (init "http://myapp.com/api" 1 3 0))
    = Some w
    /\ (exists rest,
          log w = banner (init "http://myapp.com/api" 1 3 0)
                  ++ [Submit 0; Sleep 0; Submit 1; Sleep 0; Submit 2; Sleep 0;
                      Print (Progress 3 3)]
                  ++ Print Rule :: rest)
    /\ forallb is_finished (futures w) = true.
Proof.
  eexists. split; [vm_compute; reflexivity|].
  destruct (dispatch_loop_trace env_two_errors "http://myapp.com/api" 1 3 0
              schedule_two_errors _ ltac:(vm_compute; reflexivity) eq_refl)
    as (Hlog & _ & _ & _ & _ & _ & Hfin).
  split; [exact Hlog|exact Hfin].
Defined.

(** ** The status-code counts against the elapsed times *)

Lemma sum_over_le {A} (f g : A -> nat) l :
  (forall x, In x l -> (f x <= g x)%nat) -> (sum_over f l <= sum_over g l)%nat.
Proof.
  unfold sum_over. induction l as [|x l IH]; intros H; simpl; [lia|].
  pose proof (H x (or_introl eq_refl)).
  assert (list_sum (map f l) <= list_sum (map g l))%nat by (apply IH; intros; apply H; now right).
  lia.
Qed.

Lemma sum_over_add {A} (f g : A -> nat) l :
  sum_over (fun x => (f x + g x)%nat) l = (sum_over f l + sum_over g l)%nat.
Proof.
  unfold sum_over. induction l as [|x l IH]; simpl; [reflexivity|].
  rewrite IH. lia.
Qed.

Lemma dict_total_le {K} (W : K -> nat) (d : list (K * nat)) :
  (forall k c, In (k, c) d -> (c <= W k)%nat) ->
  (Dict.total d <= sum_over W (Dict.keys d))%nat.
Proof.
  unfold Dict.total, sum_over, Dict.keys.
  induction d as [|[k c] d IH]; intros H; simpl; [lia|].
  pose proof (H k c (or_introl eq_refl)).
  assert (list_sum (map snd d) <= list_sum (map W (map fst d)))%nat
    by (apply IH; intros; apply H; now right).
  lia.
Qed.

(** A call has stored a count for at most one status code. *)
Lemma stored_once ks p :
  NoDup ks -> (sum_over (fun k => stored k p) ks <= appended p)%nat.
Proof.
  unfold sum_over. induction 1 as [|k ks Hk Hnd IH]; simpl; [lia|].
  destruct p as [| | | | | | |[[id sc rt|id m]|e]]; simpl in *; try lia.
  destruct (Z.eqb_spec sc k) as [->|Hne]; [|lia].
  assert (list_sum (map (fun k0 => if k =? k0 then 1%nat else 0%nat) ks) = 0%nat) as ->; [|lia].
  clear IH Hnd. induction ks as [|k' ks IH]; simpl; [reflexivity|].
  destruct (Z.eqb_spec k k') as [->|Hne].
  - exfalso. apply Hk. now left.
  - apply IH. intros H. apply Hk. now right.
Qed.

Lemma stored_exchange ks fs :
  NoDup ks ->
  (sum_over (fun k => sum_over (stored k) fs) ks <= sum_over appended fs)%nat.
Proof.
  intros Hnd. induction fs as [|p fs IH].
  - unfold sum_over. simpl. induction ks; simpl; [lia|].
    inversion Hnd; subst. auto.
  - pose proof (stored_once ks p Hnd) as Hp.
    assert (sum_over (fun k => sum_over (stored k) (p :: fs)) ks
            = (sum_over (fun k => stored k p) ks
               + sum_over (fun k => sum_over (stored k) fs) ks)%nat) as ->.
    { rewrite <- sum_over_add. reflexivity. }
    unfold sum_over at 4. simpl. fold (sum_over appended fs). lia.
Qed.

(** The counts never exceed the elapsed times recorded. *)
Lemma total_le_times E t0 w :
  invariant E t0 w ->
  (Dict.total (status_codes (obj w)) <= length (response_times (obj w)))%nat.
Proof.
  intros [Hc Hd Ha Ht He Hk Hn Hp Hq].
  rewrite Ht.
  eapply Nat.le_trans; [|apply (stored_exchange _ _ Hk)].
  apply dict_total_le. intros k c Hin.
  apply (dict_In_get Z.eqb Z.eqb_spec) in Hin; [|assumption].
  destruct (Hn k) as [Hle _]. unfold Dict.count in Hle. now rewrite Hin in Hle.
Qed.

(** Without interruption [send_request] keeps the counts and the elapsed
    times level. *)
Lemma send_request_level t i a :
  Dict.total (status_codes t) = length (response_times t) ->
  Dict.total (status_codes (fst (send_request t i a)))
  = length (response_times (fst (send_request t i a))).
Proof.
  intros H. unfold send_request, send_request_try.
  destruct a as [sc rt|msg]; simpl; [|assumption].
  unfold Dict.mem.
  destruct (Dict.get Z.eqb sc (status_codes t)) as [c|] eqn:Hg; simpl;
    rewrite length_app; simpl;
    pose proof (dict_total_set Z.eqb Z.eqb_spec sc) as Hs.
  - specialize (Hs (c + 1)%nat (status_codes t)).
    unfold Dict.count in Hs. rewrite Hg in Hs. lia.
  - specialize (Hs 1%nat (status_codes t)).
    unfold Dict.count in Hs. rewrite Hg in Hs. lia.
Qed.

Lemma run_in_order_level http order t :
  Dict.total (status_codes t) = length (response_times t) ->
  Dict.total (status_codes (run_in_order http order t))
  = length (response_times (run_in_order http order t)).
Proof.
  revert t; induction order as [|i order IH]; intros t H; simpl; [assumption|].
  apply IH. now apply send_request_level.
Qed.

(** C2 as stated fails: two calls that overlap on lines 48-51 both find
    the status code absent and both store the count 1. After the barrier
    two elapsed times are recorded and the counts add up to 1. *)
Lemma status_code_write_lost :
  exists w,
    exec env_all_ok schedule_lost_insert (boot (init "http://myapp.com/api" 2 2 0))
    = Some w
    /\ main w = MDone
    /\ response_times (obj w) = [1 # 10; 1 # 10]
    /\ status_codes (obj w) = [(200, 1%nat)]
    /\ responses (http env_all_ok) 2 = 2%nat
    /\ ~ all_writes_present (http env_all_ok) 2 (obj w).
Proof.
  eexists. split; [vm_compute; reflexivity|].
  repeat split. intros (_ & H & _). vm_compute in H. discriminate.
Qed.

(** C2, as the code has it. The appends to the two lists are single steps:
    after the barrier, under every interleaving, the elapsed times are as
    many as the answered requests and the error texts as many as the failed
    ones, none lost and none twice. The status-code map is updated by a
    test, a load and a store that other calls can come between: after the
    barrier a status code is a key exactly when some request was answered
    with it, and its count is at least 1 and at most the number of those
    requests; the counts together never exceed the elapsed times. *)
Theorem recording_under_interleaving
    (E : env) (u : string) (threads n : Z) (iv : Q) (sched : list choice) (w : world) :
  exec E sched (boot (init u threads n iv)) = Some w ->
  past_barrier (main w) = true ->
  let N := Z.to_nat n in
  length (response_times (obj w)) = responses (http E) N
  /\ length (errors (obj w)) = failures (http E) N
  /\ (forall k, (1 <= responses_with (http E) k N)%nat ->
        (1 <= Dict.count Z.eqb k (status_codes (obj w))
           <= responses_with (http E) k N)%nat)
  /\ (forall k, responses_with (http E) k N = 0%nat ->
        Dict.get Z.eqb k (status_codes (obj w)) = None)
  /\ NoDup (Dict.keys (status_codes (obj w)))
  /\ (Dict.total (status_codes (obj w)) <= responses (http E) N)%nat.
Proof.
  intros Hexec Hb N.
  assert (Hr : reachable E (init u threads n iv) w) by (exists sched; exact Hexec).
  destruct (barrier_state _ _ _ _ _ _ Hr Hb) as (_ & Ht & He & Hk1 & Hk0).
  pose proof (invariant_reachable _ _ _ _ _ _ Hr) as Hinv.
  repeat split; auto; try apply Hk1; auto.
  - apply Hinv.
  - fold N in Ht. rewrite <- Ht. eapply total_le_times; eauto.
Qed.

Lemma recording_under_interleaving_witness :
  exists w,
    exec env_all_ok schedule_lost_insert (boot (init "http://myapp.com/api" 2 2 0))
    = Some w
    /\ length (response_times (obj w)) = 2%nat
    /\ length (errors (obj w)) = 0%nat
    /\ (1 <= Dict.count Z.eqb 200%Z (status_codes (obj w)) <= 2)%nat.
Proof.
  eexists. split; [vm_compute; reflexivity|].
  destruct (recording_under_interleaving env_all_ok "http://myapp.com/api" 2 2 0
              schedule_lost_insert _ ltac:(vm_compute; reflexivity) eq_refl)
    as (Ht & He & Hk & _).
  split; [exact Ht|]. split; [exact He|].
  apply (Hk 200). vm_compute. lia.
Defined.

(** C10 as stated fails: a call that runs alone stores the count 1, then
    two overlapping calls both load 1 and both store 2. After the barrier
    three elapsed times are recorded and the counts add up to 2. *)
Lemma counts_below_times :
  exists w,
    exec env_all_ok schedule_lost_increment (boot (init "http://myapp.com/api" 2 3 0))
    = Some w
    /\ main w = MDone
    /\ forallb is_finished (futures w) = true
    /\ length (response_times (obj w)) = 3%nat
    /\ Dict.total (status_codes (obj w)) = 2%nat.
Proof.
  eexists. split; [vm_compute; reflexivity|]. repeat split.
Qed.

(** ** The status-code distribution *)

Lemma item_leb_total a b : item_leb a b = false -> item_leb b a = true.
Proof.
  unfold item_leb. rewrite orb_false_iff, orb_true_iff, andb_false_iff, andb_true_iff.
  rewrite !Z.ltb_lt, !Z.ltb_ge, !Z.eqb_eq, !Z.eqb_neq, Nat.leb_gt, Nat.leb_le. lia.
Qed.

Lemma item_leb_trans a b c :
  item_leb a b = true -> item_leb b c = true -> item_leb a c = true.
Proof.
  unfold item_leb. rewrite !orb_true_iff, !andb_true_iff.
  rewrite !Z.ltb_lt, !Z.eqb_eq, !Nat.leb_le. lia.
Qed.

(** Distinct keys come out in strictly ascending order. *)
Lemma sorted_items_ascending (d : list (Z * nat)) :
  NoDup (Dict.keys d) ->
  StronglySorted (fun a b => fst a < fst b) (sorted item_leb d).
Proof.
  intros Hnd.
  assert (Hnd' : NoDup (map fst (sorted item_leb d))).
  { eapply Permutation_NoDup; [|exact Hnd].
    symmetry. apply Permutation_map, sorted_perm. }
  pose proof (sorted_sorted item_leb item_leb_total item_leb_trans d) as Hs.
  induction Hs as [|y l Hs IH Hy]; constructor.
  - apply IH. now inversion Hnd'.
  - inversion Hnd' as [|? ? Hnotin _]; subst.
    rewrite Forall_forall in *. intros z Hz.
    specialize (Hy z Hz). unfold item_leb in Hy.
    apply orb_true_iff in Hy as [Hy|Hy]; [now apply Z.ltb_lt|].
    apply andb_true_iff in Hy as [Hy _]. apply Z.eqb_eq in Hy.
    exfalso. apply Hnotin. rewrite Hy. now apply in_map.
Qed.

(** ** Rounding *)

Lemma round_half_even_near x :
  (inject_Z (round_half_even x) - x <= 1 # 2
   /\ x - inject_Z (round_half_even x) <= 1 # 2)%Q.
Proof.
  unfold round_half_even.
  pose proof (Qfloor_le x) as Hlo. pose proof (Qlt_floor x) as Hhi.
  rewrite inject_Z_plus in Hhi. change (inject_Z 1) with 1%Q in Hhi.
  set (f := Qfloor x) in *. clearbody f.
  destruct (Qcompare_spec (x - inject_Z f) (1 # 2)) as [E|L|G].
  - destruct (Z.even f); [|rewrite inject_Z_plus; change (inject_Z 1) with 1%Q]; lra.
  - lra.
  - rewrite inject_Z_plus. change (inject_Z 1) with 1%Q. lra.
Qed.

Lemma round_half_even_nonneg x : (0 <= x)%Q -> 0 <= round_half_even x.
Proof.
  intros H. unfold round_half_even.
  assert (Hf : 0 <= Qfloor x) by (change 0 with (Qfloor 0); now apply Qfloor_resp_le).
  destruct (x - inject_Z (Qfloor x) ?= 1 # 2)%Q; [destruct (Z.even _)| |]; lia.
Qed.

(** A figure printed with [:.1f] is within 0.05 of the float. *)
Lemma format_1f_near x : (Qabs (format_1f x - x) <= 1 # 20)%Q.
Proof.
  unfold format_1f. destruct (round_half_even_near (x * 10)) as [H1 H2].
  set (k := round_half_even (x * 10)) in *. clearbody k.
  rewrite (Qmake_Qdiv k 10). change (inject_Z (Zpos 10)) with 10%Q.
  apply Qabs_Qle_condition.
  assert (E : (inject_Z k / 10 == inject_Z k * (1 # 10))%Q) by (unfold Qdiv; reflexivity).
  rewrite E. split; lra.
Qed.

Lemma pow2_pos (e : Z) : (0 < 2 ^ e)%Q.
Proof. now apply Qpower_0_lt. Qed.

Lemma pow2_Z (e : Z) : 0 <= e -> (2 ^ e == inject_Z (2 ^ e))%Q.
Proof. intros H. now rewrite Zpower_Qpower. Qed.

(** [binade x] is the exponent of [x]. *)
Lemma binade_spec x : (0 < x)%Q -> (2 ^ binade x <= x /\ x < 2 ^ (binade x + 1))%Q.
Proof.
  intros Hx. unfold binade.
  destruct (Qle_bool 1 x) eqn:H1.
  - apply Qle_bool_iff in H1.
    assert (Hf : 1 <= Qfloor x) by (change 1 with (Qfloor 1); now apply Qfloor_resp_le).
    destruct (Z.log2_spec (Qfloor x) ltac:(lia)) as [Hlo Hhi].
    pose proof (Z.log2_nonneg (Qfloor x)) as Hl.
    rewrite !pow2_Z by lia. split.
    + eapply Qle_trans; [|apply Qfloor_le]. now rewrite <- Zle_Qle.
    + eapply Qlt_le_trans; [apply Qlt_floor|]. rewrite <- Zle_Qle.
      unfold Z.succ in Hhi. lia.
  - assert (Hlt : (x < 1)%Q).
    { apply Qnot_le_lt. intros H. apply Qle_bool_iff in H. congruence. }
    assert (Hinv : (1 < / x)%Q).
    { apply Qlt_shift_inv_l; [assumption|]. lra. }
    assert (Hix : (0 < / x)%Q) by lra.
    pose proof (Qle_ceiling (/ x)) as Hc.
    pose proof (Qceiling_lt (/ x)) as Hc'.
    set (c := Qceiling (/ x)) in *.
    assert (Hc1 : 1 < c).
    { rewrite Zlt_Qlt. eapply Qlt_le_trans; [exact Hinv|exact Hc]. }
    destruct (Z.log2_up_spec c Hc1) as [Hdown Hup].
    set (L := Z.log2_up c) in *.
    assert (HL : 1 <= L).
    { destruct (Z.le_gt_cases L 0) as [H0|H0]; [|lia].
      assert (2 ^ L <= 2 ^ 0) by (apply Z.pow_le_mono_r; lia).
      assert (0 <= L) by apply Z.log2_up_nonneg. simpl in *. lia. }
    assert (Exx : (x == / / x)%Q) by (now rewrite Qinv_involutive).
    split.
    + rewrite Qpower_opp, (pow2_Z L) by lia.
      assert (Hp : (0 < inject_Z (2 ^ L))%Q).
      { rewrite <- (pow2_Z L) by lia. apply pow2_pos. }
      assert (Hle : (/ x <= inject_Z (2 ^ L))%Q).
      { eapply Qle_trans; [exact Hc|]. now rewrite <- Zle_Qle. }
      apply Qle_shift_inv_r; [assumption|].
      apply (Qmult_le_l _ _ x) in Hle; [|assumption].
      rewrite Qmult_inv_r in Hle by lra. lra.
    + replace (- L + 1) with (- (L - 1)) by lia.
      rewrite Qpower_opp, (pow2_Z (L - 1)) by lia.
      assert (Hp : (0 < inject_Z (2 ^ (L - 1)))%Q).
      { rewrite <- (pow2_Z (L - 1)) by lia. apply pow2_pos. }
      assert (Hgt : (inject_Z (2 ^ (L - 1)) < / x)%Q).
      { eapply Qle_lt_trans; [|exact Hc']. rewrite <- Zle_Qle.
        unfold Z.pred in Hdown. replace (L - 1) with (L + -1) by lia. lia. }
      apply Qlt_shift_inv_l; [assumption|].
      apply (Qmult_lt_l _ _ x) in Hgt; [|assumption].
      rewrite Qmult_inv_r in Hgt by lra. lra.
Qed.

Lemma Qabs_nonneg_id x : (0 <= x)%Q -> Qabs x = x.
Proof.
  destruct x as [a b]. unfold Qle. cbn [Qnum Qden]. intros H.
  unfold Qabs. f_equal. apply Z.abs_eq. lia.
Qed.

(** A float of a number that is not negative is not negative. *)
Lemma float_nonneg x : (0 <= x)%Q -> (0 <= float x)%Q.
Proof.
  intros Hx. unfold float. destruct (Qeq_bool x 0); [apply Qle_refl|].
  cbv zeta. rewrite Qred_correct.
  set (u := Z.max _ _ - 52).
  apply Qmult_le_0_compat; [|apply Qlt_le_weak, pow2_pos].
  rewrite <- (Zle_Qle 0). apply round_half_even_nonneg.
  apply Qle_shift_div_l; [apply pow2_pos|]. lra.
Qed.

(** The rounding error of a float below [2 ^ (m + 1)] is at most half a
    unit in the last place, [2 ^ (m - 53)]. *)
Lemma float_error x m :
  (0 <= x)%Q -> (x < 2 ^ (m + 1))%Q -> -1022 <= m ->
  (Qabs (float x - x) <= 2 ^ (m - 53))%Q.
Proof.
  intros Hx Hm Hn. unfold float.
  destruct (Qeq_bool x 0) eqn:H0.
  { apply Qeq_bool_iff in H0. apply Qabs_Qle_condition.
    pose proof (pow2_pos (m - 53)). split; lra. }
  assert (Hpos : (0 < x)%Q).
  { apply Qeq_bool_neq in H0. apply Qle_lteq in Hx as [Hx|Hx]; [assumption|].
    exfalso. apply H0. now symmetry. }
  cbv zeta. rewrite Qred_correct, (Qabs_nonneg_id x Hx).
  destruct (binade_spec x Hpos) as [Hb _].
  assert (Hbm : binade x <= m).
  { assert (binade x < m + 1); [|lia].
    apply (Qpower_lt_compat_l_inv 2); [|reflexivity].
    eapply Qle_lt_trans; eauto. }
  set (u := Z.max (binade x) (-1022) - 52).
  assert (Hu : u <= m - 52) by (unfold u; lia).
  pose proof (pow2_pos u) as HP.
  assert (HP2 : (2 ^ u <= 2 * 2 ^ (m - 53))%Q).
  { eapply Qle_trans; [apply (Qpower_le_compat_l 2 u (m - 52)); [exact Hu|discriminate]|].
    replace (m - 52) with (1 + (m - 53)) by lia.
    rewrite Qpower_plus by discriminate. apply Qle_refl. }
  destruct (round_half_even_near (x / 2 ^ u)) as [R1 R2].
  set (k := inject_Z (round_half_even (x / 2 ^ u))) in *. clearbody k.
  assert (Ex : (x == x / 2 ^ u * 2 ^ u)%Q) by (field; lra).
  set (y := (x / 2 ^ u)%Q) in *. clearbody y.
  set (P := (2 ^ u)%Q) in *. clearbody P.
  set (B := (2 ^ (m - 53))%Q) in *. clearbody B.
  apply Qabs_Qle_condition. rewrite Ex. split; nra.
Qed.

(** ** The percentages of line 120 *)

Lemma share_add a b n : (share (a + b) n == share a n + share b n)%Q.
Proof.
  unfold share. rewrite Nat2Z.inj_add, inject_Z_plus. unfold Qdiv. ring.
Qed.

Lemma share_le a b n : 0 < n -> (a <= b)%nat -> (share a n <= share b n)%Q.
Proof.
  intros Hn Hab. unfold share.
  assert (Hq : (0 < inject_Z n)%Q) by (now rewrite <- (Zlt_Qlt 0)).
  assert (Hab' : (inject_Z (Z.of_nat a) <= inject_Z (Z.of_nat b))%Q)
    by (rewrite <- Zle_Qle; lia).
  apply Qmult_le_compat_r; [|discriminate].
  unfold Qdiv. apply Qmult_le_compat_r; [assumption|].
  apply Qlt_le_weak. now apply Qinv_lt_0_compat.
Qed.

(** The share of [n] out of [n] is 100, and of less it is less by at
    least [100 / n]. *)
Lemma share_below T n :
  0 < n -> Z.of_nat T < n -> (share T n <= 100 - 100 / inject_Z n)%Q.
Proof.
  intros Hn HT. unfold share.
  assert (Hq : (0 < inject_Z n)%Q) by (now rewrite <- (Zlt_Qlt 0)).
  assert (HT' : (inject_Z (Z.of_nat T) <= inject_Z n - 1)%Q).
  { unfold Qminus. change 1%Q with (inject_Z 1). rewrite <- inject_Z_opp, <- inject_Z_plus.
    rewrite <- Zle_Qle. lia. }
  set (a := inject_Z (Z.of_nat T)) in *. clearbody a.
  set (q := inject_Z n) in *. clearbody q.
  assert (E : (100 - 100 / q == (q - 1) / q * 100)%Q) by (field; lra).
  rewrite E. apply Qmult_le_compat_r; [|discriminate].
  unfold Qdiv. apply Qmult_le_compat_r; [assumption|].
  apply Qlt_le_weak. now apply Qinv_lt_0_compat.
Qed.

(** The float of line 120 is the quotient up to the error of a division
    and of a multiplication. *)
Lemma percent_near c n :
  (1 <= c)%nat -> Z.of_nat c <= n ->
  (Qabs (percent c n - share c n) <= 1 # 1000000000000)%Q.
Proof.
  intros Hc Hn. unfold percent, share.
  assert (Hq : (0 < inject_Z n)%Q) by (rewrite <- (Zlt_Qlt 0); lia).
  assert (Hc0 : (0 < inject_Z (Z.of_nat c))%Q) by (rewrite <- (Zlt_Qlt 0); lia).
  assert (Hcn : (inject_Z (Z.of_nat c) <= inject_Z n)%Q) by (now rewrite <- Zle_Qle).
  set (x := (inject_Z (Z.of_nat c) / inject_Z n)%Q).
  assert (Hx0 : (0 <= x)%Q).
  { unfold x. apply Qle_shift_div_l; [assumption|]. lra. }
  assert (Hx1 : (x <= 1)%Q).
  { unfold x. apply Qle_shift_div_r; [assumption|]. lra. }
  pose proof (float_error x 0 Hx0) as E1.
  assert (H2 : (x < 2 ^ (0 + 1))%Q) by (change (2 ^ (0 + 1))%Q with 2%Q; lra).
  specialize (E1 H2 ltac:(lia)).
  pose proof (float_nonneg x Hx0) as Hf0.
  set (q := float x) in *. clearbody q.
  assert (P53 : (2 ^ (0 - 53) == 1 # 9007199254740992)%Q) by reflexivity.
  rewrite P53 in E1. apply Qabs_Qle_condition in E1.
  assert (Hy0 : (0 <= q * 100)%Q) by lra.
  pose proof (float_error (q * 100) 6 Hy0) as E2.
  assert (H7 : (q * 100 < 2 ^ (6 + 1))%Q) by (change (2 ^ (6 + 1))%Q with 128%Q; lra).
  specialize (E2 H7 ltac:(lia)).
  assert (P47 : (2 ^ (6 - 53) == 1 # 140737488355328)%Q) by reflexivity.
  rewrite P47 in E2. apply Qabs_Qle_condition in E2.
  set (p := float (q * 100)) in *. clearbody p. clearbody x.
  apply Qabs_Qle_condition. split; lra.
Qed.

(** What is printed for a count between 1 and [num_requests]. *)
Lemma printed_percent_near c n :
  (1 <= c)%nat -> Z.of_nat c <= n ->
  (Qabs (format_1f (percent c n) - share c n) <= tolerance)%Q.
Proof.
  intros Hc Hn. pose proof (percent_near c n Hc Hn) as H1.
  pose proof (format_1f_near (percent c n)) as H2.
  apply Qabs_Qle_condition in H1. apply Qabs_Qle_condition in H2.
  unfold tolerance. apply Qabs_Qle_condition. split; lra.
Qed.

(** The printed percentages of a listing add up to the share of the
    counts listed, up to the tolerance of each line. *)
Lemma printed_percent_sum (l : list (Z * nat)) n :
  (forall it, In it l -> (1 <= snd it)%nat /\ Z.of_nat (snd it) <= n) ->
  (Qabs (Qsum (map (fun it => format_1f (percent (snd it) n)) l)
         - share (list_sum (map snd l)) n)
   <= inject_Z (Z.of_nat (length l)) * tolerance)%Q.
Proof.
  induction l as [|it l IH]; intros H.
  - cbn [map Qsum fold_right list_sum length].
    assert (E : (share 0 n == 0)%Q).
    { unfold share, Qdiv. change (inject_Z (Z.of_nat 0)) with 0%Q. ring. }
    rewrite E. change (inject_Z (Z.of_nat 0)) with 0%Q.
    apply Qabs_Qle_condition. split; lra.
  - destruct (H it (or_introl eq_refl)) as [H1 H2].
    pose proof (printed_percent_near _ _ H1 H2) as Hit.
    specialize (IH (fun it' Hin => H it' (or_intror Hin))).
    apply Qabs_Qle_condition in Hit. apply Qabs_Qle_condition in IH.
    cbn [map Qsum fold_right list_sum length].
    fold (Qsum (map (fun it0 => format_1f (percent (snd it0) n)) l)).
    fold (list_sum (map snd l)).
    rewrite share_add, Nat2Z.inj_succ, <- Z.add_1_r, inject_Z_plus.
    change (inject_Z 1) with 1%Q. unfold tolerance in *.
    apply Qabs_Qle_condition. split; lra.
Qed.

Lemma count_if_le {A} (f : A -> bool) l : (count_if f l <= length l)%nat.
Proof. apply filter_length_le. Qed.

(** ** A run whose calls do not overlap *)

Lemma finished_calls_finished http l :
  forallb is_finished (map (finished_call http) l) = true.
Proof. induction l; simpl; auto. Qed.

Lemma finished_not_in_flight l :
  forallb is_finished l = true -> count_if in_flight l = 0%nat.
Proof.
  unfold count_if. induction l as [|p l IH]; simpl; [reflexivity|].
  rewrite andb_true_iff. intros [Hp Hl]. unfold in_flight at 1. rewrite Hp.
  rewrite andb_false_r. auto.
Qed.

Lemma finished_not_queued l :
  forallb is_finished l = true -> existsb is_queued l = false.
Proof.
  induction l as [|p l IH]; simpl; [reflexivity|].
  rewrite andb_true_iff. intros [Hp Hl]. rewrite IH by assumption.
  destruct p; simpl in *; congruence.
Qed.

Lemma update_last {A} (l : list A) p q : update (length l) q (l ++ [p]) = l ++ [q].
Proof. induction l as [|x l IH]; simpl; [reflexivity|]. now rewrite IH. Qed.

Lemma nth_error_last {A} (l : list A) p : nth_error (l ++ [p]) (length l) = Some p.
Proof. induction l as [|x l IH]; simpl; auto. Qed.

(** A step of the only call that is not finished. *)
Lemma step_worker_last E t m lg done p t' p' :
  forallb is_finished done = true ->
  1 <= num_threads t ->
  worker_step (http E (length done)) (length done) t p = Some (t', p') ->
  step E (Worker (length done)) (mkWorld t m (done ++ [p]) lg)
  = Some (mkWorld t' m (done ++ [p']) lg).
Proof.
  intros Hfin Hth Hs. unfold step. simpl.
  rewrite nth_error_last.
  assert (Hcan : can_step (mkWorld t m (done ++ [p]) lg) (length done) p = true).
  { unfold can_step. destruct (is_queued p) eqn:Hq; [|reflexivity]. simpl.
    rewrite firstn_app, firstn_all, Nat.sub_diag. simpl. rewrite app_nil_r.
    rewrite finished_not_queued by assumption.
    unfold count_if. rewrite filter_app, length_app.
    fold (count_if in_flight done). rewrite finished_not_in_flight by assumption.
    destruct p; try discriminate. simpl.
    rewrite andb_true_r. apply Z.ltb_lt. lia. }
  rewrite Hcan, Hs. now rewrite update_last.
Qed.

Lemma exec_cons E c sched w w' :
  step E c w = Some w' -> exec E (c :: sched) w = exec E sched w'.
Proof. intros H. simpl. now rewrite H. Qed.

(** One more step of the call that is running, [known] rewriting with
    what is known of the attempt and of the dictionary. *)
Ltac worker_goes known :=
  erewrite exec_cons;
  [|apply step_worker_last;
    [assumption|assumption|
     cbn [worker_step status_codes append_response_time]; known; reflexivity]].

(** The worker's steps, taken together, are [send_request]. *)
Lemma call_runs E t m lg done :
  forallb is_finished done = true ->
  1 <= num_threads t ->
  let i := length done in
  exec E (repeat (Worker i) (call_steps (http E i) (status_codes t)))
       (mkWorld t m (done ++ [Queued]) lg)
  = Some (mkWorld (fst (send_request t i (http E i))) m
            (done ++ [finished_call (http E) i]) lg).
Proof.
  intros Hfin Hth i. subst i.
  unfold call_steps, send_request, send_request_try, finished_call.
  destruct (http E (length done)) as [sc rt|msg] eqn:Ha.
  - change (status_codes (append_response_time t rt)) with (status_codes t).
    destruct (Dict.mem Z.eqb sc (status_codes t)) eqn:Hm.
    + pose proof Hm as Hm'. unfold Dict.mem in Hm'.
      destruct (Dict.get Z.eqb sc (status_codes t)) as [c|] eqn:Hg; [|discriminate].
      cbn [repeat]. do 6 worker_goes ltac:(rewrite ?Ha, ?Hm, ?Hg).
      reflexivity.
    + cbn [repeat]. do 5 worker_goes ltac:(rewrite ?Ha, ?Hm).
      reflexivity.
  - cbn [repeat]. do 3 worker_goes ltac:(rewrite ?Ha).
    reflexivity.
Qed.

Lemma send_request_config t i a :
  let t' := fst (send_request t i a) in
  num_threads t' = num_threads t /\ num_requests t' = num_requests t
  /\ interval t' = interval t /\ start_time t' = start_time t
  /\ end_time t' = end_time t /\ url t' = url t.
Proof.
  unfold send_request, send_request_try. destruct a as [sc rt|msg]; simpl.
  - destruct (Dict.mem _ _ _); [destruct (Dict.get _ _ _)|]; simpl; repeat split.
  - repeat split.
Qed.

Lemma run_in_order_config http order t :
  let t' := run_in_order http order t in
  num_threads t' = num_threads t /\ num_requests t' = num_requests t
  /\ interval t' = interval t /\ start_time t' = start_time t
  /\ end_time t' = end_time t /\ url t' = url t.
Proof.
  revert t; induction order as [|i order IH]; intros t; simpl; [repeat split|].
  destruct (IH (fst (send_request t i (http i)))) as (A & B & C & D & F & G).
  destruct (send_request_config t i (http i)) as (A' & B' & C' & D' & F' & G').
  repeat split; congruence.
Qed.

Lemma sequential_loop E k :
  forall i t lg,
    (forall j, (i <= j < i + k)%nat -> Z.of_nat j < num_requests t) ->
    sleep_raises E (interval t) = None ->
    1 <= num_threads t ->
    exists lg',
      exec E (one_at_a_time (http E) (seq i k) t)
           (mkWorld t (MLoop i) (map (finished_call (http E)) (seq 0 i)) lg)
      = Some (mkWorld (run_in_order (http E) (seq i k) t) (MLoop (i + k))
                (map (finished_call (http E)) (seq 0 (i + k))) lg').
Proof.
  induction k as [|k IH]; intros i t lg Hn Hiv Hth.
  - exists lg. simpl. now rewrite Nat.add_0_r.
  - cbn [seq one_at_a_time run_in_order].
    set (done := map (finished_call (http E)) (seq 0 i)).
    assert (Hlen : length done = i) by (unfold done; now rewrite length_map, length_seq).
    assert (Hfin : forallb is_finished done = true) by apply finished_calls_finished.
    destruct (send_request_config t i (http E i)) as (A & B & C & _).
    set (t1 := fst (send_request t i (http E i))) in *.
    destruct (IH (S i) t1 (lg ++ [Submit i]
                             ++ Sleep (interval t1)
                                :: (if progress_due i (num_requests t1)
                                    then [Print (Progress (Z.of_nat i + 1) (num_requests t1))]
                                    else [])))
      as (lg' & Hrest).
    { rewrite B. intros j Hj. apply Hn. lia. }
    { now rewrite C. }
    { now rewrite A. }
    exists lg'.
    erewrite exec_cons.
    2:{ simpl. unfold main_step. cbn [main obj futures log].
        assert ((Z.of_nat i <? num_requests t) = true) as ->
          by (apply Z.ltb_lt, Hn; lia).
        reflexivity. }
    rewrite exec_app.
    pose proof (call_runs E t (MSleep i) (lg ++ [Submit i]) done Hfin Hth) as Hcall.
    cbv zeta in Hcall. rewrite Hlen in Hcall. rewrite Hcall. fold t1.
    erewrite exec_cons.
    2:{ simpl. unfold main_step. cbn [main obj futures log].
        rewrite C, Hiv. reflexivity. }
    replace (done ++ [finished_call (http E) i])
      with (map (finished_call (http E)) (seq 0 (S i)))
      by (rewrite seq_S, map_app; reflexivity).
    rewrite <- app_assoc. rewrite <- C.
    replace (i + S k)%nat with (S i + k)%nat by lia.
    exact Hrest.
Qed.

(** Whatever the client does, a run with at least one worker and an
    interval [time.sleep] accepts can reach the return of its barrier: the
    calls made one at a time leave what [send_request], called for the ids
    in order, leaves. *)
Lemma run_reaches_barrier E u threads n iv :
  1 <= threads -> sleep_raises E iv = None ->
  exists w,
    exec E (sequential_schedule E (init u threads n iv)) (boot (init u threads n iv))
    = Some w
    /\ main w = MReport
    /\ obj w = set_end_time
                 (run_in_order (http E) (seq 0 (Z.to_nat n))
                    (set_start_time (init u threads n iv) (clock_start E)))
                 (clock_end E).
Proof.
  intros Hth Hiv. unfold sequential_schedule.
  set (t0 := init u threads n iv).
  set (t1 := set_start_time t0 (clock_start E)).
  change (num_requests t0) with n.
  destruct (sequential_loop E (Z.to_nat n) 0%nat t1
              (banner t0)) as (lg & Hloop).
  { simpl. intros j Hj. lia. }
  { exact Hiv. }
  { exact Hth. }
  eexists.
  erewrite exec_cons.
  2:{ simpl. unfold main_step. cbn [main obj futures log boot].
      assert ((threads <=? 0) = false) as H by (apply Z.leb_gt; lia).
      unfold t0 at 2. cbn [num_threads init]. rewrite H. reflexivity. }
  rewrite exec_app.
  simpl in Hloop. unfold banner in Hloop. fold t1. simpl app.
  change (url t0) with u in Hloop. change (num_threads t0) with threads in Hloop.
  change (num_requests t0) with n in Hloop. change (interval t0) with iv in Hloop.
  rewrite Hloop.
  destruct (run_in_order_config (http E) (seq 0 (Z.to_nat n)) t1) as (_ & Hn & _).
  erewrite exec_cons.
  2:{ simpl. unfold main_step. cbn [main obj futures log].
      assert ((Z.of_nat (Z.to_nat n)
               <? num_requests (run_in_order (http E) (seq 0 (Z.to_nat n)) t1)) = false)
        as -> by (rewrite Hn; apply Z.ltb_ge; simpl; lia).
      reflexivity. }
  erewrite exec_cons.
  2:{ simpl. unfold main_step. cbn [main obj futures log].
      rewrite finished_calls_finished. reflexivity. }
  simpl. repeat split.
Qed.

(** ** A pool of one worker *)

Lemma count_if_flying l : count_if in_flight l = sum_over flying l.
Proof.
  unfold count_if, sum_over, flying. induction l as [|p l IH]; simpl; [reflexivity|].
  destruct (in_flight p); simpl; lia.
Qed.

Lemma worker_step_enabled E i w w' :
  step E (Worker i) w = Some w' ->
  exists p, nth_error (futures w) i = Some p /\ can_step w i p = true.
Proof.
  unfold step. destruct (nth_error (futures w) i) as [p|] eqn:Hp; [|discriminate].
  destruct (can_step w i p) eqn:Hc; [|discriminate]. eauto.
Qed.

Lemma sum_over_nth_le {A} (f : A -> nat) l i x :
  nth_error l i = Some x -> (f x <= sum_over f l)%nat.
Proof.
  unfold sum_over. revert i; induction l as [|y l IH]; intros [|i]; simpl;
    try discriminate.
  - intros [= ->]. lia.
  - intros H. specialize (IH _ H). lia.
Qed.

Lemma sum_over_two {A} (f : A -> nat) l i j x y :
  i <> j -> nth_error l i = Some x -> nth_error l j = Some y ->
  (f x + f y <= sum_over f l)%nat.
Proof.
  unfold sum_over. revert i j; induction l as [|z l IH]; intros [|i] [|j] Hne;
    simpl; try discriminate; try congruence.
  - intros [= ->] H. pose proof (sum_over_nth_le f _ _ _ H). unfold sum_over in *. lia.
  - intros H [= ->]. pose proof (sum_over_nth_le f _ _ _ H). unfold sum_over in *. lia.
  - intros Hx Hy. assert (i <> j) by congruence.
    specialize (IH _ _ H Hx Hy). lia.
Qed.

Lemma one_at_a_time_boot t :
  response_times t = [] -> status_codes t = [] -> one_at_a_time_invariant (boot t).
Proof.
  intros Hrt Hsc. constructor; simpl.
  - unfold sum_over; simpl. lia.
  - rewrite Hrt, Hsc. reflexivity.
  - intros [|i] *; discriminate.
Qed.

Lemma one_at_a_time_main_step E w w' :
  one_at_a_time_invariant w -> main_step E w = Some w' -> one_at_a_time_invariant w'.
Proof.
  intros [J1 J2 J3]. unfold main_step.
  destruct (main w); try discriminate.
  - intros [= <-]. constructor; simpl; auto.
  - destruct (Z.of_nat i <? num_requests (obj w)); intros [= <-];
      constructor; simpl; auto.
    + rewrite sum_over_app. unfold sum_over at 2; simpl. lia.
    + rewrite sum_over_app. unfold sum_over at 2; simpl. lia.
    + intros j sc rt v Hj. apply nth_error_snoc in Hj as [Hj|Hj]; [eauto|discriminate].
  - destruct (sleep_raises E (interval (obj w))); intros [= <-]; constructor; simpl; auto.
  - destruct (forallb is_finished (futures w)); [|discriminate].
    intros [= <-]. constructor; simpl; auto.
  - destruct (print_results (obj w)); intros [= <-]; constructor; simpl; auto.
Qed.

(** A step of a call keeps the invariant as long as it leaves at most one
    call in flight. *)
Lemma one_at_a_time_worker_step E t0 w w' i :
  invariant E t0 w -> one_at_a_time_invariant w ->
  step E (Worker i) w = Some w' ->
  (sum_over flying (futures w') <= 1)%nat ->
  one_at_a_time_invariant w'.
Proof.
  intros Hinv [J1 J2 J3] Hstep Hfly.
  apply worker_step_inv in Hstep as (p & p' & t' & Hi & Hs & ->).
  cbn [futures] in Hfly.
  pose proof (inv_agrees _ _ _ Hinv _ _ Hi) as Hag.
  pose proof (sum_over_update flying i p' p _ Hi) as Sf.
  pose proof (sum_over_update pending i p' p _ Hi) as Sp.
  assert (Hcases : forall j q, nth_error (update i p' (futures w)) j = Some q ->
            (j = i /\ q = p') \/ (j <> i /\ nth_error (futures w) j = Some q)).
  { intros j q Hj. destruct (Nat.eq_dec j i) as [->|Hne].
    - left. split; [reflexivity|].
      rewrite (nth_error_update_same _ _ _ _ Hi) in Hj. congruence.
    - right. split; [assumption|].
      now rewrite nth_error_update_other in Hj by congruence. }
  (* no other call is at a store while this one is in flight *)
  assert (Halone : flying p = 1%nat -> forall j sc rt v,
            j <> i -> nth_error (futures w) j = Some (AtStore sc rt v) -> False).
  { intros Hp j sc rt v Hne Hj.
    pose proof (sum_over_two flying _ _ _ _ _ Hne Hj Hi) as H2.
    change (flying (AtStore sc rt v)) with 1%nat in H2. lia. }
  assert (Hothers : flying p = 1%nat -> forall j sc rt v,
            nth_error (update i p' (futures w)) j = Some (AtStore sc rt v) ->
            j = i /\ p' = AtStore sc rt v).
  { intros Hp j sc rt v Hj.
    destruct (Hcases _ _ Hj) as [[-> <-]|[Hne Hj']]; [auto|].
    exfalso. eapply Halone; eauto. }
  destruct p; simpl in Hs; try discriminate.
  - (* Queued *)
    injection Hs as <- <-.
    cbn [flying pending in_flight is_queued is_finished negb andb] in Sf, Sp.
    constructor; simpl.
    + exact Hfly.
    + lia.
    + intros j sc rt v Hj. destruct (Hcases _ _ Hj) as [[-> [=]]|[Hne Hj']]. eauto.
  - (* InRequest *)
    assert (Hp' : flying p' = 1%nat /\ pending p' = 0%nat
                  /\ (forall sc rt v, p' <> AtStore sc rt v) /\ t' = obj w).
    { destruct (http E i); injection Hs as <- <-; repeat split; discriminate. }
    destruct Hp' as (F & P & NS & ->).
    rewrite F in Sf. rewrite P in Sp.
    cbn [flying pending in_flight is_queued is_finished negb andb] in Sf, Sp.
    constructor; simpl.
    + lia.
    + lia.
    + intros j sc rt v Hj. destruct (Hothers eq_refl _ _ _ _ Hj) as [_ H].
      exfalso. eapply NS; eauto.
  - (* AtAppend *)
    injection Hs as <- <-. cbn [flying pending in_flight is_queued is_finished negb andb] in Sf, Sp.
    constructor; simpl.
    + lia.
    + rewrite length_app; simpl. lia.
    + intros j sc rt v Hj. destruct (Hothers eq_refl _ _ _ _ Hj) as [_ [=]].
  - (* AtTest *)
    destruct (Dict.mem Z.eqb status_code (status_codes (obj w))) eqn:Hm;
      injection Hs as <- <-; cbn [flying pending in_flight is_queued is_finished negb andb] in Sf, Sp;
      constructor; simpl; try lia.
    + intros j sc rt v Hj. destruct (Hothers eq_refl _ _ _ _ Hj) as [_ [=]].
    + intros j sc rt v Hj. destruct (Hothers eq_refl _ _ _ _ Hj) as [_ [= <- <- <-]].
      unfold Dict.mem in Hm. unfold Dict.count.
      destruct (Dict.get Z.eqb status_code (status_codes (obj w))); [discriminate|].
      reflexivity.
  - (* AtLoad *)
    destruct Hag as [_ Hm]. unfold Dict.mem in Hm.
    destruct (Dict.get Z.eqb status_code (status_codes (obj w))) as [c|] eqn:Hg;
      [|discriminate].
    injection Hs as <- <-. cbn [flying pending in_flight is_queued is_finished negb andb] in Sf, Sp.
    constructor; simpl; try lia.
    intros j sc rt v Hj. destruct (Hothers eq_refl _ _ _ _ Hj) as [_ [= <- <- <-]].
    unfold Dict.count. now rewrite Hg.
  - (* AtStore *)
    injection Hs as <- <-. cbn [flying pending in_flight is_queued is_finished negb andb] in Sf, Sp.
    pose proof (J3 _ _ _ _ Hi) as Hv.
    pose proof (dict_total_set Z.eqb Z.eqb_spec status_code v (status_codes (obj w))) as Hset.
    constructor; simpl; try lia.
    intros j sc rt v' Hj. destruct (Hothers eq_refl _ _ _ _ Hj) as [_ [=]].
  - (* AtHandler *)
    injection Hs as <- <-. cbn [flying pending in_flight is_queued is_finished negb andb] in Sf, Sp.
    constructor; simpl; try lia.
    intros j sc rt v' Hj. destruct (Hothers eq_refl _ _ _ _ Hj) as [_ [=]].
Qed.

(** With at most one worker a step of a call leaves at most one call in
    flight: a queued call is taken only when none is. *)
Lemma one_worker_flying E t0 w w' i :
  num_threads t0 <= 1 ->
  invariant E t0 w -> (sum_over flying (futures w) <= 1)%nat ->
  step E (Worker i) w = Some w' ->
  (sum_over flying (futures w') <= 1)%nat.
Proof.
  intros Hth Hinv J1 Hstep.
  destruct (worker_step_enabled _ _ _ _ Hstep) as (p0 & Hi0 & Hcan).
  apply worker_step_inv in Hstep as (p & p' & t' & Hi & Hs & ->).
  rewrite Hi in Hi0. injection Hi0 as <-.
  pose proof (inv_config _ _ _ Hinv) as (_ & Hthreads & _).
  pose proof (sum_over_update flying i p' p _ Hi) as Sf.
  cbn [futures].
  assert (Hp' : (flying p' <= 1)%nat) by (unfold flying; destruct (in_flight p'); lia).
  destruct (is_queued p) eqn:Hq.
  - unfold can_step in Hcan. rewrite Hq in Hcan.
    apply andb_true_iff in Hcan as [Hcan _]. apply Z.ltb_lt in Hcan.
    rewrite count_if_flying in Hcan. lia.
  - assert (flying p = 1%nat).
    { apply worker_step_unfinished in Hs. unfold flying, in_flight.
      now rewrite Hq, Hs. }
    lia.
Qed.

Lemma one_at_a_time_exec E t0 sched w w' :
  num_threads t0 <= 1 ->
  invariant E t0 w -> one_at_a_time_invariant w ->
  exec E sched w = Some w' -> one_at_a_time_invariant w'.
Proof.
  intros Hth. revert w; induction sched as [|c sched IH]; intros w Hinv HJ; simpl.
  - now intros [= <-].
  - destruct (step E c w) as [w1|] eqn:Hs; [|discriminate].
    apply IH; [eapply invariant_step; eauto|].
    destruct c as [|i].
    + eapply one_at_a_time_main_step; eauto.
    + eapply one_at_a_time_worker_step; eauto.
      eapply one_worker_flying; eauto. apply HJ.
Qed.

(** The same along a run whose calls do not overlap, whatever the number
    of workers. *)
Lemma no_overlap_exec E t0 sched w w' :
  invariant E t0 w -> one_at_a_time_invariant w ->
  one_call_at_a_time E sched w = true ->
  exec E sched w = Some w' -> one_at_a_time_invariant w'.
Proof.
  revert w; induction sched as [|c sched IH]; intros w Hinv HJ Hone; simpl.
  - now intros [= <-].
  - cbn [one_call_at_a_time] in Hone. apply andb_true_iff in Hone as [_ Hone].
    destruct (step E c w) as [w1|] eqn:Hs; [|discriminate].
    assert (Hfly : (sum_over flying (futures w1) <= 1)%nat).
    { destruct sched; cbn [one_call_at_a_time] in Hone;
        apply andb_true_iff in Hone as [Hone _];
        apply Nat.leb_le in Hone; now rewrite count_if_flying in Hone. }
    apply IH; [eapply invariant_step; eauto| |assumption].
    destruct c as [|i].
    + eapply one_at_a_time_main_step; eauto.
    + eapply one_at_a_time_worker_step; eauto.
Qed.

(** What the invariant gives once every call is finished. *)
Lemma level_when_finished w :
  one_at_a_time_invariant w -> forallb is_finished (futures w) = true ->
  Dict.total (status_codes (obj w)) = length (response_times (obj w)).
Proof.
  intros HJ Hfin. pose proof (oat_level _ HJ) as Hl.
  assert (sum_over pending (futures w) = 0%nat) as Hz; [|lia].
  clear -Hfin. unfold sum_over. induction (futures w) as [|p l IH]; simpl in *; [reflexivity|].
  apply andb_true_iff in Hfin as [Hp Hl]. rewrite IH by assumption.
  destruct p; simpl in *; congruence.
Qed.

(** With one worker the counts and the elapsed times are level at the
    barrier, under every schedule. *)
Lemma one_worker_level E u threads n iv sched w :
  threads <= 1 ->
  exec E sched (boot (init u threads n iv)) = Some w ->
  past_barrier (main w) = true ->
  Dict.total (status_codes (obj w)) = length (response_times (obj w)).
Proof.
  intros Hth Hexec Hb.
  assert (Hr : reachable E (init u threads n iv) w) by (exists sched; exact Hexec).
  pose proof (invariant_reachable _ _ _ _ _ _ Hr) as Hinv.
  assert (HJ : one_at_a_time_invariant w).
  { eapply one_at_a_time_exec; [| apply invariant_boot | | exact Hexec].
    - exact Hth.
    - now apply one_at_a_time_boot. }
  destruct (past_barrier_dispatch _ _ (inv_dispatch _ _ _ Hinv) Hb) as [_ Hfin].
  now apply level_when_finished.
Qed.

(** When no two calls overlap the counts and the elapsed times are level
    at the barrier, whatever the number of workers. *)
Lemma no_overlap_level E u threads n iv sched w :
  exec E sched (boot (init u threads n iv)) = Some w ->
  one_call_at_a_time E sched (boot (init u threads n iv)) = true ->
  past_barrier (main w) = true ->
  Dict.total (status_codes (obj w)) = length (response_times (obj w)).
Proof.
  intros Hexec Hone Hb.
  assert (Hr : reachable E (init u threads n iv) w) by (exists sched; exact Hexec).
  pose proof (invariant_reachable _ _ _ _ _ _ Hr) as Hinv.
  assert (HJ : one_at_a_time_invariant w).
  { eapply no_overlap_exec; [apply invariant_boot| |exact Hone|exact Hexec].
    now apply one_at_a_time_boot. }
  destruct (past_barrier_dispatch _ _ (inv_dispatch _ _ _ Hinv) Hb) as [_ Hfin].
  now apply level_when_finished.
Qed.

(** Without interruption [send_request] raises the counts and the elapsed
    times by the same amount: 1 for a response, 0 for an exception. *)
Lemma send_request_raises_both t i a :
  let t' := fst (send_request t i a) in
  let gain := if is_response a then 1%nat else 0%nat in
  Dict.total (status_codes t') = (Dict.total (status_codes t) + gain)%nat
  /\ length (response_times t') = (length (response_times t) + gain)%nat.
Proof.
  unfold send_request, send_request_try.
  destruct a as [sc rt|msg]; simpl; [|lia].
  unfold Dict.mem.
  destruct (Dict.get Z.eqb sc (status_codes t)) as [c|] eqn:Hg; simpl;
    rewrite length_app; simpl;
    pose proof (dict_total_set Z.eqb Z.eqb_spec sc) as Hs.
  - specialize (Hs (c + 1)%nat (status_codes t)).
    unfold Dict.count in Hs. rewrite Hg in Hs. lia.
  - specialize (Hs 1%nat (status_codes t)).
    unfold Dict.count in Hs. rewrite Hg in Hs. lia.
Qed.

(** C6 as stated fails in its last part, for two reasons. The percentages
    are printed to one decimal: when three requests on one worker are
    answered with 404, 200 and 500, every request succeeds and the three
    lines, in ascending order of the code, each show 33.3, which add up to
    99.9 and not to 100. And a count update can be lost: in the run in
    which two calls both load the count 1 and both store 2, three requests
    out of three succeed and the only line shows 200 with the count 2 and
    66.7. Nor does a printed 100.0 mean that every request succeeded: that
    is what line 120 prints for 2000 out of 2001. *)
Lemma percentages_below_success_share :
  (exists w,
      exec env_three_codes
           (sequential_schedule env_three_codes (init "http://myapp.com/api" 1 3 0)
            ++ [Main])
           (boot (init "http://myapp.com/api" 1 3 0)) = Some w
      /\ main w = MDone
      /\ length (response_times (obj w)) = 3%nat
      /\ errors (obj w) = []
      /\ status_codes (obj w) = [(404, 1%nat); (200, 1%nat); (500, 1%nat)]
      /\ (exists pre,
            log w = pre ++ map Print [StatusCodeDistribution;
                                      StatusCode 200 1 (333 # 10);
                                      StatusCode 404 1 (333 # 10);
                                      StatusCode 500 1 (333 # 10)])
      /\ (Qsum [333 # 10; 333 # 10; 333 # 10] == 999 # 10)%Q
      /\ (share (length (response_times (obj w))) 3 == 100)%Q)
  /\ (exists w,
        exec env_all_ok schedule_lost_increment (boot (init "http://myapp.com/api" 2 3 0))
        = Some w
        /\ main w = MDone
        /\ length (response_times (obj w)) = 3%nat
        /\ errors (obj w) = []
        /\ (exists pre,
              log w = pre ++ map Print [StatusCodeDistribution;
                                        StatusCode 200 2 (667 # 10)])
        /\ (share (length (response_times (obj w))) 3 == 100)%Q)
  /\ status_code_lines [(200, 2000%nat)] 2001 = [StatusCode 200 2000 (1000 # 10)].
Proof.
  split; [|split].
  - eexists. split; [vm_compute; reflexivity|].
    repeat split.
    cbn [log]. match goal with |- exists pre, ?l = _ => exists (firstn 23 l) end.
    reflexivity.
  - eexists. split; [vm_compute; reflexivity|].
    repeat split.
    cbn [log]. match goal with |- exists pre, ?l = _ => exists (firstn 23 l) end.
    reflexivity.
  - vm_compute. reflexivity.
Qed.

(** C6, as the code has it. In a run that returned with at least one
    success the status-code distribution follows its heading and is the
    last block before the errors: one line for each status code some
    request was answered with, in strictly ascending order of the code,
    with the count stored for it and, to one decimal, the percentage
    [count / num_requests * 100] of the configured total: the figure
    printed is a number of tenths within [tolerance] of that quotient. So
    the printed percentages add up to the sum of the stored counts as a
    percentage of [num_requests], up to the tolerance of each line. The sum
    of the stored counts is at most the number of successes, and is equal
    to it in every run with at most one worker. When [num_requests] times
    the number of lines is below 2000, the printed percentages add up to
    100 only if no request failed and no update of a count was lost. *)
Theorem status_code_distribution
    (E : env) (u : string) (threads n : Z) (iv : Q) (sched : list choice) (w : world) :
  exec E sched (boot (init u threads n iv)) = Some w ->
  main w = MDone ->
  response_times (obj w) <> [] ->
  let N := Z.to_nat n in
  let d := status_codes (obj w) in
  let listing := sorted item_leb d in
  let printed := map (fun it => format_1f (percent (snd it) n)) listing in
  (exists pre,
      log w = pre ++ Print StatusCodeDistribution
                  :: map (fun it => Print (StatusCode (fst it) (snd it)
                                             (format_1f (percent (snd it) n))))
                         listing
                  ++ map Print (error_lines (errors (obj w))))
  /\ StronglySorted (fun a b => fst a < fst b) listing
  /\ (forall k, In k (map fst listing) <-> (1 <= responses_with (http E) k N)%nat)
  /\ (forall k c, In (k, c) listing ->
        c = Dict.count Z.eqb k d
        /\ (1 <= c <= responses_with (http E) k N)%nat
        /\ (exists tenths, format_1f (percent c n) = tenths # 10)
        /\ (Qabs (format_1f (percent c n) - share c n) <= tolerance)%Q)
  /\ (Qabs (Qsum printed - share (Dict.total d) n)
      <= inject_Z (Z.of_nat (length listing)) * tolerance)%Q
  /\ (Dict.total d <= length (response_times (obj w)))%nat
  /\ (share (Dict.total d) n <= share (length (response_times (obj w))) n)%Q
  /\ (threads <= 1 -> Dict.total d = length (response_times (obj w)))
  /\ (n * Z.of_nat (length listing) < 2000 ->
      (Qsum printed == 100)%Q ->
      failures (http E) N = 0%nat
      /\ Dict.total d = length (response_times (obj w))).
Proof.
  intros Hexec Hm Hne N d listing printed.
  assert (Hr : reachable E (init u threads n iv) w) by (exists sched; exact Hexec).
  assert (Hb : past_barrier (main w) = true) by now rewrite Hm.
  destruct (barrier_state _ _ _ _ _ _ Hr Hb) as (_ & Ht & He & Hk1 & Hk0).
  fold N in Ht, He, Hk1, Hk0.
  pose proof (invariant_reachable _ _ _ _ _ _ Hr) as Hinv.
  pose proof (inv_keys _ _ _ Hinv) as Hnd. fold d in Hnd, Hk1, Hk0.
  pose proof (total_le_times _ _ _ Hinv) as Hle. fold d in Hle.
  pose proof (responses_failures (http E) N) as Hrf.
  assert (Hpos : 0 < n).
  { destruct (response_times (obj w)); [contradiction|]. simpl in Ht.
    unfold responses, count_if in Ht. subst N.
    destruct (Z.to_nat n) eqn:Hz; [discriminate|lia]. }
  assert (Hget : forall k c, In (k, c) listing <-> Dict.get Z.eqb k d = Some c).
  { intros k c. unfold listing. rewrite sorted_In. split.
    - now apply (dict_In_get Z.eqb Z.eqb_spec).
    - apply (dict_get_In Z.eqb Z.eqb_spec). }
  assert (Hcount : forall k c, In (k, c) listing ->
            c = Dict.count Z.eqb k d /\ (1 <= c <= responses_with (http E) k N)%nat).
  { intros k c Hin. apply Hget in Hin.
    assert (Hc : c = Dict.count Z.eqb k d) by (unfold Dict.count; now rewrite Hin).
    split; [assumption|].
    destruct (responses_with (http E) k N) eqn:Hz.
    - rewrite (Hk0 k Hz) in Hin. discriminate.
    - rewrite Hc. rewrite <- Hz. apply Hk1. lia. }
  assert (Hrange : forall it, In it listing ->
            (1 <= snd it)%nat /\ Z.of_nat (snd it) <= n).
  { intros [k c] Hin. destruct (Hcount k c Hin) as (_ & H1 & H2). simpl.
    split; [assumption|].
    pose proof (count_if_le (fun i => match http E i with
                                      | Got sc _ => sc =? k
                                      | Raises _ => false
                                      end) (seq 0 N)) as Hn.
    fold (responses_with (http E) k N) in Hn. rewrite length_seq in Hn.
    subst N. lia. }
  assert (Htotal : list_sum (map snd listing) = Dict.total d).
  { unfold listing, Dict.total.
    apply Permutation_list_sum, Permutation_map, sorted_perm. }
  assert (Hsum : (Qabs (Qsum printed - share (Dict.total d) n)
                  <= inject_Z (Z.of_nat (length listing)) * tolerance)%Q).
  { rewrite <- Htotal. now apply printed_percent_sum. }
  split; [|split; [|split; [|split; [|split; [|split; [|split; [|split]]]]]]]; auto.
  - destruct (returned_log _ _ _ _ _ _ Hr Hm) as (out & Hp & Hl & Hn & _).
    apply print_results_returned in Hp as [[Hnil _]|Hp]; [contradiction|].
    destruct Hp as (x & xs & s & e & _ & _ & _ & _ & _ & ->).
    exists (banner (init u threads n iv) ++ dispatch_trace iv n N ++ [Print Rule]
            ++ map Print (summary_lines (obj w) (e - s) ++ statistics_lines x xs)).
    rewrite Hl, Hn. unfold status_code_lines. fold d listing N.
    rewrite !map_app, map_map. simpl. now rewrite <- !app_assoc.
  - now apply sorted_items_ascending.
  - intros k. split.
    + intros Hin. apply in_map_iff in Hin as ([k' c] & E' & Hin). simpl in E'. subst k'.
      apply Hget in Hin.
      destruct (responses_with (http E) k N) eqn:Hz; [|lia].
      rewrite (Hk0 k Hz) in Hin. discriminate.
    + intros Hk. destruct (Hk1 k Hk) as [H1 _]. unfold Dict.count in H1.
      destruct (Dict.get Z.eqb k d) as [c|] eqn:Hg; [|lia].
      apply Hget in Hg. change k with (fst (k, c)). now apply in_map.
  - intros k c Hin. destruct (Hcount k c Hin) as [Hc Hb'].
    destruct (Hrange (k, c) Hin) as [H1 H2]. simpl in H1, H2.
    split; [assumption|]. split; [assumption|]. split.
    + unfold format_1f. eauto.
    + now apply printed_percent_near.
  - now apply share_le.
  - intros Hth. unfold d. eapply one_worker_level; eauto.
  - intros Hsmall H100.
    assert (Hall : Z.of_nat (Dict.total d) = n).
    { destruct (Z.lt_ge_cases (Z.of_nat (Dict.total d)) n) as [Hlt|Hge]; [|lia].
      exfalso.
      pose proof (share_below _ _ Hpos Hlt) as Hbelow.
      apply Qabs_Qle_condition in Hsum. rewrite H100 in Hsum.
      assert (Hq : (0 < inject_Z n)%Q) by (now rewrite <- (Zlt_Qlt 0)).
      assert (Hk : (inject_Z n * inject_Z (Z.of_nat (length listing)) <= 1999)%Q).
      { rewrite <- inject_Z_mult. change 1999%Q with (inject_Z 1999).
        rewrite <- Zle_Qle. lia. }
      assert (Hl0 : (0 <= inject_Z (Z.of_nat (length listing)))%Q)
        by (rewrite <- (Zle_Qle 0); lia).
      set (L := inject_Z (Z.of_nat (length listing))) in *. clearbody L.
      set (S := share (Dict.total d) n) in *. clearbody S.
      assert (Hdiv : (100 / inject_Z n <= L * tolerance)%Q) by lra.
      apply (Qmult_le_l _ _ (inject_Z n)) in Hdiv; [|assumption].
      assert (E100 : (inject_Z n * (100 / inject_Z n) == 100)%Q) by (field; lra).
      rewrite E100 in Hdiv. unfold tolerance in Hdiv.
      set (q := inject_Z n) in *. clearbody q. nra. }
    lia.
Qed.

Lemma status_code_distribution_witness :
  exists w,
    exec env_mixed
         (sequential_schedule env_mixed (init "http://myapp.com/api" 1 4 0) ++ [Main])
         (boot (init "http://myapp.com/api" 1 4 0)) = Some w
    /\ status_codes (obj w) = [(404, 2%nat); (200, 1%nat)]
    /\ (exists pre,
          log w = pre ++ map Print [StatusCodeDistribution;
                                    StatusCode 200 1 (250 # 10);
                                    StatusCode 404 2 (500 # 10);
                                    ErrorTypes 1; ErrorType "timed out" 1])
    /\ (Qabs (Qsum [250 # 10; 500 # 10] - share 3 4) <= 2 * tolerance)%Q.
Proof.
  eexists. split; [vm_compute; reflexivity|].
  destruct (status_code_distribution env_mixed "http://myapp.com/api" 1 4 0
              (sequential_schedule env_mixed (init "http://myapp.com/api" 1 4 0)
               ++ [Main]) _
              ltac:(vm_compute; reflexivity) eq_refl ltac:(simpl; discriminate))
    as (Hlog & _ & _ & _ & Hsum & _).
  split; [reflexivity|]. split; [exact Hlog|exact Hsum].
Defined.

(** C10, as the code has it. A call of [send_request] that no other call
    interrupts raises the sum of the status-code counts and the number of
    elapsed times by the same amount, 1 for a response and 0 for an
    exception; so the two are equal after the call exactly when they were
    equal before it. They are equal after any number of calls made one
    after the other on a new object, after the barrier of every run with a
    single worker, and after the barrier of every run in which no two
    calls overlap, whatever the number of workers. When calls overlap, the
    sum is, at every moment and so after the barrier, at most the number
    of elapsed times. *)
Theorem counts_against_times :
  (forall t i a,
      let t' := fst (send_request t i a) in
      let gain := if is_response a then 1%nat else 0%nat in
      Dict.total (status_codes t') = (Dict.total (status_codes t) + gain)%nat
      /\ length (response_times t') = (length (response_times t) + gain)%nat
      /\ (Dict.total (status_codes t') = length (response_times t')
          <-> Dict.total (status_codes t) = length (response_times t)))
  /\ (forall http order u threads n iv,
        Dict.total (status_codes (run_in_order http order (init u threads n iv)))
        = length (response_times (run_in_order http order (init u threads n iv))))
  /\ (forall E u threads n iv sched w,
        threads <= 1 ->
        exec E sched (boot (init u threads n iv)) = Some w ->
        past_barrier (main w) = true ->
        Dict.total (status_codes (obj w)) = length (response_times (obj w)))
  /\ (forall E u threads n iv sched w,
        exec E sched (boot (init u threads n iv)) = Some w ->
        one_call_at_a_time E sched (boot (init u threads n iv)) = true ->
        past_barrier (main w) = true ->
        Dict.total (status_codes (obj w)) = length (response_times (obj w)))
  /\ (forall E u threads n iv sched w,
        exec E sched (boot (init u threads n iv)) = Some w ->
        (Dict.total (status_codes (obj w)) <= length (response_times (obj w)))%nat).
Proof.
  split; [|split; [|split; [|split]]].
  - intros t i a. destruct (send_request_raises_both t i a) as [H1 H2].
    cbv zeta in *. split; [assumption|]. split; [assumption|]. lia.
  - intros. now apply run_in_order_level.
  - intros. eapply one_worker_level; eauto.
  - intros. eapply no_overlap_level; eauto.
  - intros E u threads n iv sched w Hexec.
    eapply total_le_times. eapply invariant_reachable. exists sched. exact Hexec.
Qed.

Lemma counts_against_times_witness :
  (exists w,
      exec env_all_ok schedule_lost_insert (boot (init "http://myapp.com/api" 2 2 0))
      = Some w
      /\ obj w = after_lost_insert)
  /\ Dict.total (status_codes (fst (send_request after_lost_insert 2 (Got 200 (1 # 5)))))
     = 2%nat
  /\ length (response_times (fst (send_request after_lost_insert 2 (Got 200 (1 # 5)))))
     = 3%nat
  /\ (exists w,
        exec env_two_errors schedule_two_errors (boot (init "http://myapp.com/api" 1 3 0))
        = Some w
        /\ Dict.total (status_codes (obj w)) = length (response_times (obj w)))
  /\ (exists w,
        exec env_all_ok (sequential_schedule env_all_ok (init "http://myapp.com/api" 2 3 0))
             (boot (init "http://myapp.com/api" 2 3 0)) = Some w
        /\ length (response_times (obj w)) = 3%nat
        /\ Dict.total (status_codes (obj w)) = length (response_times (obj w)))
  /\ exists w,
       exec env_all_ok schedule_lost_increment (boot (init "http://myapp.com/api" 2 3 0))
       = Some w
       /\ (Dict.total (status_codes (obj w)) <= length (response_times (obj w)))%nat.
Proof.
  destruct counts_against_times as (H1 & _ & H3 & H4 & H5).
  destruct (H1 after_lost_insert 2%nat (Got 200 (1 # 5))) as (Hc & Hl & _).
  split; [eexists; split; vm_compute; reflexivity|].
  split; [exact Hc|]. split; [exact Hl|].
  split; [|split].
  - eexists. split; [vm_compute; reflexivity|].
    apply (H3 env_two_errors "http://myapp.com/api"%string 1 3 0%Q schedule_two_errors);
      [lia|vm_compute; reflexivity|reflexivity].
  - eexists. split; [vm_compute; reflexivity|]. split; [reflexivity|].
    apply (H4 env_all_ok "http://myapp.com/api"%string 2 3 0%Q
              (sequential_schedule env_all_ok (init "http://myapp.com/api" 2 3 0)));
      [vm_compute; reflexivity|vm_compute; reflexivity|reflexivity].
  - eexists. split; [vm_compute; reflexivity|].
    apply (H5 env_all_ok "http://myapp.com/api"%string 2 3 0%Q schedule_lost_increment).
    vm_compute; reflexivity.
Defined.

(** C3. For every attempt [send_request] returns, and no exception leaves
    it: its result says [success] exactly when the client returned a
    response, whatever the status code, 4xx and 5xx included. A response
    appends its elapsed time and raises the count of its status code by
    one, leaving the errors alone; an exception of the client is caught,
    its text is appended to the errors and nothing else changes. In a run,
    under every interleaving, a call that has finished has returned the
    result that belongs to what the client did for it. *)
Theorem send_request_classifies :
  (forall t request_id a,
      exists t' r,
        send_request t request_id a = (t', Return r)
        /\ (success r = true <-> exists sc rt, a = Got sc rt)
        /\ match a with
           | Got sc rt =>
               r = Success request_id sc rt
               /\ response_times t' = response_times t ++ [rt]
               /\ Dict.get Z.eqb sc (status_codes t')
                  = Some (S (Dict.count Z.eqb sc (status_codes t)))
               /\ (forall k, k <> sc ->
                     Dict.get Z.eqb k (status_codes t')
                     = Dict.get Z.eqb k (status_codes t))
               /\ errors t' = errors t
           | Raises msg =>
               r = Failure request_id msg
               /\ errors t' = errors t ++ [msg]
               /\ response_times t' = response_times t
               /\ status_codes t' = status_codes t
           end)
  /\ (forall E u threads n iv sched w i p,
        exec E sched (boot (init u threads n iv)) = Some w ->
        nth_error (futures w) i = Some p ->
        is_finished p = true ->
        p = Finished (Return (expected i (http E i)))).
Proof.
  split; [exact send_request_outcome|].
  intros E u threads n iv sched w i p Hexec Hi Hp.
  assert (Hr : reachable E (init u threads n iv) w) by (exists sched; exact Hexec).
  pose proof (inv_agrees _ _ _ (invariant_reachable _ _ _ _ _ _ Hr) _ _ Hi) as Hag.
  destruct p; try discriminate. simpl in Hag. now subst.
Qed.

Lemma send_request_classifies_witness :
  send_request after_one_timeout 2 (Got 503 (1 # 4))
  = (mkLoadTester "http://myapp.com/api" 2 2 0
       [1 # 10; 1 # 4] [(200, 1%nat); (503, 1%nat)] ["timed out"%string]
       (Some 0%Q) (Some 1%Q),
     Return (Success 2 503 (1 # 4)))
  /\ exists w,
       exec env_one_timeout schedule_one_timeout (boot (init "http://myapp.com/api" 2 2 0))
       = Some w
       /\ nth_error (futures w) 1 = Some (Finished (Return (Failure 1 "timed out"))).
Proof.
  destruct send_request_classifies as [H1 H2].
  split.
  - destruct (H1 after_one_timeout 2%nat (Got 503 (1 # 4))) as (t' & r & Heq & _).
    reflexivity.
  - eexists. split; [vm_compute; reflexivity|].
    cbn [futures nth_error].
    rewrite (H2 env_one_timeout "http://myapp.com/api"%string 2 2 0%Q
               schedule_one_timeout _ 1%nat (Finished (Return (Failure 1 "timed out")))
               ltac:(vm_compute; reflexivity) eq_refl eq_refl).
    reflexivity.
Defined.

(** * Further properties of the code *)

(** ** [main] *)

Lemma lower_ascii_y c : lower_ascii c = "y"%char <-> c = "y"%char \/ c = "Y"%char.
Proof.
  split.
  - destruct c as [[] [] [] [] [] [] [] []]; vm_compute; intros H;
      try discriminate H; auto.
  - intros [->| ->]; reflexivity.
Qed.

Lemma lower_is_y s : lower s = "y"%string <-> s = "y"%string \/ s = "Y"%string.
Proof.
  split.
  - destruct s as [|c [|c' s']]; simpl; try discriminate.
    intros [= H]. apply lower_ascii_y in H as [->| ->]; auto.
  - intros [->| ->]; reflexivity.
Qed.

(** X1. [main] asks for confirmation exactly when more than 50 threads are
    requested, and then goes on to the run exactly when the answer is "y"
    or "Y": every other answer, the empty one included, prints the abort
    message and returns without a tester, so without a request. With at
    most 50 threads nothing is printed or read before the run. A run, when
    there is one, starts on a new tester with the parsed values. *)
Theorem main_confirms_high_thread_counts (args : Args) (stdin : option string) :
  let tester := init (args_url args) (args_threads args) (args_requests args)
                     (args_interval args) in
  (args_threads args <= 50 -> main_cli args stdin = ([], Runs tester))
  /\ (50 < args_threads args ->
      forall response, stdin = Some response ->
        ((response = "y"%string \/ response = "Y"%string) ->
         main_cli args stdin = ([HighThreadsWarning; ContinuePrompt], Runs tester))
        /\ (response <> "y"%string -> response <> "Y"%string ->
            main_cli args stdin
            = ([HighThreadsWarning; ContinuePrompt; LoadTestAborted], Aborts)))
  /\ (forall t, snd (main_cli args stdin) = Runs t ->
        t = tester
        /\ (args_threads args <= 50
            \/ stdin = Some "y"%string \/ stdin = Some "Y"%string)).
Proof.
  intros tester. unfold main_cli. fold tester.
  split; [|split].
  - intros H. apply Z.ltb_ge in H. now rewrite H.
  - intros H response ->. apply Z.ltb_lt in H. rewrite H. split.
    + intros Hy. apply lower_is_y in Hy. rewrite Hy. reflexivity.
    + intros H1 H2. destruct (String.eqb_spec (lower response) "y") as [E|E].
      * apply lower_is_y in E. tauto.
      * reflexivity.
  - intros t. destruct (50 <? args_threads args) eqn:H.
    + destruct stdin as [response|]; [|discriminate].
      destruct (String.eqb_spec (lower response) "y") as [E|E]; [|discriminate].
      simpl. intros [= <-]. split; [reflexivity|].
      apply lower_is_y in E as [->| ->]; auto.
    + simpl. intros [= <-]. apply Z.ltb_ge in H. auto.
Qed.

Lemma main_confirms_high_thread_counts_witness :
  main_cli (mkArgs "http://myapp.com/api" 51 1000 (1 # 10)) (Some "yes"%string)
  = ([HighThreadsWarning; ContinuePrompt; LoadTestAborted], Aborts)
  /\ main_cli (default_args "http://myapp.com/api") None
     = ([], Runs (init "http://myapp.com/api" 5 100 (1 # 10))).
Proof.
  destruct (main_confirms_high_thread_counts
              (mkArgs "http://myapp.com/api" 51 1000 (1 # 10)) (Some "yes"%string))
    as (_ & H & _).
  destruct (main_confirms_high_thread_counts (default_args "http://myapp.com/api") None)
    as (H0 & _).
  split.
  - apply (H ltac:(simpl; lia) "yes"%string eq_refl); discriminate.
  - apply H0. simpl. lia.
Defined.

(** ** The report of a run *)

(** After the barrier something has been recorded only if something was
    requested. *)
Lemma success_needs_requests E u threads n iv w :
  reachable E (init u threads n iv) w ->
  past_barrier (main w) = true ->
  response_times (obj w) <> [] -> 1 <= n.
Proof.
  intros Hr Hb Hne.
  destruct (barrier_state _ _ _ _ _ _ Hr Hb) as (_ & Ht & _).
  destruct (response_times (obj w)); [contradiction|].
  simpl in Ht. unfold responses, count_if in Ht.
  destruct (Z.to_nat n) eqn:Hn; [discriminate|lia].
Qed.

(** X2. Once the barrier of a run has returned, [print_results] cannot
    raise a [TypeError], both timestamps being set, nor divide by a zero
    [num_requests], a success implying a request. It raises, a
    [ZeroDivisionError] before anything is printed, exactly when at least
    one elapsed time is recorded and the two readings of the clock are
    equal; otherwise it returns. *)
Theorem report_raises_only_on_zero_duration
    (E : env) (u : string) (threads n : Z) (iv : Q) (sched : list choice) (w : world) :
  exec E sched (boot (init u threads n iv)) = Some w ->
  past_barrier (main w) = true ->
  (response_times (obj w) <> [] /\ (clock_end E - clock_start E == 0)%Q ->
   print_results (obj w) = Raised [] ZeroDivisionError)
  /\ (~ (response_times (obj w) <> [] /\ (clock_end E - clock_start E == 0)%Q) ->
      exists out, print_results (obj w) = Returned out)
  /\ (forall out e, print_results (obj w) = Raised out e ->
        e = ZeroDivisionError /\ out = []).
Proof.
  intros Hexec Hb.
  assert (Hr : reachable E (init u threads n iv) w) by (exists sched; exact Hexec).
  pose proof (clock_ok_reachable _ _ _ Hr) as [Hs He].
  assert (Hm : main w <> MStart) by (intros H; rewrite H in Hb; discriminate).
  specialize (Hs Hm). specialize (He Hb).
  pose proof (invariant_reachable _ _ _ _ _ _ Hr) as Hinv.
  pose proof (inv_config _ _ _ Hinv) as (_ & _ & Hn & _). simpl in Hn.
  assert (Hcase : forall x xs, response_times (obj w) = x :: xs ->
            print_results (obj w)
            = if Qeq_bool (clock_end E - clock_start E) 0
              then Raised [] ZeroDivisionError
              else Returned (summary_lines (obj w) (clock_end E - clock_start E)
                             ++ statistics_lines x xs ++ [StatusCodeDistribution]
                             ++ status_code_lines (status_codes (obj w)) n
                             ++ error_lines (errors (obj w)))).
  { intros x xs Hrt. unfold print_results. rewrite Hrt, Hs, He.
    destruct (Qeq_bool (clock_end E - clock_start E) 0); [reflexivity|].
    assert (Hpos : 1 <= n).
    { eapply success_needs_requests; eauto. rewrite Hrt. discriminate. }
    rewrite Hn. destruct (status_codes (obj w)) eqn:Hsc.
    - now rewrite <- !app_assoc.
    - assert ((n =? 0) = false) as -> by (apply Z.eqb_neq; lia).
      now rewrite <- !app_assoc. }
  split; [|split].
  - intros [Hne Hz]. destruct (response_times (obj w)) as [|x xs] eqn:Hrt;
      [contradiction|].
    rewrite (Hcase x xs eq_refl). apply Qeq_bool_iff in Hz. now rewrite Hz.
  - intros Hnot. destruct (response_times (obj w)) as [|x xs] eqn:Hrt.
    + exists [NoSuccessfulRequests]. unfold print_results. now rewrite Hrt.
    + rewrite (Hcase x xs eq_refl).
      destruct (Qeq_bool (clock_end E - clock_start E) 0) eqn:Hq; [|eauto].
      exfalso. apply Hnot. split; [discriminate|]. now apply Qeq_bool_iff.
  - intros out e. destruct (response_times (obj w)) as [|x xs] eqn:Hrt.
    + unfold print_results. rewrite Hrt. discriminate.
    + rewrite (Hcase x xs eq_refl).
      destruct (Qeq_bool (clock_end E - clock_start E) 0); [|discriminate].
      intros [= <- <-]. auto.
Qed.

Lemma report_raises_only_on_zero_duration_witness :
  exists w,
    exec env_frozen_clock schedule_one_call (boot (init "http://myapp.com/api" 5 1 0))
    = Some w
    /\ main w = MRaised ZeroDivisionError
    /\ print_results (obj w) = Raised [] ZeroDivisionError.
Proof.
  eexists. split; [vm_compute; reflexivity|]. split; [reflexivity|].
  apply (report_raises_only_on_zero_duration env_frozen_clock
           "http://myapp.com/api" 5 1 0 schedule_one_call);
    [vm_compute; reflexivity|reflexivity|].
  split; [simpl; discriminate|reflexivity].
Defined.

Lemma error_counts_total errs acc :
  Dict.total (error_counts errs acc) = (Dict.total acc + length errs)%nat.
Proof.
  revert acc; induction errs as [|e rest IH]; intros acc; simpl; [lia|].
  rewrite IH.
  destruct (Dict.get String.eqb e acc) as [c|] eqn:Hg.
  - pose proof (dict_total_set String.eqb String.eqb_spec e (c + 1)%nat acc) as H.
    unfold Dict.count in H. rewrite Hg in H. lia.
  - pose proof (dict_total_set String.eqb String.eqb_spec e 1%nat acc) as H.
    unfold Dict.count in H. rewrite Hg in H. lia.
Qed.

(** The lines before the error block are none of its lines, and the
    "Failed Requests" figure is printed in the summary only. *)
Lemma error_lines_last t d x xs l :
  In l (summary_lines t d ++ statistics_lines x xs ++ [StatusCodeDistribution]
        ++ status_code_lines (status_codes t) (num_requests t)) ->
  (forall N, l <> ErrorTypes N) /\ (forall m c, l <> ErrorType m c)
  /\ (forall f, l = FailedRequests f -> f = length (errors t)).
Proof.
  rewrite !in_app_iff. intros [H|[H|[H|H]]].
  - simpl in H.
    repeat (destruct H as [<-|H]; [repeat split; intros; congruence|]).
    contradiction.
  - unfold statistics_lines in H. apply in_app_iff in H as [H|H].
    + simpl in H.
      repeat (destruct H as [<-|H]; [repeat split; intros; congruence|]).
      contradiction.
    + destruct (1 <? length (x :: xs))%nat; simpl in H; [|contradiction].
      destruct H as [<-|[]]. repeat split; intros; congruence.
  - simpl in H. destruct H as [<-|[]]. repeat split; intros; congruence.
  - unfold status_code_lines in H. apply in_map_iff in H as (it & <- & _).
    repeat split; intros; congruence.
Qed.

(** X3. In a report with at least one success the block "Error Types (N
    total)" is printed, after everything else, exactly when an error was
    recorded; N is the number of recorded errors, which is also the
    "Failed Requests" figure of the summary; the counts listed under it
    add up to N, each of them is at least 1, and there are at most N
    entries. A report without a success is the one line of lines 95-97:
    neither the block nor the "Failed Requests" figure is printed,
    whatever errors were recorded. *)
Theorem error_counts_add_up (t : LoadTester) (out : list line) :
  print_results t = Returned out ->
  let errs := errors t in
  (forall N, In (ErrorTypes N) out
             <-> response_times t <> [] /\ errs <> [] /\ N = length errs)
  /\ (forall m c, In (ErrorType m c) out
                  <-> response_times t <> [] /\ In (m, c) (error_listing errs))
  /\ (forall f, In (FailedRequests f) out
                <-> response_times t <> [] /\ f = length errs)
  /\ (response_times t <> [] -> exists pre, out = pre ++ error_lines errs)
  /\ (response_times t = [] -> out = [NoSuccessfulRequests])
  /\ list_sum (map snd (error_listing errs)) = length errs
  /\ (forall m c, In (m, c) (error_listing errs) -> (1 <= c <= length errs)%nat)
  /\ (length (error_listing errs) <= length errs)%nat.
Proof.
  intros Hp errs.
  assert (Hsum : list_sum (map snd (error_listing errs)) = length errs).
  { unfold error_listing.
    rewrite (Permutation_list_sum
               (Permutation_map snd (sorted_perm count_geb (error_counts errs [])))).
    change (Dict.total (error_counts errs []) = length errs).
    rewrite error_counts_total. reflexivity. }
  destruct (error_listing_spec errs) as (Hnd & Hin & _).
  assert (Hpos : forall m c, In (m, c) (error_listing errs) -> (1 <= c)%nat).
  { intros m c H. apply Hin in H as [Hm ->].
    apply (count_occ_In String.string_dec) in Hm. lia. }
  assert (Hblock : forall l, In l (error_lines errs) <->
            (errs <> [] /\ l = ErrorTypes (length errs))
            \/ (exists m c, l = ErrorType m c /\ In (m, c) (error_listing errs))).
  { intros l. unfold error_lines, error_listing.
    destruct errs as [|e0 errs'] eqn:He.
    - simpl. split; [contradiction|].
      intros [[H _]|(m & c & _ & H)]; [congruence|contradiction].
    - split.
      + intros [<-|H]; [left; split; [discriminate|reflexivity]|].
        apply in_map_iff in H as ([m c] & <- & H'). right. eauto.
      + intros [[_ ->]|(m & c & -> & H)]; [now left|].
        right. apply in_map_iff. exists (m, c). auto. }
  apply print_results_returned in Hp as [[Hnil ->]|Hp].
  - assert (Hno : forall l, l <> NoSuccessfulRequests ->
              (In l [NoSuccessfulRequests] <-> response_times t <> [] /\ False)).
    { intros l Hl. split; [intros [H|[]]; congruence|intros [_ []]]. }
    split; [|split; [|split; [|split; [|split; [|split; [|split]]]]]].
    + intros N. rewrite Hno by discriminate. tauto.
    + intros m c. rewrite Hno by discriminate. tauto.
    + intros f. rewrite Hno by discriminate. tauto.
    + intros H. contradiction.
    + reflexivity.
    + assumption.
    + intros m c H. split; [eauto|]. rewrite <- Hsum.
      apply In_nth_error in H as (i & Hi). apply (sum_over_nth_le snd _ _ _ Hi).
    + rewrite <- Hsum. clear Hsum Hnd Hin Hblock.
      induction (error_listing errs) as [|[m c] l IH]; simpl; [lia|].
      assert (1 <= c)%nat by (apply (Hpos m); now left).
      assert (length l <= list_sum (map snd l))%nat
        by (apply IH; intros; eapply Hpos; right; eauto).
      lia.
  - destruct Hp as (x & xs & s & e & Hrt & _ & _ & _ & _ & ->).
    assert (Hne : response_times t <> []) by (rewrite Hrt; discriminate).
    set (before := summary_lines t (e - s) ++ statistics_lines x xs
                   ++ [StatusCodeDistribution]
                   ++ status_code_lines (status_codes t) (num_requests t)).
    assert (Hout : summary_lines t (e - s) ++ statistics_lines x xs
                   ++ [StatusCodeDistribution]
                   ++ status_code_lines (status_codes t) (num_requests t)
                   ++ error_lines (errors t)
                   = before ++ error_lines errs).
    { unfold before, errs. now rewrite <- !app_assoc. }
    rewrite Hout.
    assert (Hbefore : forall l, In l before ->
              (forall N, l <> ErrorTypes N) /\ (forall m c, l <> ErrorType m c)
              /\ (forall f, l = FailedRequests f -> f = length (errors t)))
      by (intros l; apply error_lines_last).
    split; [|split; [|split; [|split; [|split; [|split; [|split]]]]]].
    + intros N. rewrite in_app_iff, Hblock. split.
      * intros [H|[[H1 [= ->]]|(m & c & [=] & _)]]; [|auto].
        destruct (Hbefore _ H) as (H1 & _). now destruct (H1 N).
      * intros (_ & H1 & ->). right. left. auto.
    + intros m c. rewrite in_app_iff, Hblock. split.
      * intros [H|[[_ [=]]|(m' & c' & [= -> ->] & H)]]; [|auto].
        destruct (Hbefore _ H) as (_ & H1 & _). now destruct (H1 m c).
      * intros (_ & H). right. right. eauto.
    + intros f. rewrite in_app_iff, Hblock. split.
      * intros [H|[[_ [=]]|(m' & c' & [=] & _)]].
        destruct (Hbefore _ H) as (_ & _ & H1). split; [assumption|]. now apply H1.
      * intros (_ & ->). left. unfold before, summary_lines.
        simpl. auto 10.
    + intros _. exists before. reflexivity.
    + intros H. contradiction.
    + assumption.
    + intros m c H. split; [eauto|]. rewrite <- Hsum.
      apply In_nth_error in H as (i & Hi). apply (sum_over_nth_le snd _ _ _ Hi).
    + rewrite <- Hsum. clear Hsum Hnd Hin Hblock.
      induction (error_listing errs) as [|[m c] l IH]; simpl; [lia|].
      assert (1 <= c)%nat by (apply (Hpos m); now left).
      assert (length l <= list_sum (map snd l))%nat
        by (apply IH; intros; eapply Hpos; right; eauto).
      lia.
Qed.

Lemma error_counts_add_up_witness :
  let t := fst (send_request after_two_errors 3 (Raises "b")) in
  let none := fst (send_request (init "http://myapp.com/api" 5 1 (1 # 10)) 0
                     (Raises "timed out")) in
  errors t = ["b"; "a"; "b"]%string
  /\ In (ErrorTypes 3) (lines_of (print_results t))
  /\ In (ErrorType "b" 2) (lines_of (print_results t))
  /\ In (ErrorType "a" 1) (lines_of (print_results t))
  /\ list_sum (map snd (error_listing (errors t))) = 3%nat
  /\ errors none = ["timed out"%string]
  /\ print_results none = Returned [NoSuccessfulRequests]
  /\ (forall N, ~ In (ErrorTypes N) (lines_of (print_results none))).
Proof.
  intros t none.
  destruct (error_counts_add_up t (lines_of (print_results t))
              ltac:(vm_compute; reflexivity))
    as (H1 & H2 & _ & _ & _ & Hsum & _).
  destruct (error_counts_add_up none (lines_of (print_results none))
              ltac:(vm_compute; reflexivity))
    as (G1 & _).
  split; [reflexivity|].
  split; [apply H1; repeat split; discriminate|].
  split; [apply H2; split; [discriminate|vm_compute; auto]|].
  split; [apply H2; split; [discriminate|vm_compute; auto]|].
  split; [exact Hsum|]. split; [reflexivity|]. split; [reflexivity|].
  intros N HN. apply G1 in HN as (H & _). now apply H.
Defined.

(** X4. In the report of a run that returned with at least one success,
    the three figures printed after the throughput are consistent: "Total
    Requests" is [num_requests], and "Successful Requests" and "Failed
    Requests", the numbers of requests the client answered and did not
    answer, add up to it. *)
Theorem report_figures_add_up
    (E : env) (u : string) (threads n : Z) (iv : Q) (sched : list choice) (w : world) :
  exec E sched (boot (init u threads n iv)) = Some w ->
  main w = MDone ->
  response_times (obj w) <> [] ->
  exists pre post s f,
    log w = pre ++ [Print (TotalRequests n); Print (SuccessfulRequests s);
                    Print (FailedRequests f)] ++ post
    /\ s = responses (http E) (Z.to_nat n)
    /\ f = failures (http E) (Z.to_nat n)
    /\ Z.of_nat (s + f) = n.
Proof.
  intros Hexec Hm Hne.
  assert (Hr : reachable E (init u threads n iv) w) by (exists sched; exact Hexec).
  assert (Hb : past_barrier (main w) = true) by now rewrite Hm.
  destruct (barrier_state _ _ _ _ _ _ Hr Hb) as (_ & Ht & He & _).
  pose proof (success_needs_requests _ _ _ _ _ _ Hr Hb Hne) as Hpos.
  pose proof (responses_failures (http E) (Z.to_nat n)) as Hsum.
  destruct (returned_log _ _ _ _ _ _ Hr Hm) as (out & Hp & Hl & Hn & _).
  apply print_results_returned in Hp as [[Hnil _]|Hp]; [contradiction|].
  destruct Hp as (x & xs & s & e & _ & _ & _ & _ & _ & ->).
  exists (banner (init u threads n iv) ++ dispatch_trace iv n (Z.to_nat n)
          ++ [Print Rule; Print LoadTestResults; Print (TestDuration (e - s));
              Print (RequestsPerSecond (inject_Z n / (e - s)))]).
  exists (map Print (statistics_lines x xs ++ [StatusCodeDistribution]
                     ++ status_code_lines (status_codes (obj w)) (num_requests (obj w))
                     ++ error_lines (errors (obj w)))).
  exists (length (response_times (obj w))), (length (errors (obj w))).
  split; [|split; [assumption|split; [assumption|lia]]].
  rewrite Hl. unfold summary_lines. rewrite Hn, map_app. simpl.
  rewrite <- !app_assoc. reflexivity.
Qed.

Lemma report_figures_add_up_witness :
  exists w,
    exec env_two_errors schedule_two_errors (boot (init "http://myapp.com/api" 1 3 0))
    = Some w
    /\ exists pre post,
         log w = pre ++ [Print (TotalRequests 3); Print (SuccessfulRequests 1);
                         Print (FailedRequests 2)] ++ post.
Proof.
  eexists. split; [vm_compute; reflexivity|].
  destruct (report_figures_add_up env_two_errors "http://myapp.com/api" 1 3 0
              schedule_two_errors _ ltac:(vm_compute; reflexivity) eq_refl
              ltac:(simpl; discriminate))
    as (pre & post & s & f & Hlog & -> & -> & _).
  exists pre, post. exact Hlog.
Defined.

(** ** [run] outside its contract *)

Lemma step_without_futures E i w : futures w = [] -> step E (Worker i) w = None.
Proof. intros H. unfold step. rewrite H. now destruct i. Qed.

(** X5. With [num_threads <= 0] the constructor of the pool raises: [run]
    prints its banner, takes the start time and ends with a [ValueError].
    Under every schedule no call is submitted, nothing is recorded and no
    report is printed; the dispatching thread takes one step, the workers
    none. *)
Theorem no_worker_no_request
    (E : env) (u : string) (threads n : Z) (iv : Q) (sched : list choice) (w : world) :
  threads <= 0 ->
  exec E sched (boot (init u threads n iv)) = Some w ->
  (sched = [] /\ w = boot (init u threads n iv))
  \/ (sched = [Main]
      /\ w = mkWorld (set_start_time (init u threads n iv) (clock_start E))
                     (MRaised ValueError) [] (banner (init u threads n iv))).
Proof.
  intros Hth Hexec. destruct sched as [|c rest]; cbn [exec] in Hexec.
  - left. split; [reflexivity|]. now injection Hexec.
  - right. destruct c as [|i].
    2:{ rewrite step_without_futures in Hexec by reflexivity. discriminate. }
    assert (Hs : step E Main (boot (init u threads n iv))
                 = Some (mkWorld (set_start_time (init u threads n iv) (clock_start E))
                           (MRaised ValueError) [] (banner (init u threads n iv)))).
    { unfold step, main_step. simpl.
      assert ((threads <=? 0) = true) as -> by (apply Z.leb_le; lia). reflexivity. }
    rewrite Hs in Hexec.
    destruct rest as [|c rest]; cbn [exec] in Hexec.
    + injection Hexec as <-. split; reflexivity.
    + destruct c as [|i].
      * discriminate.
      * rewrite step_without_futures in Hexec by reflexivity. discriminate.
Qed.

Lemma no_worker_no_request_witness :
  exec env_all_ok [Main] (boot (init "http://myapp.com/api" 0 100 (1 # 10)))
  = Some (mkWorld (set_start_time (init "http://myapp.com/api" 0 100 (1 # 10)) 0)
            (MRaised ValueError) [] (banner (init "http://myapp.com/api" 0 100 (1 # 10))))
  /\ exec env_all_ok [Main; Main] (boot (init "http://myapp.com/api" 0 100 (1 # 10)))
     = None.
Proof.
  split; [reflexivity|].
  destruct (exec env_all_ok [Main; Main] (boot (init "http://myapp.com/api" 0 100 (1 # 10))))
    as [w|] eqn:Hexec; [|reflexivity].
  destruct (no_worker_no_request env_all_ok "http://myapp.com/api" 0 100 (1 # 10)
              [Main; Main] w ltac:(lia) Hexec) as [[H _]|[H _]]; discriminate H.
Defined.

Lemma before_first_sleep_step E t0 c w w' e :
  sleep_raises E (interval t0) = Some e -> 1 <= num_requests t0 ->
  invariant E t0 w -> before_first_sleep t0 w ->
  step E c w = Some w' -> before_first_sleep t0 w'.
Proof.
  intros Hiv Hn Hinv Hw Hstep.
  pose proof (inv_config _ _ _ Hinv) as (Hu & Hth & Hnr & Hi).
  unfold before_first_sleep in *.
  destruct c as [|i].
  - simpl in Hstep. unfold main_step in Hstep.
    destruct Hw as [(Hm & Hf & Hl)|[(Hm & Hf & Hl)|[(Hm & Hf & Hl)|[(Hm & Hf & Hl)|(Hm & Hf & Hl)]]]];
      try rewrite Hm in Hstep.
    + injection Hstep as <-. simpl. rewrite Hl, Hf.
      assert (Hb : [Print (StartingLoadTest (url (obj w)));
                    Print (Settings (num_threads (obj w)) (num_requests (obj w))
                             (interval (obj w)));
                    Print Rule] = banner t0)
        by (unfold banner; now rewrite Hu, Hth, Hnr, Hi).
      destruct (num_threads (obj w) <=? 0); simpl; rewrite Hb; tauto.
    + assert ((Z.of_nat 0 <? num_requests (obj w)) = true) as Hlt
        by (apply Z.ltb_lt; simpl; lia).
      rewrite Hlt in Hstep. injection Hstep as <-. simpl. rewrite Hf, Hl.
      right. right. left. auto.
    + rewrite Hi, Hiv in Hstep. injection Hstep as <-. simpl.
      apply sleep_raises_before_barrier in Hiv. right. right. right. right. eauto.
    + discriminate.
    + destruct Hm as (e' & Hm & _). rewrite Hm in Hstep. discriminate.
  - apply worker_step_inv in Hstep as (p & p' & t' & Hp & _ & ->).
    cbn [main futures log]. rewrite length_update.
    assert (Hsome : futures w <> []).
    { intros H. rewrite H in Hp. destruct i; discriminate. }
    destruct Hw as [(Hm & Hf & Hl)|[(Hm & Hf & Hl)|[(Hm & Hf & Hl)|[(Hm & Hf & Hl)|(Hm & Hf & Hl)]]]];
      try contradiction.
    + right. right. left. auto.
    + right. right. right. right. auto.
Qed.

(** A run whose [time.sleep] raises never gets past its first sleep. *)
Lemma stops_at_first_sleep E u threads n iv e sched w :
  sleep_raises E iv = Some e -> 1 <= n ->
  exec E sched (boot (init u threads n iv)) = Some w ->
  before_first_sleep (init u threads n iv) w.
Proof.
  intros Hiv Hn Hexec.
  assert (H0 : before_first_sleep (init u threads n iv) (boot (init u threads n iv)))
    by (left; auto).
  pose proof (invariant_boot E u threads n iv) as Hinv.
  revert Hexec H0 Hinv. generalize (boot (init u threads n iv)) as w0.
  induction sched as [|c sched IH]; intros w0; simpl.
  - now intros [= <-].
  - destruct (step E c w0) as [w1|] eqn:Hs; [|discriminate].
    intros Hexec H0 Hinv. apply (IH w1); auto.
    + eapply before_first_sleep_step; eauto.
    + eapply invariant_step; eauto.
Qed.

Lemma before_first_sleep_barrier t0 w :
  before_first_sleep t0 w -> past_barrier (main w) = false /\ main w <> MWait.
Proof.
  intros [(Hm & _)|[(Hm & _)|[(Hm & _)|[(Hm & _)|((e & Hm & He) & _)]]]];
    rewrite Hm; (split; [|discriminate]); try reflexivity.
  destruct e; try discriminate; reflexivity.
Qed.

(** X6. With a negative [interval] and at least one request to send, the
    first [time.sleep] raises, a [ValueError] or, below about -9.2e9 s, an
    [OverflowError]: under every schedule at most one call, the one with
    id 0, is ever submitted, the loop never reaches its barrier, and the
    log holds at most the banner and that one submission: no sleep, no
    progress line and no report. *)
Theorem negative_interval_stops_after_first_submission
    (E : env) (u : string) (threads n : Z) (iv : Q) (sched : list choice) (w : world) :
  Qle_bool 0 iv = false -> 1 <= n ->
  exec E sched (boot (init u threads n iv)) = Some w ->
  (length (futures w) <= 1)%nat
  /\ past_barrier (main w) = false
  /\ main w <> MWait
  /\ (log w = [] \/ log w = banner (init u threads n iv)
      \/ log w = banner (init u threads n iv) ++ [Submit 0%nat])
  /\ (length (futures w) = 1%nat ->
      log w = banner (init u threads n iv) ++ [Submit 0%nat]).
Proof.
  intros Hiv Hn Hexec.
  assert (H : before_first_sleep (init u threads n iv) w).
  { destruct (sleep_negative E iv Hiv) as [Hs|Hs];
      eapply stops_at_first_sleep; eauto. }
  destruct (before_first_sleep_barrier _ _ H) as [Hb Hw].
  destruct H as [(Hm & Hf & Hl)|[(Hm & Hf & Hl)|[(Hm & Hf & Hl)|[(Hm & Hf & Hl)|(Hm & Hf & Hl)]]]];
    rewrite Hl, ?Hf; simpl; repeat split; auto; try discriminate; try lia.
Qed.

Lemma negative_interval_stops_after_first_submission_witness :
  exists w,
    exec env_all_ok [Main; Main; Worker 0; Main]
         (boot (init "http://myapp.com/api" 5 100 (-1 # 10))) = Some w
    /\ main w = MRaised ValueError
    /\ length (futures w) = 1%nat
    /\ log w = banner (init "http://myapp.com/api" 5 100 (-1 # 10)) ++ [Submit 0%nat].
Proof.
  eexists. split; [vm_compute; reflexivity|].
  split; [reflexivity|]. split; [reflexivity|].
  apply (negative_interval_stops_after_first_submission env_all_ok
           "http://myapp.com/api" 5 100 (-1 # 10) [Main; Main; Worker 0%nat; Main]);
    [reflexivity|lia|vm_compute; reflexivity|reflexivity].
Defined.

(** ** The shared object along a run *)

Lemma worker_step_grows a i t p t' p' :
  worker_step a i t p = Some (t', p') ->
  (exists xs, response_times t' = response_times t ++ xs)
  /\ (exists ys, errors t' = errors t ++ ys)
  /\ (exists ks, Dict.keys (status_codes t') = Dict.keys (status_codes t) ++ ks).
Proof.
  assert (Hsame : forall t, (exists xs, response_times t = response_times t ++ xs)
                    /\ (exists ys, errors t = errors t ++ ys)
                    /\ (exists ks : list Z, Dict.keys (status_codes t)
                                            = Dict.keys (status_codes t) ++ ks)).
  { intros t1. repeat split; exists []; now rewrite app_nil_r. }
  destruct p; simpl; try discriminate.
  - intros [= <- _]; auto.
  - destruct a; intros [= <- _]; auto.
  - intros [= <- _]. simpl. destruct (Hsame t) as (_ & H2 & H3). eauto.
  - destruct (Dict.mem _ _ _); intros [= <- _]; auto.
  - destruct (Dict.get _ _ _); intros [= <- _]; auto.
  - intros [= <- _]. simpl. destruct (Hsame t) as (H1 & H2 & _).
    split; [assumption|]. split; [assumption|].
    destruct (Dict.mem Z.eqb status_code (status_codes t)) eqn:Hm.
    + exists []. rewrite app_nil_r.
      now apply (dict_keys_set_mem Z.eqb Z.eqb_spec).
    + exists [status_code]. now apply (dict_keys_set_new Z.eqb Z.eqb_spec).
  - intros [= <- _]. simpl. destruct (Hsame t) as (H1 & _ & H3). eauto.
Qed.

Lemma step_grows E c w w' :
  step E c w = Some w' ->
  (exists xs, response_times (obj w') = response_times (obj w) ++ xs)
  /\ (exists ys, errors (obj w') = errors (obj w) ++ ys)
  /\ (exists ks, Dict.keys (status_codes (obj w'))
                 = Dict.keys (status_codes (obj w)) ++ ks)
  /\ (exists ls, log w' = log w ++ ls)
  /\ (length (futures w) <= length (futures w'))%nat.
Proof.
  assert (Hsame : forall t, (exists xs, response_times t = response_times t ++ xs)
                    /\ (exists ys, errors t = errors t ++ ys)
                    /\ (exists ks : list Z, Dict.keys (status_codes t)
                                            = Dict.keys (status_codes t) ++ ks)).
  { intros t1. repeat split; exists []; now rewrite app_nil_r. }
  destruct c as [|i].
  - simpl. unfold main_step. destruct (Hsame (obj w)) as (H1 & H2 & H3).
    destruct (main w); try discriminate.
    + intros [= <-]. simpl. repeat split; eauto.
    + destruct (Z.of_nat i <? num_requests (obj w)); intros [= <-]; simpl;
        repeat split; eauto.
      * rewrite length_app. simpl. lia.
      * exists []. now rewrite app_nil_r.
    + destruct (sleep_raises E (interval (obj w))); intros [= <-]; simpl;
        repeat split; eauto.
      exists []. now rewrite app_nil_r.
    + destruct (forallb is_finished (futures w)); [|discriminate].
      intros [= <-]. simpl. repeat split; eauto.
    + destruct (print_results (obj w)); intros [= <-]; simpl; repeat split; eauto.
  - intros Hstep. apply worker_step_inv in Hstep as (p & p' & t' & _ & Hs & ->).
    apply worker_step_grows in Hs as (H1 & H2 & H3). simpl.
    repeat split; auto.
    + exists []. now rewrite app_nil_r.
    + now rewrite length_update.
Qed.

(** X8. Nothing recorded is ever removed or reordered: along every run,
    from any world on and under every schedule, the elapsed times and the
    error texts keep what they held and only grow at the end, no status
    code stops being a key and new keys come last, and the log and the
    number of submitted calls only grow. *)
Theorem records_only_grow (E : env) (sched : list choice) (w w' : world) :
  exec E sched w = Some w' ->
  (exists xs, response_times (obj w') = response_times (obj w) ++ xs)
  /\ (exists ys, errors (obj w') = errors (obj w) ++ ys)
  /\ (exists ks, Dict.keys (status_codes (obj w'))
                 = Dict.keys (status_codes (obj w)) ++ ks)
  /\ (exists ls, log w' = log w ++ ls)
  /\ (length (futures w) <= length (futures w'))%nat.
Proof.
  revert w; induction sched as [|c sched IH]; intros w; simpl.
  - intros [= <-]. repeat split; try (exists []; now rewrite app_nil_r). lia.
  - destruct (step E c w) as [w1|] eqn:Hs; [|discriminate].
    intros Hexec.
    destruct (step_grows _ _ _ _ Hs) as ((xs & H1) & (ys & H2) & (ks & H3) & (ls & H4) & H5).
    destruct (IH _ Hexec) as ((xs' & G1) & (ys' & G2) & (ks' & G3) & (ls' & G4) & G5).
    repeat split.
    + exists (xs ++ xs'). now rewrite G1, H1, app_assoc.
    + exists (ys ++ ys'). now rewrite G2, H2, app_assoc.
    + exists (ks ++ ks'). now rewrite G3, H3, app_assoc.
    + exists (ls ++ ls'). now rewrite G4, H4, app_assoc.
    + lia.
Qed.

Lemma records_only_grow_witness :
  let sched := sequential_schedule env_mixed (init "http://myapp.com/api" 1 4 0) in
  exists w w',
    exec env_mixed (firstn 13 sched) (boot (init "http://myapp.com/api" 1 4 0)) = Some w
    /\ exec env_mixed (skipn 13 sched) w = Some w'
    /\ response_times (obj w) = [3 # 10]
    /\ errors (obj w) = ["timed out"%string]
    /\ Dict.keys (status_codes (obj w)) = [404]
    /\ length (futures w) = 2%nat
    /\ response_times (obj w') = [3 # 10; 1 # 10; 1 # 5]
    /\ Dict.keys (status_codes (obj w')) = [404; 200]
    /\ (exists xs, response_times (obj w') = response_times (obj w) ++ xs)
    /\ (exists ys, errors (obj w') = errors (obj w) ++ ys)
    /\ (exists ks, Dict.keys (status_codes (obj w'))
                   = Dict.keys (status_codes (obj w)) ++ ks)
    /\ (exists ls, log w' = log w ++ ls)
    /\ (length (futures w) <= length (futures w'))%nat.
Proof.
  intros sched.
  eexists. eexists. split; [vm_compute; reflexivity|].
  split; [vm_compute; reflexivity|].
  do 6 (split; [reflexivity|]).
  refine (records_only_grow env_mixed (skipn 13 sched) _ _ _).
  vm_compute. reflexivity.
Defined.

(** ** Every run comes to an end *)

Lemma worker_step_remaining a i t p t' p' :
  worker_step a i t p = Some (t', p') -> (remaining p' < remaining p)%nat.
Proof.
  destruct p; simpl; try discriminate.
  - intros [= _ <-]. simpl. lia.
  - destruct a; intros [= _ <-]; simpl; lia.
  - intros [= _ <-]. simpl. lia.
  - destruct (Dict.mem _ _ _); intros [= _ <-]; simpl; lia.
  - destruct (Dict.get _ _ _); intros [= _ <-]; simpl; lia.
  - intros [= _ <-]. simpl. lia.
  - intros [= _ <-]. simpl. lia.
Qed.

Lemma steps_left_step E t0 c w w' :
  invariant E t0 w -> step E c w = Some w' ->
  (steps_left (Z.to_nat (num_requests t0)) w'
   < steps_left (Z.to_nat (num_requests t0)) w)%nat.
Proof.
  intros Hinv Hstep. pose proof (inv_dispatch _ _ _ Hinv) as Hd.
  unfold steps_left. unfold dispatch_ok in Hd.
  destruct c as [|i].
  - simpl in Hstep. unfold main_step in Hstep.
    destruct (main w) eqn:Hm; try discriminate.
    + injection Hstep as <-. simpl.
      destruct (num_threads (obj w) <=? 0); simpl; lia.
    + destruct Hd as [Hlen Hle].
      destruct (Z.of_nat i <? num_requests (obj w)) eqn:Hlt; injection Hstep as <-; simpl.
      * pose proof (inv_config _ _ _ Hinv) as (_ & _ & Hn & _).
        apply Z.ltb_lt in Hlt. rewrite Hn in Hlt.
        rewrite sum_over_app. unfold sum_over at 2. simpl.
        replace (Z.to_nat (num_requests t0) - i)%nat
          with (S (Z.to_nat (num_requests t0) - S i)) by lia.
        lia.
      * lia.
    + destruct (sleep_raises E (interval (obj w))); injection Hstep as <-; simpl; lia.
    + destruct (forallb is_finished (futures w)); [|discriminate].
      injection Hstep as <-. simpl. lia.
    + destruct (print_results (obj w)); injection Hstep as <-; simpl; lia.
  - apply worker_step_inv in Hstep as (p & p' & t' & Hi & Hs & ->). simpl.
    pose proof (sum_over_update remaining i p' p _ Hi) as S.
    apply worker_step_remaining in Hs. lia.
Qed.

(** X9. Every run comes to an end: a schedule that the run can follow from
    its start has at most [8 * num_requests + 4] steps (4 when
    [num_requests] is negative), whatever the client answers and however
    the workers interleave; each step brings the run closer to its end by
    at least one. *)
Theorem run_takes_boundedly_many_steps
    (E : env) (u : string) (threads n : Z) (iv : Q) (sched : list choice) (w : world) :
  exec E sched (boot (init u threads n iv)) = Some w ->
  (length sched + steps_left (Z.to_nat n) w <= 8 * Z.to_nat n + 4)%nat
  /\ (length sched <= 8 * Z.to_nat n + 4)%nat.
Proof.
  intros Hexec.
  assert (H : (length sched + steps_left (Z.to_nat n) w
               <= steps_left (Z.to_nat n) (boot (init u threads n iv)))%nat).
  { pose proof (invariant_boot E u threads n iv) as Hinv.
    revert Hexec Hinv. generalize (boot (init u threads n iv)) as w0.
    induction sched as [|c sched IH]; intros w0; simpl.
    - intros [= <-] _. lia.
    - destruct (step E c w0) as [w1|] eqn:Hs; [|discriminate].
      intros Hexec Hinv.
      pose proof (steps_left_step _ _ _ _ _ Hinv Hs) as Hlt. simpl in Hlt.
      assert (Hinv1 : invariant E (init u threads n iv) w1)
        by (eapply invariant_step; eauto).
      specialize (IH w1 Hexec Hinv1). lia. }
  unfold steps_left at 2 in H. simpl in H. unfold sum_over in H. simpl in H.
  split; lia.
Qed.

Lemma run_takes_boundedly_many_steps_witness :
  exists w,
    exec env_all_ok schedule_lost_increment (boot (init "http://myapp.com/api" 2 3 0))
    = Some w
    /\ (length schedule_lost_increment <= 8 * 3 + 4)%nat
    /\ steps_left 3 w = 0%nat.
Proof.
  eexists. split; [vm_compute; reflexivity|].
  destruct (run_takes_boundedly_many_steps env_all_ok "http://myapp.com/api" 2 3 0
              schedule_lost_increment _ ltac:(vm_compute; reflexivity)) as [_ H].
  split; [exact H|reflexivity].
Defined.

(** A run that has left its first statement has at least one worker. *)
Lemma running_has_workers E u threads n iv w :
  reachable E (init u threads n iv) w ->
  main w = MStart \/ main w = MRaised ValueError \/ 1 <= threads.
Proof.
  intros [sched Hexec].
  assert (H0 : main (boot (init u threads n iv)) = MStart
               \/ main (boot (init u threads n iv)) = MRaised ValueError
               \/ 1 <= threads) by now left.
  pose proof (invariant_boot E u threads n iv) as Hinv.
  revert Hexec H0 Hinv. generalize (boot (init u threads n iv)) as w0.
  induction sched as [|c sched IH]; intros w0; simpl.
  - now intros [= <-].
  - destruct (step E c w0) as [w1|] eqn:Hs; [|discriminate].
    intros Hexec H0 Hinv. apply (IH w1); auto; [|eapply invariant_step; eauto].
    pose proof (inv_config _ _ _ Hinv) as (_ & Hth & _). simpl in Hth.
    destruct c as [|i].
    + simpl in Hs. unfold main_step in Hs.
      destruct H0 as [Hm|[Hm|Hge]]; [| |now right; right].
      * rewrite Hm in Hs. injection Hs as <-. simpl. rewrite Hth.
        destruct (threads <=? 0) eqn:Hle; [now right; left|].
        right. right. apply Z.leb_gt in Hle. lia.
      * rewrite Hm in Hs. discriminate.
    + apply worker_step_inv in Hs as (p & p' & t' & _ & _ & ->). exact H0.
Qed.

Lemma worker_step_defined a i t p :
  is_finished p = false -> exists r, worker_step a i t p = Some r.
Proof.
  destruct p; simpl; try discriminate; intros _; eauto.
  - destruct a; eauto.
  - destruct (Dict.mem _ _ _); eauto.
  - destruct (Dict.get _ _ _); eauto.
Qed.

(** Among calls that are not all finished, one is in flight or, none being
    in flight, there is an oldest queued one. *)
Lemma unfinished_call l :
  forallb is_finished l = false ->
  (exists i p, nth_error l i = Some p /\ in_flight p = true)
  \/ (sum_over flying l = 0%nat
      /\ exists i, nth_error l i = Some Queued
                   /\ existsb is_queued (firstn i l) = false).
Proof.
  induction l as [|p l IH]; simpl; [discriminate|].
  destruct (in_flight p) eqn:Hp.
  { intros _. left. exists 0%nat, p. auto. }
  destruct (is_finished p) eqn:Hf; simpl.
  - intros H. destruct (IH H) as [(i & q & Hi & Hq)|(Hz & i & Hi & Hq)].
    + left. exists (S i), q. auto.
    + right. split.
      * unfold sum_over in *. simpl. unfold flying at 1. rewrite Hp. exact Hz.
      * exists (S i). split; [assumption|]. simpl. rewrite Hq.
        destruct p; simpl in *; congruence.
  - intros _. assert (p = Queued) as ->.
    { unfold in_flight in Hp. destruct p; simpl in *; congruence. }
    destruct (forallb is_finished l) eqn:Hl.
    + right. split.
      * unfold sum_over. simpl.
        pose proof (finished_not_in_flight l Hl) as Hz.
        rewrite count_if_flying in Hz. exact Hz.
      * exists 0%nat. auto.
    + destruct (IH eq_refl) as [(i & q & Hi & Hq)|(Hz & _)].
      * left. exists (S i), q. auto.
      * right. split; [exact Hz|]. exists 0%nat. auto.
Qed.

(** X10. A run never gets stuck before its end: in every world a run can
    reach, unless [run] has returned or an exception has left it, the
    dispatching thread or some worker can take a step. In particular,
    while the barrier waits, a call that is not finished can go on or, if
    none is in flight, the oldest queued call can be taken. *)
Theorem run_is_never_stuck
    (E : env) (u : string) (threads n : Z) (iv : Q) (sched : list choice) (w : world) :
  exec E sched (boot (init u threads n iv)) = Some w ->
  ended (main w) = false ->
  exists c w', step E c w = Some w'.
Proof.
  intros Hexec Hend.
  assert (Hr : reachable E (init u threads n iv) w) by (exists sched; exact Hexec).
  pose proof (running_has_workers _ _ _ _ _ _ Hr) as Hw.
  pose proof (inv_config _ _ _ (invariant_reachable _ _ _ _ _ _ Hr)) as (_ & Hth & _).
  simpl in Hth.
  destruct (main w) eqn:Hm; try discriminate.
  - exists Main. simpl. unfold main_step. rewrite Hm. eauto.
  - exists Main. simpl. unfold main_step. rewrite Hm.
    destruct (Z.of_nat i <? num_requests (obj w)); eauto.
  - exists Main. simpl. unfold main_step. rewrite Hm.
    destruct (sleep_raises E (interval (obj w))); eauto.
  - destruct (forallb is_finished (futures w)) eqn:Hf.
    + exists Main. simpl. unfold main_step. rewrite Hm, Hf. eauto.
    + destruct Hw as [Hw|[Hw|Hw]]; try discriminate.
      destruct (unfinished_call _ Hf) as [(i & p & Hi & Hp)|(Hz & i & Hi & Hq)].
      * assert (Hunf : is_finished p = false).
        { unfold in_flight in Hp. destruct (is_finished p); [|reflexivity].
          rewrite andb_false_r in Hp. discriminate. }
        destruct (worker_step_defined (http E i) i (obj w) p Hunf) as ([t' p'] & Hs).
        exists (Worker i). unfold step. rewrite Hi.
        assert (can_step w i p = true) as ->.
        { unfold can_step. unfold in_flight in Hp.
          destruct (is_queued p); [discriminate|reflexivity]. }
        rewrite Hs. eauto.
      * exists (Worker i). unfold step. rewrite Hi.
        assert (can_step w i Queued = true) as ->.
        { unfold can_step. simpl. rewrite Hq, count_if_flying, Hz, Hth. simpl.
          rewrite andb_true_r. apply Z.ltb_lt. lia. }
        simpl. eauto.
  - exists Main. simpl. unfold main_step. rewrite Hm.
    destruct (print_results (obj w)); eauto.
Qed.

Lemma run_is_never_stuck_witness :
  exists w,
    exec env_all_ok schedule_two_in_flight (boot (init "http://myapp.com/api" 2 4 0))
    = Some w
    /\ step env_all_ok Main w = None
    /\ exists c w', step env_all_ok c w = Some w'.
Proof.
  eexists. split; [vm_compute; reflexivity|]. split; [reflexivity|].
  apply (run_is_never_stuck env_all_ok "http://myapp.com/api" 2 4 0
           schedule_two_in_flight); [vm_compute; reflexivity|reflexivity].
Defined.

(** ** The progress indicator *)

(** The log of a world past the barrier. *)
Lemma barrier_log E u threads n iv w :
  reachable E (init u threads n iv) w ->
  past_barrier (main w) = true ->
  exists rest,
    log w = banner (init u threads n iv) ++ dispatch_trace iv n (Z.to_nat n)
            ++ Print Rule :: rest.
Proof.
  intros Hr Hb. pose proof (log_ok_reachable _ _ _ _ _ _ Hr) as Hlog.
  unfold log_ok in Hlog. simpl in Hlog.
  destruct (main w) as [| | | | | |e]; try discriminate.
  - exists []. exact Hlog.
  - destruct Hlog as (out & _ & Hl). exists (map Print out). exact Hl.
  - destruct Hlog as [He|(out & _ & Hl)]; [destruct e; discriminate|].
    exists (map Print out). exact Hl.
Qed.

(** X11. When at least one request is configured, the last thing the loop
    of [run] does is print the progress line [num_requests/num_requests],
    right after the last submission and its sleep and right before the
    closing rule. It is printed once, also when [num_requests] is a
    multiple of 10; the progress lines before it show the multiples of 10
    below [num_requests]. When [num_requests <= 0] the loop does nothing:
    the rule follows the banner. *)
Theorem progress_ends_with_the_total
    (E : env) (u : string) (threads n : Z) (iv : Q) (sched : list choice) (w : world) :
  exec E sched (boot (init u threads n iv)) = Some w ->
  past_barrier (main w) = true ->
  (1 <= n ->
   exists pre rest,
     log w = banner (init u threads n iv) ++ pre
             ++ [Submit (Z.to_nat n - 1); Sleep iv; Print (Progress n n); Print Rule]
             ++ rest
     /\ (forall a b, In (Print (Progress a b)) pre ->
           b = n /\ a mod 10 = 0 /\ 1 <= a < n))
  /\ (n <= 0 ->
      exists rest, log w = banner (init u threads n iv) ++ Print Rule :: rest).
Proof.
  intros Hexec Hb.
  assert (Hr : reachable E (init u threads n iv) w) by (exists sched; exact Hexec).
  destruct (barrier_log _ _ _ _ _ _ Hr Hb) as (rest & Hl).
  split.
  - intros Hn. destruct (Z.to_nat n) as [|k] eqn:Hk; [lia|].
    exists (dispatch_trace iv n k), rest. split.
    + rewrite Hl, dispatch_trace_S. unfold iteration, progress_due.
      assert ((Z.of_nat k + 1 =? n) = true) as -> by (apply Z.eqb_eq; lia).
      rewrite orb_true_r. replace (Z.of_nat k + 1) with n by lia.
      replace (S k - 1)%nat with k by lia.
      rewrite <- !app_assoc. reflexivity.
    + intros a b Hin. unfold dispatch_trace in Hin.
      apply iteration_progress in Hin as (-> & i & Hi & -> & Hd).
      apply in_seq in Hi. split; [reflexivity|].
      destruct Hd as [Hd|Hd]; [|lia]. split; [assumption|lia].
  - intros Hn. exists rest. rewrite Hl.
    replace (Z.to_nat n) with 0%nat by lia. reflexivity.
Qed.

Lemma progress_ends_with_the_total_witness :
  exists w,
    exec env_two_errors schedule_two_errors (boot (init "http://myapp.com/api" 1 3 0))
    = Some w
    /\ exists pre rest,
         log w = banner (init "http://myapp.com/api" 1 3 0) ++ pre
                 ++ [Submit 2; Sleep 0; Print (Progress 3 3); Print Rule] ++ rest.
Proof.
  eexists. split; [vm_compute; reflexivity|].
  destruct (progress_ends_with_the_total env_two_errors "http://myapp.com/api" 1 3 0
              schedule_two_errors _ ltac:(vm_compute; reflexivity) eq_refl)
    as (H & _).
  destruct (H ltac:(lia)) as (pre & rest & Hlog & _).
  exists pre, rest. exact Hlog.
Defined.

(** ** The statistics of the report *)

Lemma Qsum_lower m l :
  (forall y, In y l -> m <= y)%Q -> (m * Qlen l <= Qsum l)%Q.
Proof.
  induction l as [|a l IH]; intros H.
  - unfold Qlen. simpl. rewrite Qmult_0_r. apply Qle_refl.
  - rewrite Qlen_cons. simpl Qsum.
    setoid_replace (m * (Qlen l + 1))%Q with (m + m * Qlen l)%Q by ring.
    apply Qplus_le_compat; [apply H; now left|apply IH; intros; apply H; now right].
Qed.

Lemma Qsum_upper M l :
  (forall y, In y l -> y <= M)%Q -> (Qsum l <= M * Qlen l)%Q.
Proof.
  induction l as [|a l IH]; intros H.
  - unfold Qlen. simpl. rewrite Qmult_0_r. apply Qle_refl.
  - rewrite Qlen_cons. simpl Qsum.
    setoid_replace (M * (Qlen l + 1))%Q with (M + M * Qlen l)%Q by ring.
    apply Qplus_le_compat; [apply H; now left|apply IH; intros; apply H; now right].
Qed.

Lemma nth_sorted_In l i :
  (i < length l)%nat -> In (nth i (sorted Qle_bool l) 0%Q) l.
Proof.
  intros Hi. apply (sorted_In Qle_bool). apply nth_In. now rewrite sorted_length.
Qed.

(** X12. The figures of the statistics block are consistent with one
    another: the mean and the median of the recorded elapsed times both
    lie between the minimum and the maximum printed, and the sample
    variance, whose square root is printed as the standard deviation when
    there are at least two times, is not negative. *)
Theorem statistics_within_range (x : Q) (xs : list Q) :
  let times := x :: xs in
  (min_list x xs <= mean times /\ mean times <= max_list x xs)%Q
  /\ (min_list x xs <= median times /\ median times <= max_list x xs)%Q
  /\ (min_list x xs <= max_list x xs)%Q
  /\ ((2 <= length times)%nat -> 0 <= variance times)%Q.
Proof.
  intros times.
  destruct (min_list_spec x xs) as [Hmin_in Hmin].
  destruct (max_list_spec x xs) as [Hmax_in Hmax].
  fold times in Hmin_in, Hmin, Hmax_in, Hmax.
  pose proof (Qlen_pos x xs) as Hpos. fold times in Hpos.
  split; [|split; [|split]].
  - unfold mean. split.
    + apply Qle_shift_div_l; [assumption|]. now apply Qsum_lower.
    + apply Qle_shift_div_r; [assumption|]. now apply Qsum_upper.
  - assert (Hlen : (1 <= length times)%nat) by (simpl; lia).
    assert (Hhalf : (length times / 2 < length times)%nat)
      by (apply Nat.div_lt; lia).
    unfold median. rewrite sorted_length.
    destruct (Nat.eqb (length times mod 2) 1) eqn:Hodd.
    + pose proof (nth_sorted_In times _ Hhalf) as Hin. split; auto.
    + assert (Heven : (length times mod 2 = 0)%nat).
      { apply Nat.eqb_neq in Hodd.
        pose proof (Nat.mod_upper_bound (length times) 2). lia. }
      assert (H2 : (2 <= length times)%nat).
      { destruct (length times) as [|[|k]] eqn:Hk; simpl in *; lia. }
      assert (Hprev : (length times / 2 - 1 < length times)%nat) by lia.
      pose proof (nth_sorted_In times _ Hhalf) as Hb.
      pose proof (nth_sorted_In times _ Hprev) as Ha.
      set (a := nth (length times / 2 - 1) (sorted Qle_bool times) 0%Q) in *.
      set (b := nth (length times / 2) (sorted Qle_bool times) 0%Q) in *.
      split.
      * apply Qle_shift_div_l; [reflexivity|].
        setoid_replace (min_list x xs * 2)%Q with (min_list x xs + min_list x xs)%Q
          by ring.
        apply Qplus_le_compat; auto.
      * apply Qle_shift_div_r; [reflexivity|].
        setoid_replace (max_list x xs * 2)%Q with (max_list x xs + max_list x xs)%Q
          by ring.
        apply Qplus_le_compat; auto.
  - now apply Hmin.
  - intros H2. unfold variance.
    apply Qle_shift_div_l.
    + unfold Qlen, Qlt, Qminus, Qplus, Qopp, inject_Z. cbn [Qnum Qden]. lia.
    + rewrite Qmult_0_l.
      apply (Qsum_squares_nonneg (fun y => y - mean times)%Q).
Qed.

Lemma statistics_within_range_witness :
  (0 <= variance [1 # 10; 3 # 10; 1 # 5])%Q.
Proof.
  destruct (statistics_within_range (1 # 10) [3 # 10; 1 # 5]) as (_ & _ & _ & H).
  apply H. simpl. lia.
Defined.










(** ** One call after the other *)

Lemma existsb_firstn_false {A} (f : A -> bool) l i a x :
  existsb f (firstn i l) = false -> (a < i)%nat -> nth_error l a = Some x ->
  f x = false.
Proof.
  revert i a; induction l as [|y l IH]; intros [|i] [|a] H Ha Hx; simpl in *;
    try discriminate; try lia.
  - injection Hx as ->. now apply orb_false_iff in H.
  - apply orb_false_iff in H as [_ H]. eapply IH; eauto. lia.
Qed.

(** X15. Whatever the client does, a run with at least one worker and an
    interval that [time.sleep] accepts, that is one that is not negative,
    fits a signed 64-bit count of nanoseconds and is granted by the system,
    can reach the return of its barrier: the schedule on which each call is
    run to its end before the next one is submitted is one the run can
    follow. It ends with all calls finished, each with the result that
    belongs to its attempt, and with the object that [send_request], called
    for the request ids in ascending order on the new tester, leaves
    behind, its two timestamps apart. With an interval that [time.sleep]
    refuses and a request to send, no run reaches its barrier. *)
Theorem one_at_a_time_run_completes
    (E : env) (u : string) (threads n : Z) (iv : Q) :
  (1 <= threads -> sleep_raises E iv = None ->
   exists w,
     exec E (sequential_schedule E (init u threads n iv)) (boot (init u threads n iv))
     = Some w
     /\ main w = MReport
     /\ futures w = map (finished_call (http E)) (seq 0 (Z.to_nat n))
     /\ obj w = set_end_time
                  (run_in_order (http E) (seq 0 (Z.to_nat n))
                     (set_start_time (init u threads n iv) (clock_start E)))
                  (clock_end E))
  /\ (forall e sched w,
        sleep_raises E iv = Some e -> 1 <= n ->
        exec E sched (boot (init u threads n iv)) = Some w ->
        past_barrier (main w) = false /\ main w <> MWait)
  /\ (sleep_raises E iv = None
      <-> Qle_bool 0 iv = true /\ sleep_fits iv = true
          /\ Qle_bool iv (sleep_max E) = true).
Proof.
  split; [|split].
  - intros Hth Hiv.
    destruct (run_reaches_barrier E u threads n iv Hth Hiv) as (w & Hexec & Hm & Hobj).
    exists w. split; [assumption|]. split; [assumption|]. split; [|assumption].
    assert (Hr : reachable E (init u threads n iv) w) by (eexists; exact Hexec).
    assert (Hb : past_barrier (main w) = true) by now rewrite Hm.
    now destruct (barrier_state _ _ _ _ _ _ Hr Hb) as (Hf & _).
  - intros e sched w Hiv Hn Hexec.
    eapply before_first_sleep_barrier, stops_at_first_sleep; eauto.
  - apply sleep_returns.
Qed.

Lemma one_at_a_time_run_completes_witness :
  (exists w,
      exec env_two_errors (sequential_schedule env_two_errors (init "http://myapp.com/api" 1 3 0))
           (boot (init "http://myapp.com/api" 1 3 0)) = Some w
      /\ main w = MReport
      /\ errors (obj w) = ["b"; "a"]%string)
  /\ (exists w,
        exec env_two_errors [Main; Main; Worker 0; Main]
             (boot (init "http://myapp.com/api" 1 3 9300000000)) = Some w
        /\ main w = MRaised OverflowError
        /\ past_barrier (main w) = false).
Proof.
  split.
  - destruct (one_at_a_time_run_completes env_two_errors "http://myapp.com/api" 1 3 0)
      as (H & _).
    destruct (H ltac:(lia) eq_refl) as (w & Hexec & Hm & _ & Hobj).
    exists w. split; [assumption|]. split; [assumption|].
    rewrite Hobj. reflexivity.
  - destruct (one_at_a_time_run_completes env_two_errors "http://myapp.com/api" 1 3
                9300000000) as (_ & H & _).
    eexists. split; [vm_compute; reflexivity|]. split; [reflexivity|].
    apply (H OverflowError [Main; Main; Worker 0%nat; Main]);
      [reflexivity|lia|vm_compute; reflexivity].
Defined.

(** ** A pool of one worker runs the calls in sequence *)

Lemma run_in_order_app http l1 l2 t :
  run_in_order http (l1 ++ l2) t = run_in_order http l2 (run_in_order http l1 t).
Proof.
  revert t; induction l1 as [|i l1 IH]; intros t; simpl; auto.
Qed.

Lemma run_in_order_S http k t :
  run_in_order http (seq 0 (S k)) t
  = fst (send_request (run_in_order http (seq 0 k) t) k (http k)).
Proof. rewrite seq_S, run_in_order_app. reflexivity. Qed.

Lemma send_request_recorded_got t i sc rt :
  recorded (fst (send_request t i (Got sc rt)))
  = (response_times t ++ [rt],
     Dict.set Z.eqb sc (Dict.count Z.eqb sc (status_codes t) + 1)%nat (status_codes t),
     errors t).
Proof.
  unfold send_request, send_request_try, recorded, Dict.mem, Dict.count. simpl.
  destruct (Dict.get Z.eqb sc (status_codes t)); reflexivity.
Qed.

Lemma send_request_recorded_raises t i msg :
  recorded (fst (send_request t i (Raises msg)))
  = (response_times t, status_codes t, errors t ++ [msg]).
Proof. reflexivity. Qed.

Lemma nth_error_finished_calls http l i q :
  nth_error (map (finished_call http) l) i = Some q -> is_finished q = true.
Proof.
  intros H. apply nth_error_In, in_map_iff in H as (j & <- & _). reflexivity.
Qed.

Lemma update_middle {A} (l r : list A) p q :
  update (length l) q (l ++ p :: r) = l ++ q :: r.
Proof. induction l as [|x l IH]; simpl; [reflexivity|]. now rewrite IH. Qed.

Lemma nth_error_middle {A} (l r : list A) p :
  nth_error (l ++ p :: r) (length l) = Some p.
Proof. induction l as [|x l IH]; simpl; auto. Qed.

Lemma main_step_recorded E w w' :
  main_step E w = Some w' ->
  recorded (obj w') = recorded (obj w)
  /\ (futures w' = futures w \/ futures w' = futures w ++ [Queued]).
Proof.
  unfold main_step. destruct (main w); try discriminate.
  - intros [= <-]. auto.
  - destruct (Z.of_nat i <? num_requests (obj w)); intros [= <-]; auto.
  - destruct (sleep_raises E (interval (obj w))); intros [= <-]; auto.
  - destruct (forallb is_finished (futures w)); [|discriminate]. intros [= <-]. auto.
  - destruct (print_results (obj w)); intros [= <-]; auto.
Qed.

Lemma in_sequence_main_step E t0 w w' :
  in_sequence E t0 w -> main_step E w = Some w' -> in_sequence E t0 w'.
Proof.
  intros (k & rest & Hf & Hcase) Hstep.
  apply main_step_recorded in Hstep as [Hrec [Hfut|Hfut]].
  - exists k, rest. rewrite Hfut, Hrec. auto.
  - destruct Hcase as [[-> Hr]|(p & m & -> & Hunf & Hr & Hag & Hst)].
    + exists k, [Queued]. rewrite Hfut, Hf, Hrec, app_nil_r. split; [reflexivity|].
      right. exists Queued, 0%nat. simpl. repeat split; auto. discriminate.
    + exists k, (p :: repeat Queued (S m)). rewrite Hfut, Hf, Hrec. split.
      * rewrite <- app_assoc. simpl. now rewrite <- repeat_cons.
      * right. exists p, (S m). auto.
Qed.

(** With one worker only the first call that is not finished can step. *)
Lemma single_worker_steps_head E w i k p m :
  num_threads (obj w) <= 1 ->
  futures w = map (finished_call (http E)) (seq 0 k) ++ p :: repeat Queued m ->
  is_finished p = false ->
  forall w', step E (Worker i) w = Some w' -> i = k.
Proof.
  intros Hth Hf Hunf w' Hstep.
  destruct (worker_step_enabled _ _ _ _ Hstep) as (p0 & Hi0 & Hcan).
  apply worker_step_inv in Hstep as (q & q' & t' & Hi & Hs & _).
  rewrite Hi in Hi0. injection Hi0 as <-.
  apply worker_step_unfinished in Hs.
  set (done := map (finished_call (http E)) (seq 0 k)) in *.
  assert (Hlen : length done = k) by (unfold done; now rewrite length_map, length_seq).
  assert (Hk : nth_error (futures w) k = Some p)
    by (rewrite Hf, <- Hlen; apply nth_error_middle).
  destruct (Nat.lt_trichotomy i k) as [Hlt|[Heq|Hgt]]; [|assumption|]; exfalso.
  - rewrite Hf, nth_error_app1 in Hi by lia.
    apply nth_error_finished_calls in Hi. congruence.
  - assert (Hq : q = Queued).
    { rewrite Hf, nth_error_app2 in Hi by lia.
      rewrite Hlen in Hi. destruct (i - k)%nat as [|j] eqn:Hj; [lia|].
      simpl in Hi. apply nth_error_In in Hi. now apply repeat_spec in Hi. }
    subst q. unfold can_step in Hcan. simpl in Hcan.
    apply andb_true_iff in Hcan as [Hcount Hfifo].
    apply negb_true_iff in Hfifo. apply Z.ltb_lt in Hcount.
    pose proof (existsb_firstn_false _ _ _ _ _ Hfifo Hgt Hk) as Hpq.
    assert (Hfly : flying p = 1%nat) by (unfold flying, in_flight; now rewrite Hpq, Hunf).
    pose proof (sum_over_nth_le flying _ _ _ Hk) as Hsum.
    rewrite count_if_flying in Hcount. lia.
Qed.

Lemma finished_prefix_grows http k (x : pc) r :
  x = finished_call http k ->
  map (finished_call http) (seq 0 k) ++ x :: r
  = map (finished_call http) (seq 0 (S k)) ++ r.
Proof.
  intros ->. rewrite seq_S, map_app, <- app_assoc. reflexivity.
Qed.

Lemma in_sequence_worker_step E t0 w w' i :
  num_threads (obj w) <= 1 ->
  in_sequence E t0 w -> step E (Worker i) w = Some w' -> in_sequence E t0 w'.
Proof.
  intros Hth (k & rest & Hf & Hcase) Hstep.
  destruct Hcase as [[-> Hr]|(p & m & -> & Hunf & Hr & Hag & Hst)].
  { exfalso. apply worker_step_inv in Hstep as (q & q' & t' & Hi & Hs & _).
    rewrite Hf, app_nil_r in Hi. apply nth_error_finished_calls in Hi.
    apply worker_step_unfinished in Hs. congruence. }
  pose proof (single_worker_steps_head _ _ _ _ _ _ Hth Hf Hunf _ Hstep) as ->.
  apply worker_step_inv in Hstep as (q & p' & t' & Hi & Hs & ->).
  set (done := map (finished_call (http E)) (seq 0 k)) in *.
  assert (Hlen : length done = k) by (unfold done; now rewrite length_map, length_seq).
  assert (q = p) as ->.
  { rewrite Hf, <- Hlen, nth_error_middle in Hi. congruence. }
  assert (Hupd : update k p' (futures w) = done ++ p' :: repeat Queued m).
  { rewrite Hf. rewrite <- Hlen at 1. apply update_middle. }
  set (base := run_in_order (http E) (seq 0 k) t0) in *.
  (* the call goes on without finishing *)
  assert (Hstay : forall p1 t1,
            is_finished p1 = false ->
            recorded t1 = recorded_during p1 base ->
            agrees (http E k) k (status_codes base) p1 ->
            (forall sc rt v, p1 = AtStore sc rt v ->
               v = (Dict.count Z.eqb sc (status_codes base) + 1)%nat) ->
            in_sequence E t0 (mkWorld t1 (main w) (done ++ p1 :: repeat Queued m) (log w))).
  { intros p1 t1 H1 H2 H3 H4. exists k, (p1 :: repeat Queued m).
    split; [reflexivity|]. right. exists p1, m. auto. }
  (* the call finishes *)
  assert (Hdone : forall c t1,
            Finished c = finished_call (http E) k ->
            recorded t1 = recorded (fst (send_request base k (http E k))) ->
            in_sequence E t0 (mkWorld t1 (main w) (done ++ Finished c :: repeat Queued m) (log w))).
  { intros c t1 Hc Hrec. exists (S k), (repeat Queued m). cbn [futures obj].
    split; [now apply finished_prefix_grows|].
    rewrite run_in_order_S. fold base.
    destruct m as [|m]; [left; auto|].
    right. exists Queued, m. simpl. repeat split; auto. discriminate. }
  rewrite Hupd.
  destruct p; simpl in Hs; try discriminate.
  - (* Queued *)
    injection Hs as <- <-. apply Hstay; auto. discriminate.
  - (* InRequest *)
    destruct (http E k) as [sc rt|msg] eqn:Ha; injection Hs as <- <-;
      apply Hstay; simpl; auto; try discriminate. eauto.
  - (* AtAppend *)
    injection Hs as <- <-. apply Hstay; auto; [|discriminate].
    unfold recorded, recorded_during in *. simpl. injection Hr as -> -> ->.
    reflexivity.
  - (* AtTest *)
    assert (Hsc : status_codes (obj w) = status_codes base).
    { unfold recorded, recorded_during in Hr. now injection Hr. }
    rewrite Hsc in Hs.
    destruct (Dict.mem Z.eqb status_code (status_codes base)) eqn:Hm;
      injection Hs as <- <-; apply Hstay; simpl; auto; try discriminate.
    intros sc rt v [= <- <- <-]. unfold Dict.mem in Hm. unfold Dict.count.
    destruct (Dict.get Z.eqb status_code (status_codes base)); [discriminate|reflexivity].
  - (* AtLoad *)
    assert (Hsc : status_codes (obj w) = status_codes base).
    { unfold recorded, recorded_during in Hr. now injection Hr. }
    rewrite Hsc in Hs. destruct Hag as [Ha Hm]. unfold Dict.mem in Hm.
    destruct (Dict.get Z.eqb status_code (status_codes base)) as [c|] eqn:Hg;
      [|discriminate].
    injection Hs as <- <-. apply Hstay; simpl; auto.
    intros sc rt v [= <- <- <-]. unfold Dict.count. now rewrite Hg.
  - (* AtStore *)
    injection Hs as <- <-. simpl in Hag.
    apply Hdone.
    + unfold finished_call. now rewrite Hag.
    + rewrite Hag, send_request_recorded_got.
      rewrite <- (Hst _ _ _ eq_refl).
      unfold recorded, recorded_during in *. simpl. injection Hr as -> -> ->.
      reflexivity.
  - (* AtHandler *)
    injection Hs as <- <-. simpl in Hag. destruct Hag as (msg & Ha & ->).
    apply Hdone.
    + unfold finished_call. now rewrite Ha.
    + rewrite Ha, send_request_recorded_raises.
      unfold recorded, recorded_during in *. simpl. injection Hr as -> -> ->.
      reflexivity.
Qed.

Lemma run_in_order_lists http ids t :
  response_times (run_in_order http ids t) = response_times t ++ times_of http ids
  /\ errors (run_in_order http ids t) = errors t ++ texts_of http ids.
Proof.
  revert t; induction ids as [|i ids IH]; intros t; simpl.
  - now rewrite !app_nil_r.
  - destruct (IH (fst (send_request t i (http i)))) as [-> ->].
    unfold times_of, texts_of. simpl.
    destruct (http i) as [sc rt|msg].
    + pose proof (send_request_recorded_got t i sc rt) as H.
      pose proof (f_equal (fun r => fst (fst r)) H) as H1.
      pose proof (f_equal snd H) as H2.
      unfold recorded in H1, H2. simpl in H1, H2. rewrite H1, H2.
      now rewrite <- app_assoc.
    + change (response_times (fst (send_request t i (Raises msg))))
        with (response_times t).
      change (errors (fst (send_request t i (Raises msg))))
        with (errors t ++ [msg]).
      now rewrite <- app_assoc.
Qed.

Lemma in_sequence_exec E t0 sched w w' :
  num_threads t0 <= 1 ->
  invariant E t0 w -> in_sequence E t0 w ->
  exec E sched w = Some w' -> in_sequence E t0 w'.
Proof.
  intros Hth. revert w; induction sched as [|c sched IH]; intros w Hinv Hseq; simpl.
  - now intros [= <-].
  - destruct (step E c w) as [w1|] eqn:Hs; [|discriminate].
    apply IH; [eapply invariant_step; eauto|].
    destruct c as [|i].
    + eapply in_sequence_main_step; eauto.
    + eapply in_sequence_worker_step; eauto.
      pose proof (inv_config _ _ _ Hinv) as (_ & H & _). now rewrite H.
Qed.

(** X16. With a single worker the outcome of a run does not depend on the
    schedule: once the barrier has returned, the elapsed times, the
    status-code counts and the error texts are those that [send_request]
    leaves when it is called for the request ids in ascending order on the
    new tester; in particular the elapsed times, and the error texts,
    stand in the order of the request ids. *)
Theorem single_worker_records_in_order
    (E : env) (u : string) (threads n : Z) (iv : Q) (sched : list choice) (w : world) :
  threads <= 1 ->
  exec E sched (boot (init u threads n iv)) = Some w ->
  past_barrier (main w) = true ->
  let ids := seq 0 (Z.to_nat n) in
  recorded (obj w) = recorded (run_in_order (http E) ids (init u threads n iv))
  /\ response_times (obj w) = times_of (http E) ids
  /\ errors (obj w) = texts_of (http E) ids.
Proof.
  intros Hth Hexec Hb ids.
  assert (Hr : reachable E (init u threads n iv) w) by (exists sched; exact Hexec).
  destruct (barrier_state _ _ _ _ _ _ Hr Hb) as (Hf & _).
  assert (Hseq : in_sequence E (init u threads n iv) w).
  { eapply in_sequence_exec; [exact Hth|apply invariant_boot| |exact Hexec].
    exists 0%nat, []. split; [reflexivity|]. left. auto. }
  destruct Hseq as (k & rest & Hf' & Hcase).
  assert (Hrec : recorded (obj w)
                 = recorded (run_in_order (http E) ids (init u threads n iv))).
  { destruct Hcase as [[-> Hrec]|(p & m & -> & Hunf & _)].
    - rewrite app_nil_r in Hf'.
      assert (k = Z.to_nat n) as ->.
      { apply (f_equal (@length pc)) in Hf, Hf'.
        rewrite length_map, length_seq in Hf, Hf'. congruence. }
      exact Hrec.
    - exfalso.
      assert (Hall : forallb is_finished (futures w) = true)
        by (rewrite Hf; apply finished_calls_finished).
      rewrite Hf', forallb_app in Hall.
      apply andb_true_iff in Hall as [_ Hall]. simpl in Hall.
      rewrite Hunf in Hall. discriminate. }
  split; [exact Hrec|].
  destruct (run_in_order_lists (http E) ids (init u threads n iv)) as [Ht He].
  pose proof (f_equal (fun r => fst (fst r)) Hrec) as H1.
  pose proof (f_equal snd Hrec) as H2.
  unfold recorded in H1, H2. simpl in H1, H2, Ht, He.
  rewrite H1, H2. auto.
Qed.

Lemma single_worker_records_in_order_witness :
  exists w,
    exec env_two_errors schedule_two_errors (boot (init "http://myapp.com/api" 1 3 0))
    = Some w
    /\ response_times (obj w) = [1 # 10]
    /\ errors (obj w) = ["b"; "a"]%string.
Proof.
  eexists. split; [vm_compute; reflexivity|].
  destruct (single_worker_records_in_order env_two_errors "http://myapp.com/api" 1 3 0
              schedule_two_errors _ ltac:(lia) ltac:(vm_compute; reflexivity) eq_refl)
    as (_ & Ht & He).
  split; [exact Ht|exact He].
Defined.
